(** * hbtad: packet statistics, normalized distance and k-means

    A shallow embedding of [hbtad.c]: the per-frame callback [got_packet]
    with the seven global histogram arrays, the distance function [n_e_d]
    with [std_dev], and [kmeans] with [mean_vec].

    Conventions of the embedding.
    - A C [int] is a [Z] in [INT_MIN, INT_MAX]; arithmetic that may leave the
      range is written with [wrap_int] (the two's-complement result).
    - A captured frame is the list of its [caplen] bytes.  A load at an offset
      at or beyond [caplen], a store outside the declared bounds of an array
      and an integer division by zero have no defined behaviour in C; the
      embedding stops with a [fault] that names the access.
    - [float] and [double] are IEEE 754 binary32 and binary64 with
      round-to-nearest-even, as given by [SpecFloat]; every conversion the C
      code performs implicitly is written out.  [sqrt] is the correctly
      rounded square root and [pow(x, 2)] the correctly rounded product
      [x * x].
    - What the program takes from its platform and not from its own text (the
      byte order of the host, the [IPPROTO_*] numbers of <netinet/in.h>, the
      result of an out-of-range float-to-int conversion) is a field of
      [platform].
    - Of the console output only the message about the frame is kept, as the
      [report] of [got_packet]; the packet counter is left out.
    - The vectors a caller passes are lists of lists, as long as the caller
      says.  The block [kmeans] allocates for [mean_vecs] is a list of
      cells, each the pointer stored there or nothing: the program reads it
      as an array of row pointers and never stores one in it.  Loading a
      cell beyond the block and reading or writing through a cell that was
      never stored have no defined behaviour either, and are faults. *)

From Stdlib Require Import ZArith Lia Bool.
From Stdlib Require Import Floats.SpecFloat.
From Stdlib Require Import Strings.Byte.
From stdpp Require Import base list.

Local Open Scope Z_scope.

(** ** Machine integers *)

Definition INT_MAX : Z := 2147483647.
Definition INT_MIN : Z := -2147483648.

(** The value of a 32-bit two's-complement [int] holding [z] modulo 2^32. *)
Definition wrap_int (z : Z) : Z := (z + 2 ^ 31) mod 2 ^ 32 - 2 ^ 31.

(** [abs] of <stdlib.h>; [abs(INT_MIN)] stays [INT_MIN]. *)
Definition abs_int (z : Z) : Z := wrap_int (Z.abs z).

(** ** Platform *)

Inductive byte_order : Set := LittleEndian | BigEndian.

Record platform : Set := {
  host_order : byte_order;
  IPPROTO_TCP : Z;
  IPPROTO_UDP : Z;
  IPPROTO_ICMP : Z;
  IPPROTO_IP : Z;
  (* what [(int)x] yields for a NaN or a value outside the range of [int] *)
  float_to_int_invalid : Z
}.

(** Linux on x86-64: little-endian, the protocol numbers of <netinet/in.h>,
    and the "integer indefinite" value of [cvttss2si]. *)
Definition linux_x86_64 : platform := {|
  host_order := LittleEndian;
  IPPROTO_TCP := 6;
  IPPROTO_UDP := 17;
  IPPROTO_ICMP := 1;
  IPPROTO_IP := 0;
  float_to_int_invalid := INT_MIN
|}.

(** ** Faults and the error monad *)

Inductive array_id : Set :=
  | A_src_ip_addrs | A_dst_ip_addrs | A_src_ports | A_dst_ports
  | A_protocols | A_packet_sizes | A_flags.

Inductive fault : Set :=
  | ReadPastCaplen (offset : Z)
  | WriteOutOfBounds (a : array_id) (index : Z)
  | DivisionByZero
  | LoadOutsideBlock (cell : Z)
  | UninitialisedPointer (cell : Z).

Inductive outcome (A : Type) : Type :=
  | Done (a : A)
  | Fault (f : fault).
Arguments Done {A} a.
Arguments Fault {A} f.

Definition bind {A B : Type} (m : outcome A) (k : A -> outcome B) : outcome B :=
  match m with
  | Done a => k a
  | Fault f => Fault f
  end.

Notation "x <- m ;; k" := (bind m (fun x => k))
  (at level 100, m at next level, right associativity).

(** ** Frames *)

Definition SNAP_LEN : Z := 1518.
Definition SIZE_ETHERNET : Z := 14.

Definition byte_val (b : byte) : Z := Z.of_N (Byte.to_N b).

(** [*(u_char * )(packet + off)] *)
Definition read_u8 (packet : list byte) (off : Z) : outcome Z :=
  match packet !! Z.to_nat off with
  | Some b => Done (byte_val b)
  | None => Fault (ReadPastCaplen off)
  end.

(** A [u_short] field loaded as the host lays it out. *)
Definition read_u16 (P : platform) (packet : list byte) (off : Z) : outcome Z :=
  b0 <- read_u8 packet off ;;
  b1 <- read_u8 packet (off + 1) ;;
  Done (match host_order P with
        | LittleEndian => Z.lor b0 (Z.shiftl b1 8)
        | BigEndian => Z.lor (Z.shiftl b0 8) b1
        end).

(** A 32-bit field ([s_addr]) loaded as the host lays it out. *)
Definition read_u32 (P : platform) (packet : list byte) (off : Z) : outcome Z :=
  b0 <- read_u8 packet off ;;
  b1 <- read_u8 packet (off + 1) ;;
  b2 <- read_u8 packet (off + 2) ;;
  b3 <- read_u8 packet (off + 3) ;;
  Done (match host_order P with
        | LittleEndian =>
            Z.lor (Z.lor b0 (Z.shiftl b1 8)) (Z.lor (Z.shiftl b2 16) (Z.shiftl b3 24))
        | BigEndian =>
            Z.lor (Z.lor (Z.shiftl b0 24) (Z.shiftl b1 16)) (Z.lor (Z.shiftl b2 8) b3)
        end).

(** [ntohs]: the identity on a big-endian host, a byte swap otherwise. *)
Definition ntohs (P : platform) (x : Z) : Z :=
  match host_order P with
  | LittleEndian => Z.lor (Z.shiftl (Z.land x 255) 8) (Z.land (Z.shiftr x 8) 255)
  | BigEndian => x
  end.

(** Offsets of the fields of [struct sniff_ip] and [struct sniff_tcp]. *)
Definition off_ip_vhl : Z := 0.
Definition off_ip_len : Z := 2.
Definition off_ip_p : Z := 9.
Definition off_ip_src : Z := 12.
Definition off_ip_dst : Z := 16.
Definition off_th_sport : Z := 0.
Definition off_th_dport : Z := 2.
Definition off_th_offx2 : Z := 12.
Definition off_th_flags : Z := 13.

Definition IP_HL (ip_vhl : Z) : Z := Z.land ip_vhl 15.
Definition TH_OFF (th_offx2 : Z) : Z := Z.shiftr (Z.land th_offx2 240) 4.

(** [(int)((s_addr >> 24) & 0xFF)]: the most significant byte of a 32-bit
    address as the host loaded it. *)
Definition top_octet (s_addr : Z) : Z := Z.land (Z.shiftr s_addr 24) 255.

(** ** The histograms *)

Record HistogramSet : Set := {
  src_ip_addrs : list Z;   (* int src_ip_addrs[256] *)
  dst_ip_addrs : list Z;   (* int dst_ip_addrs[256] *)
  src_ports : list Z;      (* int src_ports[1024] *)
  dst_ports : list Z;      (* int dst_ports[1024] *)
  protocols : list Z;      (* int protocols[4] *)
  packet_sizes : list Z;   (* int packet_sizes[SNAP_LEN] *)
  flags : list Z           (* int flags[256] *)
}.

Definition set_src_ip_addrs (hs : HistogramSet) (v : list Z) : HistogramSet :=
  {| src_ip_addrs := v; dst_ip_addrs := dst_ip_addrs hs; src_ports := src_ports hs;
     dst_ports := dst_ports hs; protocols := protocols hs;
     packet_sizes := packet_sizes hs; flags := flags hs |}.
Definition set_dst_ip_addrs (hs : HistogramSet) (v : list Z) : HistogramSet :=
  {| src_ip_addrs := src_ip_addrs hs; dst_ip_addrs := v; src_ports := src_ports hs;
     dst_ports := dst_ports hs; protocols := protocols hs;
     packet_sizes := packet_sizes hs; flags := flags hs |}.
Definition set_src_ports (hs : HistogramSet) (v : list Z) : HistogramSet :=
  {| src_ip_addrs := src_ip_addrs hs; dst_ip_addrs := dst_ip_addrs hs; src_ports := v;
     dst_ports := dst_ports hs; protocols := protocols hs;
     packet_sizes := packet_sizes hs; flags := flags hs |}.
Definition set_dst_ports (hs : HistogramSet) (v : list Z) : HistogramSet :=
  {| src_ip_addrs := src_ip_addrs hs; dst_ip_addrs := dst_ip_addrs hs;
     src_ports := src_ports hs; dst_ports := v; protocols := protocols hs;
     packet_sizes := packet_sizes hs; flags := flags hs |}.
Definition set_protocols (hs : HistogramSet) (v : list Z) : HistogramSet :=
  {| src_ip_addrs := src_ip_addrs hs; dst_ip_addrs := dst_ip_addrs hs;
     src_ports := src_ports hs; dst_ports := dst_ports hs; protocols := v;
     packet_sizes := packet_sizes hs; flags := flags hs |}.
Definition set_packet_sizes (hs : HistogramSet) (v : list Z) : HistogramSet :=
  {| src_ip_addrs := src_ip_addrs hs; dst_ip_addrs := dst_ip_addrs hs;
     src_ports := src_ports hs; dst_ports := dst_ports hs; protocols := protocols hs;
     packet_sizes := v; flags := flags hs |}.
Definition set_flags (hs : HistogramSet) (v : list Z) : HistogramSet :=
  {| src_ip_addrs := src_ip_addrs hs; dst_ip_addrs := dst_ip_addrs hs;
     src_ports := src_ports hs; dst_ports := dst_ports hs; protocols := protocols hs;
     packet_sizes := packet_sizes hs; flags := v |}.

(** The state [load] sets up before it starts the capture loop. *)
Definition load_histograms : HistogramSet := {|
  src_ip_addrs := replicate 256 0;
  dst_ip_addrs := replicate 256 0;
  src_ports := replicate 1024 0;
  dst_ports := replicate 1024 0;
  protocols := replicate 4 0;
  packet_sizes := replicate (Z.to_nat SNAP_LEN) 0;
  flags := replicate 256 0
|}.

(** The array after [arr[i]++], for [i] within the array. *)
Definition bump (i : Z) (arr : list Z) : list Z :=
  alter (fun c => wrap_int (c + 1)) (Z.to_nat i) arr.

(** [arr[i]++] on an array declared with [size] elements. *)
Definition incr (id : array_id) (size : Z) (arr : list Z) (i : Z) : outcome (list Z) :=
  if (0 <=? i) && (i <? size)
  then Done (bump i arr)
  else Fault (WriteOutOfBounds id i).

(** What [got_packet] prints about the frame, the packet number apart. *)
Inductive report : Set :=
  | NoReport
  | InvalidIPHeaderLength (size_ip : Z)
  | InvalidTCPHeaderLength (size_tcp : Z)
  | PacketOversized (bytes : Z).

(** ** [got_packet] *)

(** The part of [got_packet] after the [switch]: "OK, this packet is TCP". *)
Definition got_packet_tcp (P : platform) (hs : HistogramSet) (packet : list byte)
    (size_ip : Z) : outcome (HistogramSet * report) :=
  let tcp := SIZE_ETHERNET + size_ip in
  th_offx2 <- read_u8 packet (tcp + off_th_offx2) ;;
  let size_tcp := TH_OFF th_offx2 * 4 in
  if size_tcp <? 20 then Done (hs, InvalidTCPHeaderLength size_tcp) else
  th_flags <- read_u8 packet (tcp + off_th_flags) ;;
  fl <- incr A_flags 256 (flags hs) th_flags ;;
  let hs := set_flags hs fl in
  th_sport <- read_u16 P packet (tcp + off_th_sport) ;;
  hs <- (if th_sport <? 1024
         then sp <- incr A_src_ports 1024 (src_ports hs) th_sport ;;
              Done (set_src_ports hs sp)
         else Done hs) ;;
  th_dport <- read_u16 P packet (tcp + off_th_dport) ;;
  hs <- (if th_dport <? 1024
         then dp <- incr A_dst_ports 1024 (dst_ports hs) th_dport ;;
              Done (set_dst_ports hs dp)
         else Done hs) ;;
  ip_len <- read_u16 P packet (SIZE_ETHERNET + off_ip_len) ;;
  let size_payload := ntohs P ip_len - (size_ip + size_tcp) in
  if size_payload + SIZE_ETHERNET + size_ip <? SNAP_LEN
  then ps <- incr A_packet_sizes SNAP_LEN (packet_sizes hs) size_payload ;;
       Done (set_packet_sizes hs ps, NoReport)
  else Done (hs, PacketOversized (size_payload + SIZE_ETHERNET + size_ip)).

(** The non-TCP arms of the [switch]: an optional [protocols] slot, then
    [packet_sizes[SIZE_ETHERNET + size_ip]++] and [return]. *)
Definition got_packet_other (hs : HistogramSet) (slot : option Z) (size_ip : Z)
    : outcome (HistogramSet * report) :=
  hs <- match slot with
        | Some k => pr <- incr A_protocols 4 (protocols hs) k ;;
                    Done (set_protocols hs pr)
        | None => Done hs
        end ;;
  ps <- incr A_packet_sizes SNAP_LEN (packet_sizes hs) (SIZE_ETHERNET + size_ip) ;;
  Done (set_packet_sizes hs ps, NoReport).

Definition got_packet (P : platform) (hs : HistogramSet) (packet : list byte)
    : outcome (HistogramSet * report) :=
  let ip := SIZE_ETHERNET in
  ip_vhl <- read_u8 packet (ip + off_ip_vhl) ;;
  let size_ip := IP_HL ip_vhl * 4 in
  if size_ip <? 20 then Done (hs, InvalidIPHeaderLength size_ip) else
  ip_src <- read_u32 P packet (ip + off_ip_src) ;;
  sa <- incr A_src_ip_addrs 256 (src_ip_addrs hs) (top_octet ip_src) ;;
  let hs := set_src_ip_addrs hs sa in
  ip_dst <- read_u32 P packet (ip + off_ip_dst) ;;
  da <- incr A_dst_ip_addrs 256 (dst_ip_addrs hs) (top_octet ip_dst) ;;
  let hs := set_dst_ip_addrs hs da in
  ip_p <- read_u8 packet (ip + off_ip_p) ;;
  if ip_p =? IPPROTO_TCP P then
    pr <- incr A_protocols 4 (protocols hs) 0 ;;
    got_packet_tcp P (set_protocols hs pr) packet size_ip
  else if ip_p =? IPPROTO_UDP P then got_packet_other hs (Some 1) size_ip
  else if ip_p =? IPPROTO_ICMP P then got_packet_other hs (Some 2) size_ip
  else if ip_p =? IPPROTO_IP P then got_packet_other hs (Some 3) size_ip
  else got_packet_other hs None size_ip.

(** [pcap_loop]: the callback runs on every frame of the capture in turn. *)
Fixpoint pcap_loop (P : platform) (hs : HistogramSet) (frames : list (list byte))
    : outcome (HistogramSet * list report) :=
  match frames with
  | [] => Done (hs, [])
  | packet :: rest =>
      r <- got_packet P hs packet ;;
      rs <- pcap_loop P r.1 rest ;;
      Done (rs.1, r.2 :: rs.2)
  end.

(** ** IEEE 754 arithmetic of [float] and [double] *)

Definition float_prec : Z := 24.
Definition float_emax : Z := 128.
Definition double_prec : Z := 53.
Definition double_emax : Z := 1024.

Definition float_add : spec_float -> spec_float -> spec_float := SFadd float_prec float_emax.
Definition float_sub : spec_float -> spec_float -> spec_float := SFsub float_prec float_emax.
Definition float_mul : spec_float -> spec_float -> spec_float := SFmul float_prec float_emax.
Definition float_div : spec_float -> spec_float -> spec_float := SFdiv float_prec float_emax.
Definition double_add : spec_float -> spec_float -> spec_float := SFadd double_prec double_emax.
Definition double_mul : spec_float -> spec_float -> spec_float := SFmul double_prec double_emax.
Definition double_div : spec_float -> spec_float -> spec_float := SFdiv double_prec double_emax.

(** [sqrt] of <math.h>, correctly rounded. *)
Definition double_sqrt : spec_float -> spec_float := SFsqrt double_prec double_emax.

(** [pow(x, 2)]: the correctly rounded square [x * x]; it is exact whenever
    the square has at most 53 significant bits. *)
Definition pow_2 (x : spec_float) : spec_float := double_mul x x.

(** The number [z * 2^e] rounded to the format of precision [prec] and
    exponent bound [emax]. *)
Definition dyadic (prec emax z e : Z) : spec_float := binary_normalize prec emax z e false.

(** The implicit conversions of an [int] operand. *)
Definition float_of_int (z : Z) : spec_float := dyadic float_prec float_emax z 0.
Definition double_of_int (z : Z) : spec_float := dyadic double_prec double_emax z 0.

(** The implicit conversions between the two formats. *)
Definition double_of_float (x : spec_float) : spec_float :=
  match x with
  | S754_finite s m e => binary_round double_prec double_emax s m e
  | _ => x
  end.
Definition float_of_double (x : spec_float) : spec_float :=
  match x with
  | S754_finite s m e => binary_round float_prec float_emax s m e
  | _ => x
  end.

(** [(int)x]: truncation toward zero; C leaves the result open when the
    truncated value is no [int] or [x] is no number. *)
Definition int_of_float (P : platform) (x : spec_float) : Z :=
  match x with
  | S754_zero _ => 0
  | S754_finite s m e =>
      let v := cond_Zopp s (Z.shiftl (Zpos m) e) in
      if (INT_MIN <=? v) && (v <=? INT_MAX) then v else float_to_int_invalid P
  | _ => float_to_int_invalid P
  end.

Definition float_zero : spec_float := S754_zero false.

(** C's [x == y] on floating-point operands. *)
Definition float_eq (x y : spec_float) : bool := SFeqb x y.

(** ** [std_dev] and [n_e_d] *)

(** [vals] holds at least [n] elements. *)
Definition std_dev (vals : list spec_float) (n : Z) : spec_float :=
  if n =? 0 then float_zero else
  let vals := take (Z.to_nat n) vals in
  let sum := fold_left (fun sum v => double_add sum (double_of_float v)) vals float_zero in
  let mean := float_of_double (double_div sum (double_of_int n)) in
  let sq_diff_sum :=
    fold_left (fun sq_diff_sum v =>
                 let diff := float_sub v mean in
                 float_add sq_diff_sum (float_mul diff diff)) vals float_zero in
  let variance := float_div sq_diff_sum (float_of_int n) in
  float_of_double (double_sqrt (double_of_float variance)).

(** What one round of the loop of [n_e_d] adds to [d]:
    [sqrt(pow(abs(vec1[i] - vec2[i]), 2) / pow(sd, 2))], a [double]. *)
Definition n_e_d_term (a b : Z) : spec_float :=
  let vals := [float_of_int a; float_of_int b] in
  let sd := std_dev vals 2 in
  double_sqrt (double_div (pow_2 (double_of_int (abs_int (wrap_int (a - b)))))
                          (pow_2 (double_of_float sd))).

(** [d += ...] with [float d]. *)
Definition n_e_d_step (d : spec_float) (ab : Z * Z) : spec_float :=
  float_of_double (double_add (double_of_float d) (n_e_d_term ab.1 ab.2)).

(** Both vectors hold at least [len] elements. *)
Definition n_e_d (vec1 vec2 : list Z) (len : Z) : spec_float :=
  fold_left n_e_d_step (take (Z.to_nat len) (zip vec1 vec2)) float_zero.

(** The distance as section 4.4 of the specification words it: the
    contributions [(a[i]-b[i])^2 / stddev^2] are summed and one square root is
    taken of the sum. *)
Definition spec_contribution (a b : Z) : spec_float :=
  let sd := std_dev [float_of_int a; float_of_int b] 2 in
  double_div (pow_2 (double_of_int (abs_int (wrap_int (a - b)))))
             (pow_2 (double_of_float sd)).

Definition spec_distance (a b : list Z) : spec_float :=
  float_of_double
    (double_sqrt (fold_left (fun s ab => double_add s (spec_contribution ab.1 ab.2))
                            (zip a b) float_zero)).

(** ** [mean_vec] and [kmeans] *)

(** [mean_vec] points [m_vec] at a fresh block before it writes: the caller's
    storage is untouched and the means are lost on return.  The embedding
    returns that block for inspection; [kmeans] drops it. *)
Definition mean_vec (vecs : list (list Z)) (num_vecs vec_len : Z) : outcome (list Z) :=
  let column (i : nat) : outcome Z :=
    let sum := fold_left (fun sum (v : list Z) => wrap_int (sum + v !!! i))
                         (take (Z.to_nat num_vecs) vecs) 0 in
    if num_vecs =? 0 then Fault DivisionByZero else Done (Z.quot sum num_vecs) in
  fold_right (fun i rest => m <- column i ;; ms <- rest ;; Done (m :: ms))
             (Done []) (seq 0 (Z.to_nat vec_len)).

(** The three scalars the assignment loops share. *)
Record assign_state : Set := { dist : Z; min_dist : Z; min_centroid : Z }.

(** The body of the inner loop once [mean_vecs[j]] is at hand, [jc.2] being
    the row behind it: [dist = n_e_d(...)], then the comparison. *)
Definition assign_step (P : platform) (vec_len : Z) (v : list Z)
    (st : assign_state) (jc : nat * list Z) : assign_state :=
  let st := {| dist := int_of_float P (n_e_d v jc.2 vec_len);
               min_dist := min_dist st; min_centroid := min_centroid st |} in
  if dist st <? min_dist st
  then {| dist := min_dist st; min_dist := min_dist st; min_centroid := Z.of_nat jc.1 |}
  else st.

Definition SIZEOF_INT : Z := 4.

(** [sizeof(int * )] under LP64. *)
Definition SIZEOF_POINTER : Z := 8.

(** A cell of [mean_vecs]: the row the pointer stored there points to, or
    [None] where nothing was stored and the value is indeterminate. *)
Definition row_pointer : Type := option (list Z).

(** [mean_vecs = malloc(num_clusters*vec_len*sizeof(int))], an [int **]: the
    pointer cells that fit the block, none of them stored.  A negative
    product asks for more than can be had, and there is no cell at all. *)
Definition malloc_mean_vecs (num_clusters vec_len : Z) : list row_pointer :=
  replicate (Z.to_nat (wrap_int (num_clusters * vec_len) * SIZEOF_INT / SIZEOF_POINTER))
            None.

(** [mean_vecs[i]], loaded. *)
Definition load_pointer (mean_vecs : list row_pointer) (i : nat) : outcome row_pointer :=
  match mean_vecs !! i with
  | Some p => Done p
  | None => Fault (LoadOutsideBlock (Z.of_nat i))
  end.

(** The row behind the pointer of cell [i], where it is read or written. *)
Definition deref (i : nat) (p : row_pointer) : outcome (list Z) :=
  match p with
  | Some row => Done row
  | None => Fault (UninitialisedPointer (Z.of_nat i))
  end.

(** [for (i = 0; i < n; i++) body], over the indices [range]. *)
Fixpoint for_each {S : Type} (body : nat -> S -> outcome S) (range : list nat) (s : S)
    : outcome S :=
  match range with
  | [] => Done s
  | i :: range => s <- body i s ;; for_each body range s
  end.

(** [mean_vecs[i][j] = vecs[i][j]]; a row behind a cell holds at least
    [vec_len] entries. *)
Definition copy_entry (vecs : list (list Z)) (i j : nat) (mean_vecs : list row_pointer)
    : outcome (list row_pointer) :=
  p <- load_pointer mean_vecs i ;;
  row <- deref i p ;;
  Done (<[i := Some (<[j := (vecs !!! i) !!! j]> row)]> mean_vecs).

(** The initialisation loops. *)
Definition init_centroids (vecs : list (list Z)) (vec_len num_clusters : Z)
    (mean_vecs : list row_pointer) : outcome (list row_pointer) :=
  for_each (fun i => for_each (copy_entry vecs i) (seq 0 (Z.to_nat vec_len)))
           (seq 0 (Z.to_nat num_clusters)) mean_vecs.

(** The second argument of [n_e_d(vecs[i], mean_vecs[j], vec_len)]: the cell
    is loaded for the call, and [n_e_d] reads through it in its loop, which
    runs for [1 <= vec_len] only. *)
Definition centroid_row (mean_vecs : list row_pointer) (vec_len : Z) (j : nat)
    : outcome (list Z) :=
  p <- load_pointer mean_vecs j ;;
  (if 1 <=? vec_len then deref j p else Done (default [] p)).

(** One round of the outer assignment loop: the pass over the centroids,
    then [map[i] = min_centroid].  Nothing is reset between vectors. *)
Definition assign_vector (P : platform) (vecs : list (list Z)) (vec_len num_clusters : Z)
    (mean_vecs : list row_pointer) (i : nat) (s : list Z * assign_state)
    : outcome (list Z * assign_state) :=
  st <- for_each (fun j st =>
                    c <- centroid_row mean_vecs vec_len j ;;
                    Done (assign_step P vec_len (vecs !!! i) st (j, c)))
                 (seq 0 (Z.to_nat num_clusters)) s.2 ;;
  Done (<[i := min_centroid st]> s.1, st).

(** The assignment loops, from [map] and the scalars as they are on entry. *)
Definition assign_vectors (P : platform) (vecs : list (list Z))
    (num_vecs vec_len num_clusters : Z) (mean_vecs : list row_pointer)
    (s : list Z * assign_state) : outcome (list Z * assign_state) :=
  for_each (assign_vector P vecs vec_len num_clusters mean_vecs)
           (seq 0 (Z.to_nat num_vecs)) s.

(** The recomputation loop: the vectors of cluster [i] are collected and
    handed to [mean_vec] with [mean_vecs[i]], which [mean_vec] overwrites
    before use. *)
Definition recompute (mean_vecs : list row_pointer) (vecs : list (list Z)) (map : list Z)
    (vec_len num_clusters : Z) : outcome (list (list Z)) :=
  fold_right
    (fun i rest =>
       let tmp_vecs := (filter (fun mv : Z * list Z => mv.1 = Z.of_nat i) (zip map vecs)).*2 in
       _ <- load_pointer mean_vecs i ;;
       m <- mean_vec tmp_vecs (Z.of_nat (length tmp_vecs)) vec_len ;;
       ms <- rest ;;
       Done (m :: ms))
    (Done []) (seq 0 (Z.to_nat num_clusters)).

(** [kmeans]: [NULL] is [None].  [uninit] is what [min_centroid], [dist] and
    the entries of [map] hold before their first assignment. *)
Definition kmeans (P : platform) (uninit : Z) (vecs : list (list Z))
    (num_vecs vec_len num_clusters : Z) : outcome (option (list Z)) :=
  if num_vecs <? num_clusters then Done None else
  let map := replicate (Z.to_nat num_vecs) uninit in
  mean_vecs <- init_centroids vecs vec_len num_clusters
                 (malloc_mean_vecs num_clusters vec_len) ;;
  let st := {| dist := uninit; min_dist := INT_MAX; min_centroid := uninit |} in
  r <- assign_vectors P vecs num_vecs vec_len num_clusters mean_vecs (map, st) ;;
  _ <- recompute mean_vecs (take (Z.to_nat num_vecs) vecs) r.1 vec_len num_clusters ;;
  Done None.

(** ** [print_hex_ascii_line] and [print_payload]

    What the two printers write to the console, as the list of the
    characters written. *)

(** The character with code [z]. *)
Definition char (z : Z) : byte := default x00 (Byte.of_N (Z.to_N z)).

Definition space : byte := x20.
Definition newline : byte := x0a.

(** The decimal digits of [n], for [0 <= n] below [10^fuel]. *)
Fixpoint decimal (fuel : nat) (n : Z) (acc : list byte) : list byte :=
  match fuel with
  | O => acc
  | S fuel =>
      let acc := char (48 + n mod 10) :: acc in
      if n / 10 =? 0 then acc else decimal fuel (n / 10) acc
  end.

(** [printf("%05d", z)] for an [int]: sign, zeros up to five characters,
    digits. *)
Definition printf_05d (z : Z) : list byte :=
  let ds := decimal 10 (Z.abs z) [] in
  let sign := if z <? 0 then [x2d] else [] in
  sign ++ replicate (5 - length sign - length ds) x30 ++ ds.

Definition hex_digit (d : Z) : byte := if d <? 10 then char (48 + d) else char (87 + d).

(** [printf("%02x", c)] for an [u_char]. *)
Definition printf_02x (c : Z) : list byte := [hex_digit (c / 16); hex_digit (c mod 16)].

(** [isprint] in the "C" locale, the one in force: the program never calls
    [setlocale]. *)
Definition isprint (c : Z) : bool := (32 <=? c) && (c <=? 126).

(** The first loop of [print_hex_ascii_line], from index [i] on, [n] rounds. *)
Fixpoint hex_loop (payload : list byte) (i : Z) (n : nat) : outcome (list byte) :=
  match n with
  | O => Done []
  | S n =>
      c <- read_u8 payload i ;;
      rest <- hex_loop payload (i + 1) n ;;
      Done (printf_02x c ++ [space] ++ (if i =? 7 then [space] else []) ++ rest)
  end.

(** What the last loop prints for a byte: the byte itself if printable, a
    dot otherwise. *)
Definition ascii_or_dot (c : Z) : byte := if isprint c then char c else x2e.

Fixpoint ascii_loop (payload : list byte) (i : Z) (n : nat) : outcome (list byte) :=
  match n with
  | O => Done []
  | S n =>
      c <- read_u8 payload i ;;
      rest <- ascii_loop payload (i + 1) n ;;
      Done (ascii_or_dot c :: rest)
  end.

(** [print_hex_ascii_line]: what it writes to the console. *)
Definition print_hex_ascii_line (payload : list byte) (len offset : Z)
    : outcome (list byte) :=
  hex <- hex_loop payload 0 (Z.to_nat len) ;;
  let pad := if len <? 8 then [space] else [] in
  let gap := if len <? 16
             then concat (replicate (Z.to_nat (wrap_int (16 - len))) [space; space; space])
             else [] in
  ascii <- ascii_loop payload 0 (Z.to_nat len) ;;
  Done (printf_05d offset ++ [space; space; space] ++ hex ++ pad ++ gap
        ++ [space; space; space] ++ ascii ++ [newline]).

(** The [for ( ;; )] of [print_payload]; [None] when [fuel] rounds did not
    reach the [break].  [ch] is what the pointer [ch] points at. *)
Fixpoint print_payload_loop (fuel : nat) (ch : list byte) (len_rem offset : Z)
    : outcome (option (list byte)) :=
  match fuel with
  | O => Done None
  | S fuel =>
      if len_rem =? 0 then Fault DivisionByZero else
      let line_len := Z.rem 16 len_rem in
      line <- print_hex_ascii_line ch line_len offset ;;
      let len_rem := wrap_int (len_rem - line_len) in
      let ch := drop (Z.to_nat line_len) ch in
      let offset := wrap_int (offset + 16) in
      if len_rem <=? 16 then
        last <- print_hex_ascii_line ch len_rem offset ;;
        Done (Some (line ++ last))
      else
        rest <- print_payload_loop fuel ch len_rem offset ;;
        Done (app line <$> rest)
  end.

(** [print_payload]. *)
Definition print_payload (fuel : nat) (payload : list byte) (len : Z)
    : outcome (option (list byte)) :=
  if len <=? 0 then Done (Some []) else
  if len <=? 16 then
    line <- print_hex_ascii_line payload len 0 ;;
    Done (Some line)
  else print_payload_loop fuel payload len 0.

(** ** [load] and [main] *)

(** What libpcap answers to [load]: [pcap_open_offline] fails or opens the
    dump, whose frames (those the filter lets through) [pcap_loop] hands to
    the callback; [pcap_compile] and [pcap_setfilter] succeed or return -1. *)
Record capture : Set := {
  pcap_open_offline : option (list (list byte));
  pcap_compile : bool;
  pcap_setfilter : bool
}.

(** How a function ends: [return v], or [exit(status)]. *)
Inductive ending : Set :=
  | Returns (v : Z)
  | Exits (status : Z).

Definition EXIT_FAILURE : Z := 1.

(** [for (i = 0; i < n; i++) arr[i] = 0;] *)
Definition zero_loop (n : nat) (arr : list Z) : list Z :=
  fold_left (fun arr i => <[i := 0]> arr) (seq 0 n) arr.

(** The five loops under "setup data values". *)
Definition setup_data_values (hs : HistogramSet) : HistogramSet := {|
  src_ip_addrs := zero_loop 256 (src_ip_addrs hs);
  dst_ip_addrs := zero_loop 256 (dst_ip_addrs hs);
  src_ports := zero_loop 1024 (src_ports hs);
  dst_ports := zero_loop 1024 (dst_ports hs);
  protocols := zero_loop 4 (protocols hs);
  packet_sizes := zero_loop (Z.to_nat SNAP_LEN) (packet_sizes hs);
  flags := zero_loop 256 (flags hs)
|}.

(** [load]: how it ends, the histograms it leaves and what [got_packet]
    reported. *)
Definition load (P : platform) (argc : Z) (cap : capture) (hs : HistogramSet)
    : outcome (ending * HistogramSet * list report) :=
  if negb (argc =? 2) then Done (Exits EXIT_FAILURE, hs, []) else
  let hs := setup_data_values hs in
  match pcap_open_offline cap with
  | None => Done (Returns (-1), hs, [])
  | Some frames =>
      if negb (pcap_compile cap) then Done (Exits EXIT_FAILURE, hs, []) else
      if negb (pcap_setfilter cap) then Done (Exits EXIT_FAILURE, hs, []) else
      r <- pcap_loop P hs frames ;;
      Done (Returns 0, r.1, r.2)
  end.





(** ** Observations used in the statements *)

Definition result_of {A : Type} (o : outcome A) : option A :=
  match o with
  | Done a => Some a
  | Fault _ => None
  end.

(** The [protocols] slot a frame is counted in, if any: the IP header length
    is accepted and the protocol is one of the four [case] labels. *)
Definition protocol_slot (P : platform) (packet : list byte) : option Z :=
  match read_u8 packet (SIZE_ETHERNET + off_ip_vhl), read_u8 packet (SIZE_ETHERNET + off_ip_p) with
  | Done ip_vhl, Done ip_p =>
      if IP_HL ip_vhl * 4 <? 20 then None
      else if ip_p =? IPPROTO_TCP P then Some 0
      else if ip_p =? IPPROTO_UDP P then Some 1
      else if ip_p =? IPPROTO_ICMP P then Some 2
      else if ip_p =? IPPROTO_IP P then Some 3
      else None
  | _, _ => None
  end.

Definition protocols_total (hs : HistogramSet) : Z := foldr Z.add 0 (protocols hs).

(** The state after the two address counters and [protocols[0]] have been
    incremented. *)
Definition counted_as_tcp (hs : HistogramSet) (ip_src ip_dst : Z) : HistogramSet :=
  set_protocols
    (set_dst_ip_addrs
       (set_src_ip_addrs hs (bump (top_octet ip_src) (src_ip_addrs hs)))
       (bump (top_octet ip_dst) (dst_ip_addrs hs)))
    (bump 0 (protocols hs)).

Definition counted_frames (P : platform) (frames : list (list byte)) : Z :=
  Z.of_nat (length (filter (fun packet => is_Some (protocol_slot P packet)) frames)).

(** [m * 2^k] on positive numbers, for [0 <= k]. *)
Definition pshl (m : positive) (k : Z) : positive :=
  match k with
  | Zpos q => Pos.iter xO m q
  | _ => m
  end.

(** The number of binary digits of [z]. *)
Definition digits (z : Z) : Z := Zpos (digits2_pos (Z.to_pos (Z.abs z))).

(** The exponents [e] at which every [z * 2^e] with [z] below [2^prec] in
    magnitude is a normal number of the format. *)
Definition exponent_ok (prec emax e : Z) : Prop :=
  emin prec emax + prec - 1 <= e <= emax - prec.

(** The entries of two vectors at one dimension for which [std_dev] rounds
    nothing away: two different values below [2^23] in magnitude. *)
Definition exact_pair (a b : Z) : Prop :=
  Z.abs a < 2 ^ 23 /\ Z.abs b < 2 ^ 23 /\ a <> b.

(** The port a TCP header carries, as the network orders its two bytes. *)
Definition port_on_wire (packet : list byte) (off : Z) : outcome Z :=
  b0 <- read_u8 packet off ;;
  b1 <- read_u8 packet (off + 1) ;;
  Done (256 * b0 + b1).

(** A port histogram after a frame with the given port field. *)
Definition counted_port (port : Z) (ports : list Z) : list Z :=
  if port <? 1024 then bump port ports else ports.

(** A big-endian host with the same <netinet/in.h>. *)
Definition big_endian_host : platform := {|
  host_order := BigEndian;
  IPPROTO_TCP := 6;
  IPPROTO_UDP := 17;
  IPPROTO_ICMP := 1;
  IPPROTO_IP := 0;
  float_to_int_invalid := INT_MAX
|}.



(** The sum of the counters of a histogram. *)
Definition total (l : list Z) : Z := foldr Z.add 0 l.

(** The frames whose IP header length [got_packet] accepted. *)
Definition ip_accepted (r : report) : bool :=
  match r with InvalidIPHeaderLength _ => false | _ => true end.

(** The frames [got_packet] counted in [packet_sizes]. *)
Definition sized (r : report) : bool :=
  match r with NoReport => true | _ => false end.

(** The TCP frames whose data offset [got_packet] rejected. *)
Definition tcp_rejected (r : report) : bool :=
  match r with InvalidTCPHeaderLength _ => true | _ => false end.

Definition count_reports (f : report -> bool) (rs : list report) : Z :=
  Z.of_nat (length (filter (fun r => f r = true) rs)).

(** The seven arrays have their declared sizes. *)
Definition shaped (hs : HistogramSet) : Prop :=
  length (src_ip_addrs hs) = 256%nat /\ length (dst_ip_addrs hs) = 256%nat /\
  length (src_ports hs) = 1024%nat /\ length (dst_ports hs) = 1024%nat /\
  length (protocols hs) = 4%nat /\ length (packet_sizes hs) = Z.to_nat SNAP_LEN /\
  length (flags hs) = 256%nat.

Definition counters (hs : HistogramSet) : list Z :=
  src_ip_addrs hs ++ dst_ip_addrs hs ++ src_ports hs ++ dst_ports hs
  ++ protocols hs ++ packet_sizes hs ++ flags hs.

(** The first counter of [protocols], [0] for an array without one. *)
Definition tcp_frames (hs : HistogramSet) : Z := default 0 (protocols hs !! 0%nat).

(** The sum [mean_vec] accumulates for column [i]. *)
Definition column_sum (vecs : list (list Z)) (i : nat) : Z :=
  fold_left (fun sum (v : list Z) => wrap_int (sum + v !!! i)) vecs 0.

(** The mantissa of a number stored in a [float]. *)
Definition float_bounded (x : spec_float) : Prop :=
  match x with
  | S754_finite _ m _ => Zpos m < 2 ^ 24
  | _ => True
  end.

(** ** Sample frames *)

Definition ether_header : list byte :=
  [x00; x1b; x21; x3c; x4d; x5e; x00; x1c; x42; x6f; x70; x81; x08; x00].

(** IPv4 header of 20 bytes, 10.1.2.3 to 192.168.0.1, total length 40. *)
Definition ip_header (ip_vhl ip_p : byte) : list byte :=
  [ip_vhl; x00; x00; x28; x00; x01; x00; x00; x40; ip_p; x00; x00;
   x0a; x01; x02; x03; xc0; xa8; x00; x01].

(** TCP header of 20 bytes: source port 4660, SYN. *)
Definition tcp_header (dport_hi dport_lo th_offx2 : byte) : list byte :=
  [x12; x34; dport_hi; dport_lo; x00; x00; x00; x01; x00; x00; x00; x00;
   th_offx2; x02; x20; x00; x00; x00; x00; x00].

(** A TCP SYN to port 80. *)
Definition frame_tcp_syn_80 : list byte :=
  ether_header ++ ip_header x45 x06 ++ tcp_header x00 x50 x50.

(** A TCP SYN to port 20480 (0x5000). *)
Definition frame_tcp_syn_20480 : list byte :=
  ether_header ++ ip_header x45 x06 ++ tcp_header x50 x00 x50.

(** The same SYN with a data offset of 4 words. *)
Definition frame_tcp_offset_4 : list byte :=
  ether_header ++ ip_header x45 x06 ++ tcp_header x00 x50 x40.

(** An IP header length of 3 words. *)
Definition frame_ip_hl_3 : list byte :=
  ether_header ++ ip_header x43 x06 ++ tcp_header x00 x50 x50.

(** An ICMP echo request. *)
Definition frame_icmp_echo : list byte :=
  ether_header ++ ip_header x45 x01 ++ [x08; x00; xf7; xff; x00; x00; x00; x00].

(** A GRE datagram (protocol 47). *)
Definition frame_gre : list byte :=
  ether_header ++ ip_header x45 x2f ++ [x00; x00; x08; x00].

(** A TCP segment whose IP total length field is 20: less than the two
    headers together. *)
Definition frame_tcp_short_total : list byte :=
  ether_header
  ++ [x45; x00; x00; x14; x00; x01; x00; x00; x40; x06; x00; x00;
      x0a; x01; x02; x03; xc0; xa8; x00; x01]
  ++ tcp_header x00 x50 x50.

(** Fifteen captured bytes: the Ethernet header and the first byte of an IP
    header. *)
Definition frame_15_bytes : list byte := ether_header ++ [x45].

(** The sample row of the comment above [print_hex_ascii_line]. *)
Definition sample_row : list byte :=
  [x47; x45; x54; x20; x2f; x20; x48; x54; x54; x50; x2f; x31; x2e; x31; x0d; x0a].

Definition sample_line : list byte :=
  [x30; x30; x30; x30; x30; x20; x20; x20;
   x34; x37; x20; x34; x35; x20; x35; x34; x20; x32; x30; x20;
   x32; x66; x20; x32; x30; x20; x34; x38; x20; x35; x34; x20; x20;
   x35; x34; x20; x35; x30; x20; x32; x66; x20; x33; x31; x20;
   x32; x65; x20; x33; x31; x20; x30; x64; x20; x30; x61; x20;
   x20; x20; x20;
   x47; x45; x54; x20; x2f; x20; x48; x54; x54; x50; x2f; x31; x2e; x31; x2e; x2e;
   x0a].

(** * Properties *)

(** ** Integers and the error monad *)

#[local] Arguments wrap_int : simpl never.

Lemma wrap_int_id (z : Z) : INT_MIN <= z <= INT_MAX -> wrap_int z = z.
Proof.
  unfold INT_MIN, INT_MAX, wrap_int. intros H.
  rewrite Z.mod_small; lia.
Qed.

Lemma incr_Done (id : array_id) (size : Z) (arr l : list Z) (i : Z) :
  incr id size arr i = Done l -> 0 <= i < size /\ l = bump i arr.
Proof.
  unfold incr. destruct ((0 <=? i) && (i <? size)) eqn:E; [|discriminate].
  intros [= <-]. apply andb_true_iff in E as [?%Z.leb_le ?%Z.ltb_lt]. auto.
Qed.

(** Splits every hypothesis [computation = Done _] or [computation = Fault _]
    along the binds and tests of the computation. *)
Ltac run_outcome :=
  repeat match goal with
         | H : bind ?m _ = _ |- _ =>
             let E := fresh "E" in
             destruct m eqn:E; cbn [bind] in H
         | H : (if ?c then _ else _) = Done _ |- _ =>
             let E := fresh "E" in destruct c eqn:E
         | H : (if ?c then _ else _) = Fault _ |- _ =>
             let E := fresh "E" in destruct c eqn:E
         | H : Done _ = Done _ |- _ => injection H as H
         | H : Fault _ = Fault _ |- _ => injection H as H
         | H : (_, _) = (_, _) |- _ => injection H as ? ?
         | H : Fault _ = Done _ |- _ => discriminate H
         | H : Done _ = Fault _ |- _ => discriminate H
         end.

Ltac invert_incr :=
  repeat match goal with
         | E : incr _ _ _ _ = Done _ |- _ =>
             apply incr_Done in E; destruct E as [? ->]
         end.

(** ** The frame callback *)

Lemma got_packet_other_protocols (hs hs' : HistogramSet) (slot : option Z)
    (size_ip : Z) (r : report) :
  got_packet_other hs slot size_ip = Done (hs', r) ->
  r = NoReport /\
  protocols hs' = match slot with Some k => bump k (protocols hs) | None => protocols hs end.
Proof.
  unfold got_packet_other. intros H.
  destruct slot as [k|]; run_outcome; invert_incr; subst; auto.
Qed.

Lemma got_packet_tcp_short (P : platform) (hs hs' : HistogramSet) (packet : list byte)
    (size_ip n : Z) :
  got_packet_tcp P hs packet size_ip = Done (hs', InvalidTCPHeaderLength n) ->
  hs' = hs /\ n < 20.
Proof.
  unfold got_packet_tcp. intros H.
  run_outcome; try discriminate.
  subst. split; [reflexivity | lia].
Qed.

Lemma got_packet_tcp_protocols (P : platform) (hs hs' : HistogramSet)
    (packet : list byte) (size_ip : Z) (r : report) :
  got_packet_tcp P hs packet size_ip = Done (hs', r) ->
  protocols hs' = protocols hs.
Proof.
  unfold got_packet_tcp. intros H.
  run_outcome; invert_incr; subst; reflexivity.
Qed.

Lemma got_packet_protocols (P : platform) (hs hs' : HistogramSet) (packet : list byte)
    (r : report) :
  got_packet P hs packet = Done (hs', r) ->
  protocols hs' =
    match protocol_slot P packet with
    | Some k => bump k (protocols hs)
    | None => protocols hs
    end.
Proof.
  unfold got_packet, protocol_slot. intros H.
  destruct (read_u8 packet (SIZE_ETHERNET + off_ip_vhl)) as [ip_vhl|] eqn:Evhl;
    cbn [bind] in H; [|discriminate].
  destruct (IP_HL ip_vhl * 4 <? 20) eqn:Ehl.
  { injection H as <- _.
    destruct (read_u8 packet (SIZE_ETHERNET + off_ip_p)); reflexivity. }
  run_outcome; invert_incr; subst;
    repeat match goal with
           | H : got_packet_other _ _ _ = Done _ |- _ =>
               apply got_packet_other_protocols in H as [_ ->]
           | H : got_packet_tcp _ _ _ _ = Done _ |- _ =>
               apply got_packet_tcp_protocols in H as ->
           end; reflexivity.
Qed.

Lemma protocol_slot_range (P : platform) (packet : list byte) (k : Z) :
  protocol_slot P packet = Some k -> 0 <= k < 4.
Proof.
  unfold protocol_slot.
  destruct (read_u8 _ _); [|discriminate]. destruct (read_u8 _ _); [|discriminate].
  repeat match goal with |- context [if ?c then _ else _] => destruct c end;
    intros [= <-]; lia.
Qed.

Lemma Forall_bump (Q R : Z -> Prop) (k : Z) (l : list Z) :
  (forall c, Q c -> R c) -> (forall c, Q c -> R (wrap_int (c + 1))) ->
  Forall Q l -> Forall R (bump k l).
Proof.
  intros HQR Hf. unfold bump. generalize (Z.to_nat k) as i.
  induction l as [|c l IH]; intros i Hl; [constructor|].
  apply Forall_cons in Hl as [Hc Hl].
  destruct i as [|i]; cbn; constructor; auto.
  eapply Forall_impl; eauto.
Qed.

Lemma total_bump (k : Z) (l : list Z) :
  length l = 4%nat -> 0 <= k < 4 ->
  Forall (fun c => INT_MIN <= c < INT_MAX) l ->
  foldr Z.add 0 (bump k l) = foldr Z.add 0 l + 1.
Proof.
  intros Hlen Hk Hl.
  destruct l as [|a [|b [|c [|d [|? ?]]]]]; try discriminate Hlen.
  repeat match goal with
         | H : Forall _ (_ :: _) |- _ => apply Forall_cons in H as [? H]
         end.
  assert (k = 0 \/ k = 1 \/ k = 2 \/ k = 3) as [->|[->|[->| ->]]] by lia;
    unfold bump; simpl; rewrite wrap_int_id; lia.
Qed.

Lemma bump_length (k : Z) (l : list Z) : length (bump k l) = length l.
Proof. apply length_alter. Qed.

Lemma pcap_loop_protocols_total (P : platform) (frames : list (list byte)) :
  forall (hs hs' : HistogramSet) (rs : list report),
    pcap_loop P hs frames = Done (hs', rs) ->
    length (protocols hs) = 4%nat ->
    Forall (fun c => 0 <= c /\ c + Z.of_nat (length frames) <= INT_MAX) (protocols hs) ->
    protocols_total hs' = protocols_total hs + counted_frames P frames.
Proof.
  unfold protocols_total, counted_frames.
  induction frames as [|packet frames IH]; intros hs hs' rs H Hlen Hb.
  - cbn in H. injection H as <- _. cbn. lia.
  - cbn [pcap_loop] in H.
    destruct (got_packet P hs packet) as [[hs1 r]|] eqn:E1;
      cbn [bind fst snd] in H; [|discriminate].
    destruct (pcap_loop P hs1 frames) as [[hs2 rs2]|] eqn:E2;
      cbn [bind fst snd] in H; [|discriminate].
    injection H as <- _. cbn [fst] in *.
    pose proof (got_packet_protocols _ _ _ _ _ E1) as Hp.
    rewrite filter_cons.
    destruct (protocol_slot P packet) as [k|] eqn:Ek.
    + pose proof (protocol_slot_range _ _ _ Ek) as Hk.
      rewrite decide_True by eauto.
      rewrite (IH hs1 hs2 rs2 E2).
      * rewrite Hp, total_bump; auto.
        -- cbn [length]. lia.
        -- eapply Forall_impl; [exact Hb|]. cbn. unfold INT_MIN, INT_MAX. intros; lia.
      * rewrite Hp, bump_length. exact Hlen.
      * rewrite Hp. eapply Forall_bump; [| |exact Hb]; cbn; intros c [? ?].
        -- lia.
        -- rewrite wrap_int_id; unfold INT_MIN, INT_MAX in *; lia.
    + rewrite decide_False by (intros [? ?]; discriminate).
      rewrite (IH hs1 hs2 rs2 E2); rewrite ?Hp; auto.
      eapply Forall_impl; [exact Hb|]. cbn. intros; lia.
Qed.

Lemma got_packet_tcp_report (P : platform) (hs hs' : HistogramSet) (packet : list byte)
    (size_ip : Z) (r : report) :
  got_packet_tcp P hs packet size_ip = Done (hs', r) ->
  forall n, r <> InvalidIPHeaderLength n.
Proof.
  unfold got_packet_tcp. intros H n.
  run_outcome; subst; discriminate.
Qed.

Lemma short_ip_header (P : platform) (hs : HistogramSet) (packet : list byte) (ip_vhl : Z) :
  read_u8 packet (SIZE_ETHERNET + off_ip_vhl) = Done ip_vhl ->
  IP_HL ip_vhl < 5 ->
  got_packet P hs packet = Done (hs, InvalidIPHeaderLength (IP_HL ip_vhl * 4)).
Proof.
  intros Hr Hhl. unfold got_packet. rewrite Hr. cbn [bind].
  destruct (IP_HL ip_vhl * 4 <? 20) eqn:E; [reflexivity|lia].
Qed.

Lemma invalid_ip_report (P : platform) (hs hs' : HistogramSet) (packet : list byte) (n : Z) :
  got_packet P hs packet = Done (hs', InvalidIPHeaderLength n) -> hs' = hs.
Proof.
  unfold got_packet. intros H.
  run_outcome; subst; try reflexivity;
    repeat match goal with
           | H : got_packet_other _ _ _ = Done _ |- _ =>
               apply got_packet_other_protocols in H as [[=] _]
           | H : got_packet_tcp _ _ _ _ = Done _ |- _ =>
               eapply got_packet_tcp_report in H; destruct H; reflexivity
           end.
Qed.

Lemma invalid_tcp_report (P : platform) (hs hs' : HistogramSet) (packet : list byte) (n : Z) :
  got_packet P hs packet = Done (hs', InvalidTCPHeaderLength n) ->
  exists ip_src ip_dst,
    read_u32 P packet (SIZE_ETHERNET + off_ip_src) = Done ip_src /\
    read_u32 P packet (SIZE_ETHERNET + off_ip_dst) = Done ip_dst /\
    hs' = counted_as_tcp hs ip_src ip_dst.
Proof.
  unfold got_packet. intros H.
  run_outcome; subst; try discriminate;
    repeat match goal with
           | H : got_packet_other _ _ _ = Done _ |- _ =>
               apply got_packet_other_protocols in H as [[=] _]
           end.
  invert_incr.
  match goal with
  | H : got_packet_tcp _ _ _ _ = Done _ |- _ => apply got_packet_tcp_short in H as [-> _]
  end.
  eexists _, _. split; [reflexivity|]. split; reflexivity.
Qed.

Lemma short_tcp_header (P : platform) (hs hs' : HistogramSet) (packet : list byte)
    (r : report) (ip_vhl th_offx2 : Z) :
  got_packet P hs packet = Done (hs', r) ->
  protocol_slot P packet = Some 0 ->
  read_u8 packet (SIZE_ETHERNET + off_ip_vhl) = Done ip_vhl ->
  read_u8 packet (SIZE_ETHERNET + IP_HL ip_vhl * 4 + off_th_offx2) = Done th_offx2 ->
  TH_OFF th_offx2 < 5 ->
  r = InvalidTCPHeaderLength (TH_OFF th_offx2 * 4).
Proof.
  unfold got_packet. intros H Hslot Hvhl Hoff Hlt.
  rewrite Hvhl in H. cbn [bind] in H.
  unfold protocol_slot in Hslot. rewrite Hvhl in Hslot.
  destruct (read_u8 packet (SIZE_ETHERNET + off_ip_p)) as [ip_p|] eqn:Ep;
    [|discriminate Hslot].
  destruct (IP_HL ip_vhl * 4 <? 20) eqn:Ehl; [discriminate Hslot|].
  destruct (ip_p =? IPPROTO_TCP P) eqn:Etcp.
  2:{ repeat match type of Hslot with
             | (if ?c then _ else _) = _ => destruct c
             end; discriminate Hslot. }
  run_outcome; subst; try congruence.
  unfold got_packet_tcp in H. rewrite Hoff in H. cbn [bind] in H.
  destruct (TH_OFF th_offx2 * 4 <? 20) eqn:Eoff; [|lia].
  injection H as _ <-. reflexivity.
Qed.

(** ** Exactly representable results

    [dyadic prec emax z e] is the number [z * 2^e]; as long as [z] stays below
    [2^prec] in magnitude, additions, subtractions, halvings and conversions
    of such numbers are computed without rounding. *)

Lemma iter_xO_Z (m q : positive) : Zpos (Pos.iter xO m q) = Zpos m * 2 ^ Zpos q.
Proof.
  induction q as [|q IH] using Pos.peano_ind.
  - cbn. lia.
  - rewrite Pos.iter_succ, Pos2Z.inj_succ, Z.pow_succ_r by lia.
    rewrite Pos2Z.inj_xO, IH. lia.
Qed.

Lemma pshl_Z (m : positive) (k : Z) : 0 <= k -> Zpos (pshl m k) = Zpos m * 2 ^ k.
Proof.
  destruct k as [|q|q]; intros Hk; cbn [pshl]; [lia| |lia].
  apply iter_xO_Z.
Qed.

Lemma digits2_pos_log2 (m : positive) : Zpos (digits2_pos m) = Z.log2 (Zpos m) + 1.
Proof.
  induction m as [m IH|m IH|]; cbn [digits2_pos]; [| |reflexivity].
  - rewrite Pos2Z.inj_succ, IH.
    change (Zpos m~1) with (2 * Zpos m + 1). rewrite Z.log2_succ_double by lia. lia.
  - rewrite Pos2Z.inj_succ, IH.
    change (Zpos m~0) with (2 * Zpos m). rewrite Z.log2_double by lia. lia.
Qed.

Lemma digits2_pshl (m : positive) (k : Z) :
  0 <= k -> Zpos (digits2_pos (pshl m k)) = Zpos (digits2_pos m) + k.
Proof.
  intros Hk. rewrite !digits2_pos_log2, pshl_Z by assumption.
  rewrite Z.log2_mul_pow2 by lia. lia.
Qed.

Lemma pshl_pshl (m : positive) (a b : Z) :
  0 <= a -> 0 <= b -> pshl (pshl m a) b = pshl m (a + b).
Proof.
  intros Ha Hb. apply Pos2Z.inj. rewrite !pshl_Z by lia.
  rewrite Z.pow_add_r by lia. lia.
Qed.

Lemma iter_pos_iter {A : Type} (f : A -> A) (n : positive) (x : A) :
  SpecFloat.iter_pos f n x = Pos.iter f x n.
Proof.
  revert x. induction n as [n IH|n IH|]; intros x; cbn [SpecFloat.iter_pos Pos.iter].
  - rewrite !IH. rewrite <- !Pos.iter_swap. reflexivity.
  - rewrite !IH. reflexivity.
  - reflexivity.
Qed.

(** Shifting out the zeros that a shift to the left brought in loses
    nothing: the round and sticky bits stay clear. *)
Lemma shr_1_exact (p q : positive) :
  Pos.iter shr_1 (Build_shr_record (Zpos (Pos.iter xO p q)) false false) q
  = Build_shr_record (Zpos p) false false.
Proof.
  induction q as [|q IH] using Pos.peano_ind.
  - reflexivity.
  - rewrite !Pos.iter_succ, <- Pos.iter_swap. cbn [shr_1 orb].
    exact IH.
Qed.

Lemma shl_align_spec (m : positive) (e e' : Z) :
  shl_align m e e' = if e' <? e then (pshl m (e - e'), e') else (m, e).
Proof.
  unfold shl_align. destruct (e' <? e) eqn:E.
  - apply Z.ltb_lt in E. destruct (e' - e) as [|d|d] eqn:D; try lia.
    replace (e - e') with (Zpos d) by lia. reflexivity.
  - apply Z.ltb_ge in E. destruct (e' - e) as [|d|d] eqn:D; try lia; reflexivity.
Qed.

Lemma div_eucl_exact (a b q : Z) : 0 < b -> a = q * b -> Z.div_eucl a b = (q, 0).
Proof.
  intros Hb ->.
  pose proof (Z_div_mult_full q b ltac:(lia)) as Hq.
  pose proof (Z_mod_mult q b) as Hr.
  unfold Z.div, Z.modulo in Hq, Hr.
  destruct (Z.div_eucl (q * b) b) as [q' r']. cbn in Hq, Hr. congruence.
Qed.

Lemma new_location_0 (nb_steps : Z) : new_location nb_steps 0 = loc_Exact.
Proof.
  unfold new_location, new_location_even, new_location_odd.
  destruct (Z.even nb_steps); reflexivity.
Qed.

Lemma shift_match (m s : Z) :
  0 < s ->
  match s with
  | Zpos _ => Z.shiftl m s
  | Z0 => m
  | Zneg _ => 0
  end = m * 2 ^ s.
Proof.
  intros Hs. destruct s; [lia| |lia]. apply Z.shiftl_mul_pow2. lia.
Qed.

(** ** Rounding to nearest

    [shr_1] shifts one bit out of the mantissa into the round bit and the
    round bit into the sticky bit; after [p] steps the record holds the
    quotient by [2^p], bit [p - 1] and whether any lower bit was set. *)

Lemma shr_1_spec (m : Z) (r s : bool) :
  0 <= m -> shr_1 (Build_shr_record m r s) = Build_shr_record (m / 2) (Z.odd m) (r || s).
Proof.
  intros Hm. rewrite <- Z.div2_div.
  destruct m as [|[p|p|]|]; try lia; reflexivity.
Qed.

Lemma sticky_step (M : Z) (p : positive) :
  0 <= M ->
  negb (M mod 2 ^ Zpos p =? 0)
  = Z.testbit M (Zpos p - 1) || negb (M mod 2 ^ (Zpos p - 1) =? 0).
Proof.
  intros HM.
  pose proof (Z.testbit_spec' M (Zpos p - 1) ltac:(lia)) as Hb.
  assert (Hp : 2 ^ Zpos p = 2 ^ (Zpos p - 1) * 2).
  { replace (Zpos p) with (Z.succ (Zpos p - 1)) at 1 by lia.
    rewrite Z.pow_succ_r by lia. lia. }
  assert (H0 : 0 < 2 ^ (Zpos p - 1)) by (apply Z.pow_pos_nonneg; lia).
  rewrite Hp, Z.rem_mul_r by lia. rewrite <- Hb.
  pose proof (Z.mod_pos_bound M (2 ^ (Zpos p - 1)) H0).
  destruct (Z.testbit M (Zpos p - 1)); cbn [Z.b2z orb].
  - destruct (_ =? 0) eqn:E; [apply Z.eqb_eq in E; lia|reflexivity].
  - rewrite Z.mul_0_r, Z.add_0_r. reflexivity.
Qed.

Lemma iter_shr_1 (p : positive) (M : Z) (r s : bool) :
  0 <= M ->
  Pos.iter shr_1 (Build_shr_record M r s) p
  = Build_shr_record (M / 2 ^ Zpos p) (Z.testbit M (Zpos p - 1))
                     (negb (M mod 2 ^ (Zpos p - 1) =? 0) || (r || s)).
Proof.
  intros HM. induction p as [|p IH] using Pos.peano_ind.
  - cbn [Pos.iter]. rewrite shr_1_spec by assumption.
    change (2 ^ (1 - 1)) with 1. rewrite Z.mod_1_r. cbn [Z.eqb negb orb].
    rewrite Z.bit0_odd. reflexivity.
  - rewrite Pos.iter_succ, IH.
    assert (H0 : 0 < 2 ^ Zpos p) by (apply Z.pow_pos_nonneg; lia).
    rewrite shr_1_spec by (apply Z.div_pos; lia).
    rewrite Pos2Z.inj_succ, Z.pow_succ_r by lia.
    rewrite Z.div_div by lia. rewrite (Z.mul_comm (2 ^ Zpos p)).
    replace (Z.succ (Zpos p) - 1) with (Zpos p) by lia.
    rewrite orb_assoc, <- sticky_step by assumption.
    rewrite Z.testbit_odd, Z.shiftr_div_pow2 by lia.
    reflexivity.
Qed.

(** Rounding to nearest after a shift by [p] bits moves the number by at
    most half a unit. *)
Lemma round_shift_bound (p : positive) (M : Z) :
  0 <= M ->
  let mrs := Pos.iter shr_1 (Build_shr_record M false false) p in
  let M1 := round_nearest_even (shr_m mrs) (loc_of_shr_record mrs) in
  2 * Z.abs (M1 * 2 ^ Zpos p - M) <= 2 ^ Zpos p.
Proof.
  intros HM. cbv zeta. rewrite iter_shr_1 by assumption.
  pose proof (Z.testbit_spec' M (Zpos p - 1) ltac:(lia)) as Hb.
  assert (Hp : 2 ^ Zpos p = 2 ^ (Zpos p - 1) * 2).
  { replace (Zpos p) with (Z.succ (Zpos p - 1)) at 1 by lia.
    rewrite Z.pow_succ_r by lia. lia. }
  assert (H0 : 0 < 2 ^ (Zpos p - 1)) by (apply Z.pow_pos_nonneg; lia).
  pose proof (Z.mod_pos_bound M (2 ^ (Zpos p - 1)) H0) as Ht.
  pose proof (Z.div_mod M (2 ^ Zpos p) ltac:(lia)) as Hdm.
  assert (Hmod : M mod 2 ^ Zpos p
                 = M mod 2 ^ (Zpos p - 1)
                   + 2 ^ (Zpos p - 1) * Z.b2z (Z.testbit M (Zpos p - 1))).
  { rewrite Hp at 1. rewrite Z.rem_mul_r by lia. rewrite Hb. reflexivity. }
  rewrite Hmod in Hdm. clear Hmod Hb.
  set (q := M / 2 ^ Zpos p) in *. set (t := M mod 2 ^ (Zpos p - 1)) in *.
  set (h := 2 ^ (Zpos p - 1)) in *. rewrite Hp in *. clearbody q t h.
  rewrite orb_false_r.
  destruct (Z.testbit M (Zpos p - 1)); cbn [Z.b2z] in Hdm;
    destruct (Z.eqb_spec t 0) as [E|E];
    cbn [negb loc_of_shr_record shr_m round_nearest_even];
    try destruct (Z.even q); nia.
Qed.

(** A positive number has [d] digits when it lies between [2^(d-1)] and
    [2^d]. *)
Lemma digits2_pos_bounds (m : positive) (d : Z) :
  Zpos (digits2_pos m) = d <-> 2 ^ (d - 1) <= Zpos m < 2 ^ d.
Proof.
  rewrite digits2_pos_log2. split.
  - intros <-. replace (Z.log2 (Zpos m) + 1 - 1) with (Z.log2 (Zpos m)) by lia.
    pose proof (Z.log2_spec (Zpos m) ltac:(lia)) as H.
    replace (Z.log2 (Zpos m) + 1) with (Z.succ (Z.log2 (Zpos m))) by lia. exact H.
  - intros H. assert (Hd : 0 <= d - 1).
    { destruct (Z.le_gt_cases 0 (d - 1)) as [|Hn]; [assumption|].
      destruct (Z.eq_dec d 0) as [->|Hd0]; [cbn in H; lia|].
      rewrite (Z.pow_neg_r 2 d) in H by lia. lia. }
    rewrite (Z.log2_unique (Zpos m) (d - 1)); [lia|lia|].
    replace (Z.succ (d - 1)) with d by lia. exact H.
Qed.

Lemma loc_of_shr_record_of_loc (m : Z) (l : location) :
  shr_m (shr_record_of_loc m l) = m /\ loc_of_shr_record (shr_record_of_loc m l) = l.
Proof. destruct l as [|[]]; split; reflexivity. Qed.

Lemma digits_square (z : Z) : z <> 0 -> 2 * digits z - 1 <= digits (z * z).
Proof.
  intros Hz. unfold digits. rewrite !digits2_pos_log2, !Z2Pos.id by nia.
  rewrite Z.abs_mul.
  pose proof (Z.log2_mul_below (Z.abs z) (Z.abs z) ltac:(lia) ltac:(lia)). lia.
Qed.

(** The results of this section hold for every format: [prec] bits of
    mantissa, exponents below [emax]. *)
Section Exact.

Variables prec emax : Z.
Hypothesis Hformat : 2 <= prec < emax.

#[local] Set Default Proof Using "All".

(** A mantissa of [prec] bits is not shifted. *)
Lemma shr_fexp_canonical (m : positive) (e : Z) (l : location) :
  Zpos (digits2_pos m) = prec -> emin prec emax <= e ->
  shr_fexp prec emax (Zpos m) e l = (shr_record_of_loc (Zpos m) l, e).
Proof.
  unfold emin. intros Hd He. unfold shr_fexp, Zdigits2. rewrite Hd. unfold fexp, emin.
  match goal with
  | |- context [Z.max ?a ?b - ?c] => replace (Z.max a b - c) with 0 by lia
  end.
  reflexivity.
Qed.

Lemma binary_round_aux_exact (s : bool) (p : positive) (j e : Z) :
  0 <= j -> Zpos (digits2_pos p) = prec ->
  emin prec emax <= e + j <= emax - prec ->
  binary_round_aux prec emax s (Zpos (pshl p j)) e loc_Exact = S754_finite s p (e + j).
Proof.
  unfold emin. intros Hj Hd Hr.
  assert (Hshr : shr_fexp prec emax (Zpos (pshl p j)) e loc_Exact
                 = (Build_shr_record (Zpos p) false false, e + j)).
  { unfold shr_fexp, Zdigits2. rewrite digits2_pshl, Hd by assumption.
    unfold fexp, emin.
    match goal with
    | |- context [Z.max ?a ?b - e] => replace (Z.max a b - e) with j by lia
    end.
    cbn [shr_record_of_loc]. destruct j as [|q|q]; [| |lia].
    - cbn [shr pshl]. f_equal. lia.
    - cbn [shr pshl]. rewrite iter_pos_iter, shr_1_exact. reflexivity. }
  unfold binary_round_aux. rewrite Hshr.
  cbn [shr_m loc_of_shr_record round_nearest_even].
  rewrite shr_fexp_canonical by (assumption || unfold emin; lia).
  cbn [shr_record_of_loc shr_m].
  destruct (e + j <=? emax - prec) eqn:E; [reflexivity|lia].
Qed.

(** A mantissa of [p] bits too many is rounded to a mantissa of [prec] bits
    at most half a unit away, as long as rounding up does not carry into
    one more bit. *)
Lemma binary_round_aux_nearest (s : bool) (M : positive) (e : Z) (p : positive) :
  Zpos (digits2_pos M) = prec + Zpos p ->
  2 * Zpos M + 2 ^ Zpos p < 2 * 2 ^ (prec + Zpos p) ->
  emin prec emax <= e + Zpos p <= emax - prec ->
  exists m : positive,
    binary_round_aux prec emax s (Zpos M) e loc_Exact = S754_finite s m (e + Zpos p)
    /\ Zpos (digits2_pos m) = prec
    /\ 2 * Z.abs (Zpos m * 2 ^ Zpos p - Zpos M) <= 2 ^ Zpos p.
Proof.
  intros Hd Hc Hr.
  pose proof (round_shift_bound p (Zpos M) ltac:(lia)) as Hb. cbv zeta in Hb.
  unfold binary_round_aux.
  assert (Hshr : shr_fexp prec emax (Zpos M) e loc_Exact
                 = (Pos.iter shr_1 (Build_shr_record (Zpos M) false false) p, e + Zpos p)).
  { unfold shr_fexp, Zdigits2. rewrite Hd. unfold fexp. unfold emin in Hr |- *.
    match goal with
    | |- context [Z.max ?a ?b - e] => replace (Z.max a b - e) with (Zpos p) by lia
    end.
    cbn [shr_record_of_loc shr]. rewrite iter_pos_iter. reflexivity. }
  rewrite Hshr.
  set (M1 := round_nearest_even _ _) in *.
  apply digits2_pos_bounds in Hd.
  replace (prec + Zpos p - 1) with (prec - 1 + Zpos p) in Hd by lia.
  rewrite !Z.pow_add_r in Hd, Hc by lia.
  assert (H0 : 0 < 2 ^ Zpos p) by (apply Z.pow_pos_nonneg; lia).
  assert (H1 : 0 < 2 ^ (prec - 1)) by (apply Z.pow_pos_nonneg; lia).
  assert (Hp : 2 ^ prec = 2 * 2 ^ (prec - 1)).
  { rewrite <- Z.pow_succ_r by lia. f_equal. lia. }
  assert (HM1 : 2 ^ (prec - 1) <= M1 < 2 ^ prec).
  { rewrite Hp in *. clearbody M1.
    set (P := 2 ^ Zpos p) in *. set (Q := 2 ^ (prec - 1)) in *. clearbody P Q.
    split; nia. }
  destruct M1 as [|m|m] eqn:EM; [lia| |lia].
  exists m. apply digits2_pos_bounds in HM1 as Hdm.
  rewrite shr_fexp_canonical by (assumption || lia). cbn [shr_record_of_loc shr_m].
  destruct (e + Zpos p <=? emax - prec) eqn:E; [|lia].
  split; [reflexivity|]. split; [assumption|]. exact Hb.
Qed.

(** The unique number of [prec] digits within less than half a unit. *)
Lemma binary_round_aux_to (s : bool) (M : positive) (e : Z) (p m : positive) :
  Zpos (digits2_pos M) = prec + Zpos p ->
  Zpos (digits2_pos m) = prec ->
  2 * Z.abs (Zpos m * 2 ^ Zpos p - Zpos M) < 2 ^ Zpos p ->
  emin prec emax <= e + Zpos p <= emax - prec ->
  binary_round_aux prec emax s (Zpos M) e loc_Exact = S754_finite s m (e + Zpos p).
Proof.
  intros HdM Hdm Hb Hr.
  assert (H0 : 0 < 2 ^ Zpos p) by (apply Z.pow_pos_nonneg; lia).
  apply digits2_pos_bounds in Hdm as Hm.
  destruct (binary_round_aux_nearest s M e p) as (m' & -> & _ & Hb'); try assumption.
  - rewrite Z.pow_add_r by lia.
    set (P := 2 ^ Zpos p) in *. set (Q := 2 ^ prec) in *. clearbody P Q. nia.
  - f_equal. set (P := 2 ^ Zpos p) in *. clearbody P. nia.
Qed.

Lemma binary_round_exact (s : bool) (m : positive) (k e : Z) :
  let d := Zpos (digits2_pos m) in
  0 <= k -> d <= prec -> emin prec emax <= e + d - prec <= emax - prec ->
  binary_round prec emax s (pshl m k) (e - k)
  = S754_finite s (pshl m (prec - d)) (e + d - prec).
Proof.
  intros d Hk Hd Hr. unfold binary_round.
  rewrite digits2_pshl by assumption. fold d.
  unfold fexp. unfold emin in Hr |- * at 1.
  match goal with
  | |- context [Z.max ?a ?b] => replace (Z.max a b) with (e + d - prec) by lia
  end.
  rewrite shl_align_spec.
  destruct (e + d - prec <? e - k) eqn:E.
  - apply Z.ltb_lt in E. rewrite pshl_pshl by lia.
    replace (k + (e - k - (e + d - prec))) with (prec - d) by lia.
    change (pshl m (prec - d)) with (pshl (pshl m (prec - d)) 0) at 1.
    rewrite binary_round_aux_exact.
    + f_equal. lia.
    + lia.
    + rewrite digits2_pshl by lia. fold d. lia.
    + unfold emin. lia.
  - apply Z.ltb_ge in E.
    replace (pshl m k) with (pshl (pshl m (prec - d)) (k - (prec - d)))
      by (rewrite pshl_pshl by lia; f_equal; lia).
    rewrite binary_round_aux_exact.
    + f_equal. lia.
    + lia.
    + rewrite digits2_pshl by lia. fold d. lia.
    + unfold emin. lia.
Qed.

Lemma digits_range (z : Z) : z <> 0 -> Z.abs z < 2 ^ prec -> 1 <= digits z <= prec.
Proof.
  intros Hz Hb. unfold digits. rewrite digits2_pos_log2.
  rewrite Z2Pos.id by lia.
  pose proof (Z.log2_nonneg (Z.abs z)).
  assert (Z.log2 (Z.abs z) < prec) by (apply Z.log2_lt_pow2; lia).
  lia.
Qed.

Lemma dyadic_shift_canonical (z e k : Z) :
  z <> 0 -> Z.abs z < 2 ^ prec -> exponent_ok prec emax e -> 0 <= k ->
  dyadic prec emax (z * 2 ^ k) (e - k)
  = S754_finite (z <? 0) (pshl (Z.to_pos (Z.abs z)) (prec - digits z))
                (e + digits z - prec).
Proof.
  intros Hz Hb He Hk. pose proof (digits_range z Hz Hb) as Hd.
  unfold exponent_ok in He. unfold dyadic, digits in *.
  destruct z as [|m|m]; [lia| |].
  - replace (Zpos m * 2 ^ k) with (Zpos (pshl m k)) by (apply pshl_Z; lia).
    cbn [binary_normalize Z.abs Z.to_pos Z.ltb Z.compare] in *.
    apply binary_round_exact; lia.
  - replace (Zneg m * 2 ^ k) with (Zneg (pshl m k))
      by (rewrite <- !Pos2Z.opp_pos, pshl_Z by lia; lia).
    cbn [binary_normalize Z.abs Z.to_pos Z.ltb Z.compare] in *.
    apply binary_round_exact; lia.
Qed.

Lemma dyadic_canonical (z e : Z) :
  z <> 0 -> Z.abs z < 2 ^ prec -> exponent_ok prec emax e ->
  dyadic prec emax z e
  = S754_finite (z <? 0) (pshl (Z.to_pos (Z.abs z)) (prec - digits z))
                (e + digits z - prec).
Proof.
  intros Hz Hb He.
  rewrite <- (dyadic_shift_canonical z e 0) by (assumption || lia).
  f_equal; lia.
Qed.

Lemma dyadic_shift (z e k : Z) :
  Z.abs z < 2 ^ prec -> exponent_ok prec emax e -> 0 <= k ->
  dyadic prec emax (z * 2 ^ k) (e - k) = dyadic prec emax z e.
Proof.
  intros Hb He Hk. destruct (Z.eq_dec z 0) as [->|Hz]; [reflexivity|].
  rewrite dyadic_shift_canonical, dyadic_canonical by assumption. reflexivity.
Qed.

(** The mantissa of a canonical number aligned to a smaller exponent. *)
Lemma aligned_mantissa (z e ez : Z) :
  z <> 0 -> Z.abs z < 2 ^ prec -> ez <= e + digits z - prec ->
  cond_Zopp (z <? 0)
    (Zpos (fst (shl_align (pshl (Z.to_pos (Z.abs z)) (prec - digits z))
                          (e + digits z - prec) ez)))
  = z * 2 ^ (e - ez).
Proof.
  intros Hz Hb Hez. pose proof (digits_range z Hz Hb) as Hd.
  rewrite shl_align_spec.
  assert (Hm : Zpos (pshl (Z.to_pos (Z.abs z)) (e - ez)) = Z.abs z * 2 ^ (e - ez)).
  { rewrite pshl_Z by lia. rewrite Z2Pos.id by lia. reflexivity. }
  destruct (ez <? e + digits z - prec) eqn:E; cbn [fst].
  - apply Z.ltb_lt in E. rewrite pshl_pshl by lia.
    replace (prec - digits z + (e + digits z - prec - ez)) with (e - ez) by lia.
    rewrite Hm. destruct (z <? 0) eqn:Es; cbn [cond_Zopp]; lia.
  - apply Z.ltb_ge in E.
    replace (prec - digits z) with (e - ez) by lia.
    rewrite Hm. destruct (z <? 0) eqn:Es; cbn [cond_Zopp]; lia.
Qed.

Lemma SFadd_dyadic (z1 z2 e : Z) :
  Z.abs z1 < 2 ^ prec -> Z.abs z2 < 2 ^ prec -> Z.abs (z1 + z2) < 2 ^ prec ->
  exponent_ok prec emax e ->
  SFadd prec emax (dyadic prec emax z1 e) (dyadic prec emax z2 e)
  = dyadic prec emax (z1 + z2) e.
Proof.
  intros H1 H2 H12 He.
  destruct (Z.eq_dec z1 0) as [->|Hz1]; destruct (Z.eq_dec z2 0) as [->|Hz2].
  - reflexivity.
  - rewrite Z.add_0_l. rewrite (dyadic_canonical z2) by assumption. reflexivity.
  - rewrite Z.add_0_r. rewrite (dyadic_canonical z1) by assumption. reflexivity.
  - rewrite (dyadic_canonical z1), (dyadic_canonical z2) by assumption.
    cbn [SFadd].
    rewrite !aligned_mantissa by (assumption || lia).
    rewrite <- Z.mul_add_distr_r.
    set (ez := Z.min _ _).
    pose proof (digits_range z1 Hz1 H1). pose proof (digits_range z2 Hz2 H2).
    change (binary_normalize prec emax ?m ?x false) with (dyadic prec emax m x).
    replace ez with (e - (e - ez)) at 2 by lia.
    apply dyadic_shift; [assumption|assumption|lia].
Qed.

Lemma SFsub_dyadic (z1 z2 e : Z) :
  Z.abs z1 < 2 ^ prec -> Z.abs z2 < 2 ^ prec -> Z.abs (z1 - z2) < 2 ^ prec ->
  exponent_ok prec emax e ->
  SFsub prec emax (dyadic prec emax z1 e) (dyadic prec emax z2 e)
  = dyadic prec emax (z1 - z2) e.
Proof.
  intros H1 H2 H12 He.
  destruct (Z.eq_dec z1 0) as [->|Hz1]; destruct (Z.eq_dec z2 0) as [->|Hz2].
  - reflexivity.
  - rewrite Z.sub_0_l.
    rewrite (dyadic_canonical z2), (dyadic_canonical (- z2)) by (assumption || lia).
    cbn [dyadic binary_normalize SFsub].
    unfold digits. rewrite Z.abs_opp. f_equal.
    destruct z2; try lia; reflexivity.
  - rewrite Z.sub_0_r. rewrite (dyadic_canonical z1) by assumption. reflexivity.
  - rewrite (dyadic_canonical z1), (dyadic_canonical z2) by assumption.
    cbn [SFsub].
    rewrite !aligned_mantissa by (assumption || lia).
    rewrite <- Z.mul_sub_distr_r.
    set (ez := Z.min _ _).
    pose proof (digits_range z1 Hz1 H1). pose proof (digits_range z2 Hz2 H2).
    change (binary_normalize prec emax ?m ?x false) with (dyadic prec emax m x).
    replace ez with (e - (e - ez)) at 2 by lia.
    apply dyadic_shift; [assumption|assumption|lia].
Qed.

(** Doubling raises the exponent and keeps the mantissa. *)
Lemma SFadd_twice (s : bool) (m : positive) (e : Z) :
  Zpos (digits2_pos m) = prec -> emin prec emax <= e + 1 <= emax - prec ->
  SFadd prec emax (S754_finite s m e) (S754_finite s m e) = S754_finite s m (e + 1).
Proof.
  intros Hd He. cbn [SFadd]. rewrite Z.min_id, shl_align_spec, Z.ltb_irrefl. cbn [fst].
  assert (E : cond_Zopp s (Zpos m) + cond_Zopp s (Zpos m) = cond_Zopp s (Zpos (pshl m 1)))
    by (destruct s; cbn [cond_Zopp pshl Pos.iter]; lia).
  rewrite E.
  assert (R : binary_round prec emax s (pshl m 1) (e + 1 - 1) = S754_finite s m (e + 1)).
  { rewrite (binary_round_exact) by lia. rewrite Hd, Z.sub_diag.
    f_equal. lia. }
  replace (e + 1 - 1) with e in R by lia.
  destruct s; exact R.
Qed.

(** A square of at most [prec] bits is computed exactly. *)
Lemma SFmul_dyadic_square (z e : Z) :
  Z.abs (z * z) < 2 ^ prec -> exponent_ok prec emax e -> exponent_ok prec emax (e + e) ->
  SFmul prec emax (dyadic prec emax z e) (dyadic prec emax z e)
  = dyadic prec emax (z * z) (e + e).
Proof.
  intros Hb He He2. destruct (Z.eq_dec z 0) as [->|Hz]; [reflexivity|].
  assert (Hbz : Z.abs z < 2 ^ prec) by nia.
  pose proof (digits_range z Hz Hbz) as Hd.
  pose proof (digits_range (z * z) ltac:(nia) Hb) as Hd2.
  pose proof (digits_square z Hz) as Hsq.
  rewrite (dyadic_canonical z), (dyadic_canonical (z * z))
    by (assumption || nia).
  cbn [SFmul]. rewrite xorb_nilpotent.
  replace (z * z <? 0) with false by (symmetry; apply Z.ltb_ge; nia).
  set (a := Z.to_pos (Z.abs z)). set (D := digits (z * z)) in *. set (d := digits z) in *.
  assert (Ea : Z.to_pos (Z.abs (z * z)) = (a * a)%positive).
  { apply Pos2Z.inj. rewrite Pos2Z.inj_mul. unfold a. rewrite !Z2Pos.id by nia.
    apply Z.abs_mul. }
  rewrite Ea.
  assert (Em : (pshl a (prec - d) * pshl a (prec - d))%positive
               = pshl (pshl (a * a) (prec - D)) (2 * (prec - d) - (prec - D))).
  { apply Pos2Z.inj. rewrite Pos2Z.inj_mul, !pshl_Z, Pos2Z.inj_mul by lia.
    assert (Hpow : 2 ^ (prec - D) * 2 ^ (2 * (prec - d) - (prec - D))
                   = 2 ^ (prec - d) * 2 ^ (prec - d))
      by (rewrite <- !Z.pow_add_r by lia; f_equal; lia).
    rewrite <- (Z.mul_assoc _ (2 ^ (prec - D))), Hpow. ring. }
  rewrite Em. rewrite (binary_round_aux_exact).
  - f_equal. lia.
  - lia.
  - rewrite digits2_pshl by lia. rewrite <- Ea. fold (digits (z * z)). fold D. lia.
  - unfold exponent_ok, emin in *. lia.
Qed.

Lemma SFdiv_core_two (mx : positive) (ex : Z) :
  Zpos (digits2_pos mx) = prec -> emin prec emax <= ex - 2 ->
  SFdiv_core_binary prec emax (Zpos mx) ex (Zpos (pshl 2 (prec - 2))) (2 - prec)
  = (Zpos mx~0, ex - 2, loc_Exact).
Proof.
  unfold emin. intros Hd He. unfold SFdiv_core_binary, Zdigits2.
  rewrite digits2_pshl, Hd by lia. cbn [digits2_pos Pos.succ].
  unfold fexp, emin.
  match goal with
  | |- context [Z.min ?a ?b] => replace (Z.min a b) with (ex - 2) by lia
  end.
  replace (ex - (2 - prec) - (ex - 2)) with prec by lia.
  rewrite shift_match by lia.
  rewrite (div_eucl_exact _ _ (Zpos mx~0)).
  - rewrite new_location_0. reflexivity.
  - lia.
  - rewrite pshl_Z by lia.
    replace prec with (1 + 1 + (prec - 2)) at 1 by lia.
    rewrite !Z.pow_add_r by lia. lia.
Qed.

Lemma dyadic_two :
  dyadic prec emax 2 0 = S754_finite false (pshl 2 (prec - 2)) (2 - prec).
Proof.
  assert (2 ^ 2 <= 2 ^ prec) by (apply Z.pow_le_mono_r; lia).
  rewrite dyadic_canonical.
  - reflexivity.
  - lia.
  - cbn in *. lia.
  - unfold exponent_ok, emin. lia.
Qed.

(** Division by two lowers the exponent and keeps the mantissa. *)
Lemma SFdiv_finite_two (s : bool) (m : positive) (e : Z) :
  Zpos (digits2_pos m) = prec -> emin prec emax <= e - 2 -> e - 1 <= emax - prec ->
  SFdiv prec emax (S754_finite s m e) (dyadic prec emax 2 0) = S754_finite s m (e - 1).
Proof.
  intros Hd He He'. rewrite (dyadic_two). cbn [SFdiv].
  rewrite (SFdiv_core_two) by assumption.
  change (binary_round_aux prec emax ?s (Zpos (?m)~0))
    with (binary_round_aux prec emax s (Zpos (pshl m 1))).
  rewrite (binary_round_aux_exact) by lia.
  rewrite xorb_false_r. f_equal. lia.
Qed.

Lemma SFdiv_dyadic_two (z e : Z) :
  Z.abs z < 2 ^ prec -> exponent_ok prec emax e -> exponent_ok prec emax (e - 2) ->
  SFdiv prec emax (dyadic prec emax z e) (dyadic prec emax 2 0)
  = dyadic prec emax z (e - 1).
Proof.
  intros Hb He He2.
  destruct (Z.eq_dec z 0) as [->|Hz]; [rewrite dyadic_two; reflexivity|].
  pose proof (digits_range z Hz Hb) as Hd.
  assert (He1 : exponent_ok prec emax (e - 1)) by (unfold exponent_ok in *; lia).
  rewrite (dyadic_canonical z e), (dyadic_canonical z (e - 1)) by assumption.
  rewrite SFdiv_finite_two.
  - f_equal. lia.
  - rewrite digits2_pshl by lia. fold (digits z). lia.
  - unfold exponent_ok, emin in *. lia.
  - unfold exponent_ok, emin in *. lia.
Qed.

(** The quotient of two numbers of one mantissa is a power of two. *)
Lemma SFdiv_dyadic_same (z e1 e2 : Z) :
  z <> 0 -> Z.abs z < 2 ^ prec ->
  exponent_ok prec emax e1 -> exponent_ok prec emax e2 ->
  exponent_ok prec emax (e1 - e2) -> exponent_ok prec emax (e1 - e2 - 1) ->
  SFdiv prec emax (dyadic prec emax z e1) (dyadic prec emax z e2)
  = dyadic prec emax 1 (e1 - e2).
Proof.
  intros Hz Hb He1 He2 He He'.
  pose proof (digits_range z Hz Hb) as Hd.
  assert (H1 : Z.abs 1 < 2 ^ prec).
  { assert (2 ^ 1 <= 2 ^ prec) by (apply Z.pow_le_mono_r; lia). cbn in *. lia. }
  rewrite (dyadic_canonical z e1), (dyadic_canonical z e2),
    (dyadic_canonical 1) by (assumption || lia).
  change (digits 1) with 1. change (Z.to_pos (Z.abs 1)) with 1%positive.
  change (1 <? 0) with false.
  set (mz := pshl (Z.to_pos (Z.abs z)) (prec - digits z)).
  assert (Hdm : Zpos (digits2_pos mz) = prec).
  { unfold mz. rewrite digits2_pshl by lia. fold (digits z). lia. }
  cbn [SFdiv]. rewrite xorb_nilpotent.
  assert (Ec : SFdiv_core_binary prec emax (Zpos mz) (e1 + digits z - prec)
                 (Zpos mz) (e2 + digits z - prec)
               = (Zpos (pshl (pshl 1 (prec - 1)) 1), e1 - e2 - prec, loc_Exact)).
  { unfold SFdiv_core_binary, Zdigits2. rewrite Hdm. unfold fexp.
    unfold exponent_ok, emin in *.
    match goal with
    | |- context [Z.min ?a ?b] => replace (Z.min a b) with (e1 - e2 - prec) by lia
    end.
    replace (e1 + digits z - prec - (e2 + digits z - prec) - (e1 - e2 - prec))
      with prec by lia.
    rewrite shift_match by lia.
    rewrite (div_eucl_exact _ _ (Zpos (pshl (pshl 1 (prec - 1)) 1))).
    - rewrite new_location_0. reflexivity.
    - lia.
    - rewrite pshl_pshl, pshl_Z by lia.
      replace (prec - 1 + 1) with prec by lia. lia. }
  rewrite Ec. rewrite (binary_round_aux_exact).
  - f_equal. lia.
  - lia.
  - rewrite digits2_pshl by lia. cbn [digits2_pos]. lia.
  - unfold exponent_ok, emin in *. lia.
Qed.

End Exact.

(** ** [float] and [double] *)

Lemma float_format : 2 <= float_prec < float_emax.
Proof. unfold float_prec, float_emax. lia. Qed.

Lemma double_format : 2 <= double_prec < double_emax.
Proof. unfold double_prec, double_emax. lia. Qed.

Lemma exponent_ok_float (e : Z) : -100 <= e <= 100 -> exponent_ok float_prec float_emax e.
Proof. unfold exponent_ok, emin, float_prec, float_emax. lia. Qed.

Lemma exponent_ok_double (e : Z) : -100 <= e <= 100 -> exponent_ok double_prec double_emax e.
Proof. unfold exponent_ok, emin, double_prec, double_emax. lia. Qed.

Lemma double_of_float_dyadic (z e : Z) :
  Z.abs z < 2 ^ float_prec ->
  exponent_ok float_prec float_emax e -> exponent_ok double_prec double_emax e ->
  double_of_float (dyadic float_prec float_emax z e) = dyadic double_prec double_emax z e.
Proof.
  intros Hb He He'.
  destruct (Z.eq_dec z 0) as [->|Hz]; [reflexivity|].
  assert (Hb' : Z.abs z < 2 ^ double_prec) by (unfold float_prec, double_prec in *; lia).
  pose proof (digits_range _ _ float_format z Hz Hb) as Hd.
  rewrite (dyadic_canonical _ _ float_format), (dyadic_canonical _ _ double_format)
    by assumption.
  cbn [double_of_float].
  replace (e + digits z - float_prec) with (e - (float_prec - digits z)) by lia.
  rewrite (binary_round_exact _ _ double_format); fold (digits z);
    unfold exponent_ok, float_prec, double_prec in *; try lia.
  reflexivity.
Qed.

Lemma float_of_double_dyadic (z e : Z) :
  Z.abs z < 2 ^ float_prec ->
  exponent_ok float_prec float_emax e -> exponent_ok double_prec double_emax e ->
  float_of_double (dyadic double_prec double_emax z e) = dyadic float_prec float_emax z e.
Proof.
  intros Hb He He'.
  destruct (Z.eq_dec z 0) as [->|Hz]; [reflexivity|].
  assert (Hb' : Z.abs z < 2 ^ double_prec) by (unfold float_prec, double_prec in *; lia).
  pose proof (digits_range _ _ float_format z Hz Hb) as Hd.
  rewrite (dyadic_canonical _ _ float_format), (dyadic_canonical _ _ double_format)
    by assumption.
  cbn [float_of_double].
  replace (e + digits z - double_prec) with (e - (double_prec - digits z)) by lia.
  rewrite (binary_round_exact _ _ float_format); fold (digits z);
    unfold exponent_ok, float_prec, double_prec in *; try lia.
  reflexivity.
Qed.

(** ** The square root of a square

    [std_dev] squares in [float] and takes the root in [double]: the square
    is rounded to 24 bits, and the root of the rounded square, rounded to 24
    bits again, is the number squared. *)

(** The square of a [float] is rounded to 24 bits, by at most half a unit. *)
Lemma float_mul_square (s : bool) (m : positive) (e : Z) :
  Zpos (digits2_pos m) = 24 -> -30 <= e <= 30 ->
  exists Mr p : positive,
    float_mul (S754_finite s m e) (S754_finite s m e) = S754_finite false Mr (e + e + Zpos p)
    /\ Zpos (digits2_pos Mr) = 24
    /\ 2 * Z.abs (Zpos Mr * 2 ^ Zpos p - Zpos m * Zpos m) <= 2 ^ Zpos p
    /\ (p = 23%positive /\ Zpos m * Zpos m < 2 ^ 47
        \/ p = 24%positive /\ 2 ^ 47 <= Zpos m * Zpos m).
Proof.
  intros Hd He. apply digits2_pos_bounds in Hd. change (24 - 1) with 23 in Hd.
  unfold float_mul. cbn [SFmul]. rewrite xorb_nilpotent.
  assert (Hsq : 2 ^ 46 <= Zpos m * Zpos m < 2 ^ 48) by nia.
  destruct (Z.lt_ge_cases (Zpos m * Zpos m) (2 ^ 47)) as [Hlt|Hge].
  - destruct (binary_round_aux_nearest _ _ float_format false (m * m) (e + e) 23)
      as (Mr & E & HdM & Hb).
    + apply digits2_pos_bounds. rewrite Pos2Z.inj_mul.
      change (float_prec + 23 - 1) with 46. change (float_prec + 23) with 47. lia.
    + rewrite Pos2Z.inj_mul. change (float_prec + 23) with 47.
      assert (Zpos m <= 11863283) by nia. nia.
    + unfold emin, float_prec, float_emax. lia.
    + exists Mr, 23%positive. rewrite Pos2Z.inj_mul in Hb.
      auto 8.
  - destruct (binary_round_aux_nearest _ _ float_format false (m * m) (e + e) 24)
      as (Mr & E & HdM & Hb).
    + apply digits2_pos_bounds. rewrite Pos2Z.inj_mul.
      change (float_prec + 24 - 1) with 47. change (float_prec + 24) with 48. lia.
    + rewrite Pos2Z.inj_mul. change (float_prec + 24) with 48. nia.
    + unfold emin, float_prec, float_emax. lia.
    + exists Mr, 24%positive. rewrite Pos2Z.inj_mul in Hb.
      auto 8.
Qed.

(** A number whose square is close to [T * T] has its integer square root
    close to [T]. *)
Lemma root_near (T A c q r : Z) :
  0 <= q -> 0 <= r <= 2 * q -> 0 <= A <= T ->
  Z.abs (q * q + r - T * T) <= c -> c < 2 * A * T - A * A ->
  T - A <= q /\ q + 1 <= T + A.
Proof. intros Hq Hr HA Hc Hlt. split; nia. Qed.

(** The integer square root of the rounded square of [m] is within less
    than half a [float] unit of [m]: [q] and [r] are the root and the
    remainder that [SFsqrt] takes of the square [Mr * 2^p], brought to 106
    bits. *)
Lemma root_of_rounded_square (m Mr p q r : Z) :
  2 ^ 23 <= m < 2 ^ 24 -> 2 ^ 23 <= Mr < 2 ^ 24 ->
  (p = 23 /\ m * m < 2 ^ 47 \/ p = 24 /\ 2 ^ 47 <= m * m) ->
  2 * Z.abs (Mr * 2 ^ p - m * m) <= 2 ^ p ->
  Mr * 2 ^ (58 + p) = q * q + r -> 0 <= r <= 2 * q ->
  2 ^ 52 <= q /\ m * 2 ^ 29 - (2 ^ 28 - 1) <= q /\ q + 1 <= m * 2 ^ 29 + (2 ^ 28 - 1).
Proof.
  intros Hm HMr Hp Hb Hq Hr.
  assert (H0 : 0 <= q) by lia.
  assert (Hlow : 2 ^ 52 <= q).
  { assert (2 ^ 104 <= q * q + r); [|nia].
    rewrite <- Hq. destruct Hp as [[-> _]|[-> _]]; lia. }
  split; [exact Hlow|].
  set (T := m * 2 ^ 29).
  assert (HT : T * T = m * m * 2 ^ 58) by (unfold T; ring).
  destruct Hp as [[-> Hp]|[-> Hp]].
  - apply (root_near T (2 ^ 28 - 1) (2 ^ 80) q r); lia.
  - assert (Hm' : 11863284 <= m) by nia.
    apply (root_near T (2 ^ 28 - 1) (2 ^ 81) q r); lia.
Qed.

(** The number of which [SFsqrt] takes the integer square root, for a
    [float] of exponent [e + e + p] widened to [double]. *)
Lemma sqrt_core_of_float (Mr : positive) (e p : Z) :
  Zpos (digits2_pos Mr) = 24 -> p = 23 \/ p = 24 -> -30 <= e <= 30 ->
  SFsqrt_core_binary double_prec double_emax (Zpos (pshl Mr 29)) (e + e + p - 29)
  = let (q, r) := Z.sqrtrem (Zpos Mr * 2 ^ (58 + p)) in
    (q, e - 29, if r =? 0 then loc_Exact else loc_Inexact (if r <=? q then Lt else Gt)).
Proof.
  intros Hd Hp He. unfold SFsqrt_core_binary, Zdigits2.
  rewrite digits2_pshl, Hd by lia. rewrite !Z.div2_div.
  unfold fexp, emin, double_prec, double_emax.
  assert (E1 : (24 + 29 + (e + e + p - 29) + 1) / 2 = e + 24)
    by (destruct Hp as [->| ->]; Z.div_mod_to_equations; lia).
  assert (E2 : (e + e + p - 29) / 2 = e - 3)
    by (destruct Hp as [->| ->]; Z.div_mod_to_equations; lia).
  rewrite E1, E2.
  replace (Z.min (Z.max (e + 24 - 53) (3 - 1024 - 53)) (e - 3)) with (e - 29) by lia.
  replace (e + e + p - 29 - 2 * (e - 29)) with (29 + p) by lia.
  rewrite shift_match by lia. rewrite pshl_Z by lia.
  replace (Zpos Mr * 2 ^ 29 * 2 ^ (29 + p)) with (Zpos Mr * 2 ^ (58 + p)).
  - reflexivity.
  - destruct Hp as [->| ->]; lia.
Qed.

(** In [float], with the square root taken in [double] as [std_dev] does,
    [sqrt(x * x)] is [|x|]: the rounding of the square is undone. *)
Lemma float_sqrt_square (s : bool) (m : positive) (e : Z) :
  Zpos (digits2_pos m) = 24 -> -30 <= e <= 30 ->
  float_of_double
    (double_sqrt (double_of_float (float_mul (S754_finite s m e) (S754_finite s m e))))
  = S754_finite false m e.
Proof.
  intros Hd He.
  destruct (float_mul_square s m e Hd He) as (Mr & p & -> & HdM & Hb & Hp).
  assert (Hp' : Zpos p = 23 \/ Zpos p = 24) by (destruct Hp as [[-> _]|[-> _]]; auto).
  cbn [double_of_float].
  replace (e + e + Zpos p) with (e + e + Zpos p - 0) by lia.
  change Mr with (pshl Mr 0) at 1.
  rewrite (binary_round_exact _ _ double_format)
    by (rewrite ?HdM; unfold emin, double_prec, double_emax; lia).
  rewrite HdM. change (double_prec - 24) with 29.
  replace (e + e + Zpos p + 24 - double_prec) with (e + e + Zpos p - 29)
    by (unfold double_prec; lia).
  unfold double_sqrt. cbn [SFsqrt]. rewrite sqrt_core_of_float by assumption.
  pose proof (Z.sqrtrem_spec (Zpos Mr * 2 ^ (58 + Zpos p)) ltac:(lia)) as Hs.
  destruct (Z.sqrtrem (Zpos Mr * 2 ^ (58 + Zpos p))) as [q r]. destruct Hs as [Hq Hr].
  apply digits2_pos_bounds in Hd as Hm. apply digits2_pos_bounds in HdM as HMr.
  change (24 - 1) with 23 in Hm, HMr.
  assert (Hp'' : Zpos p = 23 /\ Zpos m * Zpos m < 2 ^ 47
                 \/ Zpos p = 24 /\ 2 ^ 47 <= Zpos m * Zpos m)
    by (destruct Hp as [[-> ?]|[-> ?]]; auto).
  destruct (root_of_rounded_square (Zpos m) (Zpos Mr) (Zpos p) q r Hm HMr Hp'' Hb Hq Hr)
    as (Hq0 & Hlo & Hhi).
  set (l := if r =? 0 then loc_Exact else loc_Inexact (if r <=? q then Lt else Gt)).
  set (Q := round_nearest_even q l).
  assert (HQ : q <= Q <= q + 1).
  { unfold Q, l. destruct (r =? 0); [cbn; lia|]. destruct (r <=? q); cbn; lia. }
  assert (Hq53 : 2 ^ (53 - 1) <= q < 2 ^ 53) by (change (53 - 1) with 52; lia).
  assert (HQ53 : 2 ^ (53 - 1) <= Q < 2 ^ 53) by (change (53 - 1) with 52; lia).
  destruct q as [|qp|qp]; [lia| |lia]. destruct Q as [|Qp|Qp] eqn:EQ; [lia| |lia].
  apply digits2_pos_bounds in Hq53, HQ53.
  unfold binary_round_aux.
  rewrite (shr_fexp_canonical _ _ double_format)
    by (assumption || unfold emin, double_prec, double_emax; lia).
  destruct (loc_of_shr_record_of_loc (Zpos qp) l) as [-> ->]. fold Q. rewrite EQ.
  rewrite (shr_fexp_canonical _ _ double_format)
    by (assumption || unfold emin, double_prec, double_emax; lia).
  cbn [shr_record_of_loc shr_m].
  destruct (e - 29 <=? double_emax - double_prec) eqn:E;
    [|unfold double_prec, double_emax in E; lia].
  cbn [float_of_double]. unfold binary_round. rewrite HQ53.
  rewrite shl_align_spec.
  destruct (_ <? e - 29) eqn:E';
    [unfold fexp, emin, float_prec, float_emax in E'; lia|].
  rewrite (binary_round_aux_to _ _ float_format false Qp (e - 29) 29 m).
  - f_equal. lia.
  - exact HQ53.
  - exact Hd.
  - lia.
  - unfold emin, float_prec, float_emax. lia.
Qed.

(** A square does not depend on the sign. *)
Lemma float_mul_sign (s : bool) (m : positive) (e : Z) :
  float_mul (S754_finite s m e) (S754_finite s m e)
  = float_mul (S754_finite false m e) (S754_finite false m e).
Proof. unfold float_mul. cbn [SFmul]. rewrite xorb_nilpotent. reflexivity. Qed.

(** The variance of two values at [x] and [-x] from their mean is [x * x],
    rounded once. *)
Lemma variance_of_pair (s s' : bool) (m : positive) (e : Z) :
  Zpos (digits2_pos m) = 24 -> -30 <= e <= 30 ->
  float_div
    (float_add (float_add float_zero (float_mul (S754_finite s m e) (S754_finite s m e)))
               (float_mul (S754_finite s' m e) (S754_finite s' m e)))
    (float_of_int 2)
  = float_mul (S754_finite false m e) (S754_finite false m e).
Proof.
  intros Hd He. rewrite (float_mul_sign s), (float_mul_sign s').
  destruct (float_mul_square false m e Hd He) as (Mr & p & -> & HdM & _ & Hp).
  assert (Hp' : Zpos p = 23 \/ Zpos p = 24) by (destruct Hp as [[-> _]|[-> _]]; auto).
  change (float_add float_zero ?x) with x. unfold float_add.
  rewrite (SFadd_twice _ _ float_format)
    by (assumption || unfold emin, float_prec, float_emax; lia).
  unfold float_div, float_of_int.
  rewrite (SFdiv_finite_two _ _ float_format)
    by (assumption || unfold emin, float_prec, float_emax; lia).
  f_equal. lia.
Qed.

(** ** The distance *)

Lemma std_dev_pair (x y : spec_float) :
  std_dev [x; y] 2 =
  let sum := double_add (double_add float_zero (double_of_float x)) (double_of_float y) in
  let mean := float_of_double (double_div sum (double_of_int 2)) in
  let dx := float_sub x mean in
  let dy := float_sub y mean in
  let variance :=
    float_div (float_add (float_add float_zero (float_mul dx dx)) (float_mul dy dy))
              (float_of_int 2) in
  float_of_double (double_sqrt (double_of_float variance)).
Proof. reflexivity. Qed.

(** The difference from the mean of two integers is computed exactly. *)
Lemma difference_from_mean (a b : Z) :
  Z.abs a < 2 ^ 23 -> Z.abs b < 2 ^ 23 ->
  let sum := double_add (double_add float_zero (double_of_float (float_of_int a)))
                        (double_of_float (float_of_int b)) in
  let mean := float_of_double (double_div sum (double_of_int 2)) in
  float_sub (float_of_int a) mean = dyadic float_prec float_emax (a - b) (-1).
Proof.
  intros Ha Hb. cbv zeta. unfold float_of_int, double_of_int.
  change float_zero with (dyadic double_prec double_emax 0 0).
  assert (H24 : 2 ^ float_prec = 2 ^ 24) by reflexivity.
  assert (H53 : 2 ^ double_prec = 2 ^ 53) by reflexivity.
  pose proof (exponent_ok_float 0 ltac:(lia)).
  pose proof (exponent_ok_float (-1) ltac:(lia)).
  pose proof (exponent_ok_double 0 ltac:(lia)).
  pose proof (exponent_ok_double (-1) ltac:(lia)).
  pose proof (exponent_ok_double (-2) ltac:(lia)).
  rewrite !double_of_float_dyadic by (assumption || lia).
  unfold double_add. rewrite !(SFadd_dyadic _ _ double_format) by (assumption || lia).
  unfold double_div. rewrite (SFdiv_dyadic_two _ _ double_format) by (assumption || lia).
  rewrite float_of_double_dyadic by (assumption || lia).
  rewrite <- (dyadic_shift _ _ float_format a 0 1) by (assumption || lia).
  unfold float_sub. rewrite (SFsub_dyadic _ _ float_format) by (assumption || lia).
  f_equal. lia.
Qed.

Lemma sum_of_pair_comm (a b : Z) :
  Z.abs a < 2 ^ 23 -> Z.abs b < 2 ^ 23 ->
  double_add (double_add float_zero (double_of_float (float_of_int a)))
             (double_of_float (float_of_int b))
  = double_add (double_add float_zero (double_of_float (float_of_int b)))
               (double_of_float (float_of_int a)).
Proof.
  intros Ha Hb. unfold float_of_int.
  change float_zero with (dyadic double_prec double_emax 0 0).
  pose proof (exponent_ok_float 0 ltac:(lia)).
  pose proof (exponent_ok_double 0 ltac:(lia)).
  assert (H24 : 2 ^ float_prec = 2 ^ 24) by reflexivity.
  assert (H53 : 2 ^ double_prec = 2 ^ 53) by reflexivity.
  rewrite !double_of_float_dyadic by (assumption || lia).
  unfold double_add. rewrite !(SFadd_dyadic _ _ double_format) by (assumption || lia).
  f_equal. lia.
Qed.

(** The standard deviation of two integers is half their distance. *)
Lemma std_dev_of_pair (a b : Z) :
  Z.abs a < 2 ^ 23 -> Z.abs b < 2 ^ 23 -> a <> b ->
  std_dev [float_of_int a; float_of_int b] 2
  = dyadic float_prec float_emax (Z.abs (a - b)) (-1).
Proof.
  intros Ha Hb Hne. rewrite std_dev_pair. cbv zeta.
  rewrite (difference_from_mean a b Ha Hb).
  rewrite (sum_of_pair_comm a b Ha Hb).
  rewrite (difference_from_mean b a Hb Ha).
  replace (b - a) with (- (a - b)) by lia.
  set (n := a - b). assert (Hn : n <> 0) by lia.
  assert (Hbn : Z.abs n < 2 ^ float_prec) by (change (2 ^ float_prec) with (2 ^ 24); lia).
  pose proof (digits_range _ _ float_format n Hn Hbn) as Hd.
  pose proof (exponent_ok_float (-1) ltac:(lia)) as He.
  rewrite (dyadic_canonical _ _ float_format n),
    (dyadic_canonical _ _ float_format (- n)),
    (dyadic_canonical _ _ float_format (Z.abs n))
    by (assumption || lia).
  replace (digits (- n)) with (digits n) by (unfold digits; rewrite Z.abs_opp; reflexivity).
  replace (digits (Z.abs n)) with (digits n) by (unfold digits; rewrite Z.abs_idemp; reflexivity).
  rewrite Z.abs_opp, Z.abs_idemp.
  replace (Z.abs n <? 0) with false by (symmetry; apply Z.ltb_ge; lia).
  set (m := pshl (Z.to_pos (Z.abs n)) (float_prec - digits n)).
  assert (Hdm : Zpos (digits2_pos m) = 24).
  { unfold m. rewrite digits2_pshl by lia. fold (digits n). unfold float_prec. lia. }
  set (e := -1 + digits n - float_prec).
  assert (He' : -30 <= e <= 30) by (unfold e, float_prec in *; lia).
  rewrite variance_of_pair by assumption.
  apply float_sqrt_square; assumption.
Qed.

Lemma n_e_d_term_two (a b : Z) : exact_pair a b -> n_e_d_term a b = double_of_int 2.
Proof.
  intros (Ha & Hb & Hne). unfold n_e_d_term. cbv zeta.
  rewrite (std_dev_of_pair a b Ha Hb Hne).
  rewrite wrap_int_id by (unfold INT_MIN, INT_MAX; lia).
  unfold abs_int. rewrite wrap_int_id by (unfold INT_MIN, INT_MAX; lia).
  set (n := Z.abs (a - b)).
  assert (Hn : 0 < n < 2 ^ 24) by lia.
  assert (Hsq : 0 < n * n < 2 ^ 48) by nia.
  assert (H24 : 2 ^ float_prec = 2 ^ 24) by reflexivity.
  assert (H53 : 2 ^ double_prec = 2 ^ 53) by reflexivity.
  rewrite double_of_float_dyadic
    by (try apply exponent_ok_float; try apply exponent_ok_double; lia).
  unfold pow_2, double_of_int, double_mul.
  rewrite !(SFmul_dyadic_square _ _ double_format)
    by (try apply exponent_ok_double; lia).
  unfold double_div.
  rewrite (SFdiv_dyadic_same _ _ double_format)
    by (try apply exponent_ok_double; lia).
  vm_compute. reflexivity.
Qed.

(** Even numbers up to [2^25] are [float]s. *)
Lemma float_of_int_even (i : Z) :
  Z.abs i < 2 ^ 24 -> float_of_int (2 * i) = dyadic float_prec float_emax i 1.
Proof.
  intros Hi. unfold float_of_int.
  rewrite <- (dyadic_shift _ _ float_format i 1 1)
    by (try apply exponent_ok_float; assumption || lia).
  f_equal. lia.
Qed.

Lemma n_e_d_step_two (i a b : Z) :
  0 <= i < 2 ^ 24 -> exact_pair a b ->
  n_e_d_step (float_of_int (2 * i)) (a, b) = float_of_int (2 * (i + 1)).
Proof.
  intros Hi Hab. unfold n_e_d_step. cbn [fst snd].
  rewrite (n_e_d_term_two a b Hab).
  change (double_of_int 2) with (dyadic double_prec double_emax 1 1).
  rewrite float_of_int_even by lia.
  assert (H24 : 2 ^ float_prec = 2 ^ 24) by reflexivity.
  assert (H53 : 2 ^ double_prec = 2 ^ 53) by reflexivity.
  pose proof (exponent_ok_float 1 ltac:(lia)).
  pose proof (exponent_ok_double 1 ltac:(lia)).
  rewrite double_of_float_dyadic by (assumption || lia).
  unfold double_add. rewrite (SFadd_dyadic _ _ double_format) by (assumption || lia).
  destruct (Z.eq_dec (i + 1) (2 ^ 24)) as [->|Hne].
  - vm_compute. reflexivity.
  - rewrite float_of_double_dyadic by (assumption || lia).
    rewrite float_of_int_even by lia. reflexivity.
Qed.

Lemma n_e_d_loop_two (l : list (Z * Z)) :
  forall i : Z,
    0 <= i -> i + Z.of_nat (length l) <= 2 ^ 24 ->
    Forall (fun ab => exact_pair ab.1 ab.2) l ->
    fold_left n_e_d_step l (float_of_int (2 * i))
    = float_of_int (2 * (i + Z.of_nat (length l))).
Proof.
  induction l as [|[a b] l IH]; intros i Hi Hlen Hl.
  - cbn. do 2 f_equal. lia.
  - apply Forall_cons in Hl as [Hab Hl]. cbn [fold_left length] in *.
    rewrite n_e_d_step_two by (assumption || lia).
    rewrite IH by (assumption || lia).
    do 2 f_equal. lia.
Qed.

Lemma Forall2_zip (R : Z -> Z -> Prop) (l k : list Z) :
  Forall2 R l k -> Forall (fun ab => R ab.1 ab.2) (zip l k).
Proof.
  induction 1 as [|a b l k Hab _ IH]; cbn; constructor; assumption.
Qed.

(** At [2^25] the accumulator [d] no longer moves: [2^25 + 2] is not a [float]. *)
Lemma n_e_d_loop_stuck (l : list (Z * Z)) :
  Forall (fun ab => exact_pair ab.1 ab.2) l ->
  fold_left n_e_d_step l (float_of_int (2 ^ 25)) = float_of_int (2 ^ 25).
Proof.
  induction l as [|[a b] l IH]; intros Hl; [reflexivity|].
  apply Forall_cons in Hl as [Hab Hl]. cbn [fold_left].
  rewrite <- IH at 2 by assumption. f_equal.
  unfold n_e_d_step. cbn [fst snd] in *. rewrite (n_e_d_term_two a b Hab).
  vm_compute. reflexivity.
Qed.

(** From [2^24] dimensions on the distance is [2^25] whatever the number of
    dimensions. *)
Lemma n_e_d_long (vec1 vec2 : list Z) :
  Forall2 exact_pair vec1 vec2 -> 2 ^ 24 <= Z.of_nat (length vec1) ->
  n_e_d vec1 vec2 (Z.of_nat (length vec1)) = float_of_int (2 ^ 25).
Proof.
  intros H Hlen. unfold n_e_d. rewrite Nat2Z.id.
  rewrite take_ge by (rewrite length_zip; lia).
  apply Forall2_zip in H as Hz.
  assert (Hl : Z.of_nat (length (zip vec1 vec2)) = Z.of_nat (length vec1))
    by (rewrite length_zip, <- (Forall2_length _ _ _ H); lia).
  revert Hz Hl. generalize (zip vec1 vec2) as l. intros l Hz Hl.
  rewrite <- (take_drop (Z.to_nat (2 ^ 24)) l) in Hz |- *.
  apply Forall_app in Hz as [Ht Hd]. rewrite fold_left_app.
  change float_zero with (float_of_int (2 * 0)).
  rewrite n_e_d_loop_two by (rewrite ?length_take; assumption || lia).
  rewrite length_take.
  replace (2 * (0 + Z.of_nat (Z.to_nat (2 ^ 24) `min` length l))) with (2 ^ 25) by lia.
  apply n_e_d_loop_stuck. exact Hd.
Qed.

Lemma n_e_d_nan_absorbs (l : list (Z * Z)) : fold_left n_e_d_step l S754_nan = S754_nan.
Proof.
  induction l as [|ab l IH]; [reflexivity|]. cbn [fold_left]. exact IH.
Qed.

Lemma n_e_d_term_same (a : Z) : Z.abs a < 2 ^ 23 -> n_e_d_term a a = S754_nan.
Proof.
  intros Ha. unfold n_e_d_term. rewrite std_dev_pair. cbv zeta.
  rewrite (difference_from_mean a a Ha Ha).
  replace (a - a) with 0 by lia.
  vm_compute. reflexivity.
Qed.

(** A dimension in which the two vectors agree turns the whole sum into a
    NaN: its term is [0/0], and a NaN operand makes every later sum a NaN. *)
Lemma n_e_d_same_head (a : Z) (vec1 vec2 : list Z) (len : Z) :
  Z.abs a < 2 ^ 23 -> 0 < len ->
  n_e_d (a :: vec1) (a :: vec2) len = S754_nan.
Proof.
  intros Ha Hlen. unfold n_e_d.
  destruct (Z.to_nat len) as [|n] eqn:E; [lia|].
  cbn [zip zip_with take fold_left]. unfold n_e_d_step at 2. cbn [fst snd].
  rewrite (n_e_d_term_same a Ha).
  change (float_of_double (double_add (double_of_float float_zero) S754_nan))
    with S754_nan.
  apply n_e_d_nan_absorbs.
Qed.

(** ** The clustering *)

(** The comparison never lowers [min_dist]: the assignment in its branch
    goes the other way. *)
Lemma assign_step_min_dist (P : platform) (vec_len : Z) (v : list Z)
    (st : assign_state) (jc : nat * list Z) :
  min_dist (assign_step P vec_len v st jc) = min_dist st.
Proof.
  unfold assign_step. cbn [dist min_dist].
  destruct (int_of_float P (n_e_d v jc.2 vec_len) <? min_dist st); reflexivity.
Qed.

(** Whenever the distance to a centroid converts to an [int] below
    [min_dist], that centroid replaces the one chosen so far. *)
Lemma assign_step_takes (P : platform) (vec_len : Z) (v : list Z)
    (st : assign_state) (jc : nat * list Z) :
  int_of_float P (n_e_d v jc.2 vec_len) < min_dist st ->
  min_centroid (assign_step P vec_len v st jc) = Z.of_nat jc.1.
Proof.
  intros H. unfold assign_step. cbn [dist min_dist].
  destruct (int_of_float P (n_e_d v jc.2 vec_len) <? min_dist st) eqn:E;
    [reflexivity|lia].
Qed.

(** ** Ports *)

Lemma byte_val_range (b : byte) : 0 <= byte_val b < 256.
Proof.
  unfold byte_val. pose proof (Byte.to_N_bounded b). lia.
Qed.

Lemma lor_shiftl_8 (hi lo : Z) : 0 <= lo < 256 -> Z.lor (Z.shiftl hi 8) lo = 256 * hi + lo.
Proof.
  intros Hlo.
  assert (Hland : Z.land (Z.shiftl hi 8) lo = 0).
  { apply Z.bits_inj'. intros n Hn. rewrite Z.land_spec, Z.bits_0.
    destruct (Z.ltb_spec n 8) as [Hlt|Hge].
    - rewrite Z.shiftl_spec_low by assumption. reflexivity.
    - rewrite andb_comm.
      destruct (Z.eq_dec lo 0) as [->|Hne]; [rewrite Z.bits_0; reflexivity|].
      rewrite Z.bits_above_log2; [reflexivity|lia|].
      assert (Z.log2 lo < 8) by (apply Z.log2_lt_pow2; lia). lia. }
  rewrite <- Z.lxor_lor, <- Z.add_nocarry_lxor by assumption.
  rewrite Z.shiftl_mul_pow2 by lia. lia.
Qed.

(** On a big-endian host the field as loaded is the port on the wire. *)
Lemma read_u16_big_endian (P : platform) (packet : list byte) (off : Z) :
  host_order P = BigEndian -> read_u16 P packet off = port_on_wire packet off.
Proof.
  intros HP. unfold read_u16, port_on_wire, read_u8. rewrite HP.
  destruct (packet !! Z.to_nat off) as [b0|]; cbn [bind]; [|reflexivity].
  destruct (packet !! Z.to_nat (off + 1)) as [b1|]; cbn [bind]; [|reflexivity].
  f_equal. apply lor_shiftl_8, byte_val_range.
Qed.

Lemma got_packet_tcp_ports (P : platform) (hs hs' : HistogramSet) (packet : list byte)
    (size_ip : Z) (r : report) :
  got_packet_tcp P hs packet size_ip = Done (hs', r) ->
  (forall n, r <> InvalidTCPHeaderLength n) ->
  exists th_sport th_dport,
    read_u16 P packet (SIZE_ETHERNET + size_ip + off_th_sport) = Done th_sport /\
    read_u16 P packet (SIZE_ETHERNET + size_ip + off_th_dport) = Done th_dport /\
    src_ports hs' = counted_port th_sport (src_ports hs) /\
    dst_ports hs' = counted_port th_dport (dst_ports hs).
Proof.
  unfold got_packet_tcp, counted_port. intros H Hr.
  run_outcome; invert_incr; subst; try (destruct (Hr _ eq_refl));
    eexists _, _; (split; [reflexivity|]); (split; [reflexivity|]);
    repeat match goal with
           | H : (_ <? 1024) = _ |- _ => rewrite H; clear H
           end; split; reflexivity.
Qed.

(** ** Symmetry of the distance *)

Lemma SFadd_comm (prec emax : Z) (x y : spec_float) :
  SFadd prec emax x y = SFadd prec emax y x.
Proof.
  destruct x as [sx|sx| |sx mx ex], y as [sy|sy| |sy my ey]; cbn [SFadd];
    try reflexivity; try (destruct sx, sy; reflexivity).
  rewrite (Z.min_comm ey ex), Z.add_comm. reflexivity.
Qed.

(** Summing two numbers into an accumulator that starts at [+0] gives the
    same result in either order, signed zeros included. *)
Lemma SFadd_from_zero_comm (prec emax : Z) (x y : spec_float) :
  SFadd prec emax (SFadd prec emax (S754_zero false) x) y
  = SFadd prec emax (SFadd prec emax (S754_zero false) y) x.
Proof.
  destruct x as [sx|sx| |sx mx ex], y as [sy|sy| |sy my ey]; cbn [SFadd];
    try reflexivity; try (destruct sx, sy; reflexivity);
    try (destruct sx; reflexivity); try (destruct sy; reflexivity).
  rewrite (Z.min_comm ey ex), Z.add_comm. reflexivity.
Qed.

Lemma std_dev_pair_comm (x y : spec_float) : std_dev [x; y] 2 = std_dev [y; x] 2.
Proof.
  rewrite !std_dev_pair. cbv zeta.
  unfold double_add, float_add, float_zero.
  rewrite (SFadd_from_zero_comm double_prec double_emax (double_of_float x)).
  rewrite (SFadd_from_zero_comm float_prec float_emax (float_mul (float_sub x _) _)).
  reflexivity.
Qed.

Lemma abs_int_difference_comm (a b : Z) :
  abs_int (wrap_int (a - b)) = abs_int (wrap_int (b - a)).
Proof.
  unfold abs_int. f_equal. unfold wrap_int.
  change (2 ^ 31) with 2147483648. change (2 ^ 32) with 4294967296.
  Z.div_mod_to_equations. lia.
Qed.

Lemma n_e_d_term_comm (a b : Z) : n_e_d_term a b = n_e_d_term b a.
Proof.
  unfold n_e_d_term.
  rewrite (std_dev_pair_comm (float_of_int a)), (abs_int_difference_comm a b).
  reflexivity.
Qed.


(** ** The faults of [got_packet] *)

Lemma read_u8_inv (packet : list byte) (off : Z) :
  0 <= off ->
  match read_u8 packet off with
  | Done v => 0 <= v < 256
  | Fault f => f = ReadPastCaplen off /\ Z.of_nat (length packet) <= off
  end.
Proof.
  intros Hoff. unfold read_u8.
  destruct (packet !! Z.to_nat off) as [b|] eqn:E.
  - apply byte_val_range.
  - split; [reflexivity|]. apply lookup_ge_None in E. lia.
Qed.

Lemma read_u16_inv (P : platform) (packet : list byte) (off : Z) :
  0 <= off ->
  match read_u16 P packet off with
  | Done v => 0 <= v
  | Fault f => exists o, f = ReadPastCaplen o /\ Z.of_nat (length packet) <= o
  end.
Proof.
  intros Hoff. unfold read_u16.
  pose proof (read_u8_inv packet off Hoff) as H0.
  pose proof (read_u8_inv packet (off + 1) ltac:(lia)) as H1.
  destruct (read_u8 packet off) as [b0|]; cbn [bind]; [|destruct H0; eauto].
  destruct (read_u8 packet (off + 1)) as [b1|]; cbn [bind]; [|destruct H1; eauto].
  destruct (host_order P); apply Z.lor_nonneg; split;
    try apply Z.shiftl_nonneg; lia.
Qed.

Lemma read_u32_inv (P : platform) (packet : list byte) (off : Z) :
  0 <= off ->
  match read_u32 P packet off with
  | Done v => True
  | Fault f => exists o, f = ReadPastCaplen o /\ Z.of_nat (length packet) <= o
  end.
Proof.
  intros Hoff. unfold read_u32.
  pose proof (read_u8_inv packet off Hoff) as H0.
  pose proof (read_u8_inv packet (off + 1) ltac:(lia)) as H1.
  pose proof (read_u8_inv packet (off + 2) ltac:(lia)) as H2.
  pose proof (read_u8_inv packet (off + 3) ltac:(lia)) as H3.
  destruct (read_u8 packet off); cbn [bind]; [|destruct H0; eauto].
  destruct (read_u8 packet (off + 1)); cbn [bind]; [|destruct H1; eauto].
  destruct (read_u8 packet (off + 2)); cbn [bind]; [|destruct H2; eauto].
  destruct (read_u8 packet (off + 3)); cbn [bind]; [|destruct H3; eauto].
  exact I.
Qed.

Lemma incr_Fault (id : array_id) (size : Z) (arr : list Z) (i : Z) (f : fault) :
  incr id size arr i = Fault f -> f = WriteOutOfBounds id i /\ ~ 0 <= i < size.
Proof.
  unfold incr. destruct ((0 <=? i) && (i <? size)) eqn:E; [discriminate|].
  intros [= <-]. split; [reflexivity|].
  apply andb_false_iff in E as [E|E]; lia.
Qed.

Lemma land_255_range (x : Z) : 0 <= Z.land x 255 < 256.
Proof.
  change 255 with (Z.ones 8). rewrite Z.land_ones by lia.
  apply Z.mod_pos_bound. reflexivity.
Qed.

Lemma IP_HL_range (ip_vhl : Z) : 0 <= IP_HL ip_vhl < 16.
Proof.
  unfold IP_HL. change 15 with (Z.ones 4). rewrite Z.land_ones by lia.
  apply Z.mod_pos_bound. reflexivity.
Qed.

Ltac offsets :=
  unfold SIZE_ETHERNET, off_ip_vhl, off_ip_len, off_ip_p, off_ip_src, off_ip_dst,
    off_th_sport, off_th_dport, off_th_offx2, off_th_flags in *;
  lia.

Ltac fault_of_read :=
  match goal with
  | E : read_u8 ?p ?o = Fault _ |- _ =>
      let H := fresh in
      pose proof (read_u8_inv p o ltac:(offsets)) as H;
      rewrite E in H; destruct H; left; eauto
  | E : read_u16 ?P ?p ?o = Fault _ |- _ =>
      let H := fresh in
      pose proof (read_u16_inv P p o ltac:(offsets)) as H;
      rewrite E in H; left; exact H
  | E : read_u32 ?P ?p ?o = Fault _ |- _ =>
      let H := fresh in
      pose proof (read_u32_inv P p o ltac:(offsets)) as H;
      rewrite E in H; left; exact H
  end.

Lemma got_packet_other_faults (hs : HistogramSet) (slot : option Z) (size_ip : Z) (f : fault) :
  0 <= size_ip <= 60 -> (forall k, slot = Some k -> 0 <= k < 4) ->
  got_packet_other hs slot size_ip <> Fault f.
Proof.
  unfold got_packet_other. intros Hs Hk H.
  destruct slot as [k|]; run_outcome; subst;
    repeat match goal with
           | E : incr _ _ _ _ = Fault _ |- _ => apply incr_Fault in E as [_ E]; apply E
           end; unfold SNAP_LEN, SIZE_ETHERNET; try lia.
  apply Hk. reflexivity.
Qed.

Lemma got_packet_tcp_faults (P : platform) (hs : HistogramSet) (packet : list byte)
    (size_ip : Z) (f : fault) :
  0 <= size_ip ->
  got_packet_tcp P hs packet size_ip = Fault f ->
  (exists off, f = ReadPastCaplen off /\ Z.of_nat (length packet) <= off) \/
  (exists k, f = WriteOutOfBounds A_packet_sizes k /\ k < 0).
Proof.
  unfold got_packet_tcp. intros Hs H.
  run_outcome; subst; try fault_of_read;
    repeat match goal with
           | E : incr _ _ _ _ = Fault _ |- _ => apply incr_Fault in E as [-> E]
           | E : read_u8 ?p ?o = Done ?v |- _ =>
               let H := fresh in
               pose proof (read_u8_inv p o ltac:(offsets)) as H;
               rewrite E in H; clear E
           | E : read_u16 ?P ?p ?o = Done ?v |- _ =>
               let H := fresh in
               pose proof (read_u16_inv P p o ltac:(offsets)) as H;
               rewrite E in H; clear E
           end.
  all: try (exfalso; unfold SNAP_LEN, SIZE_ETHERNET in *; lia).
  all: right; eexists; split; [reflexivity|]; unfold SNAP_LEN, SIZE_ETHERNET in *; lia.
Qed.

(** * The claims *)

(** C1.  The claim asks for one square root over the sum of the
    per-dimension quotients [(a[i]-b[i])^2 / stddev^2].  [n_e_d] takes the
    square root inside its loop and returns the sum of the roots: for
    [a = (0,0)] and [b = (2,2)] it returns [4], where the distance of the
    claim is the square root of [8] (2.828...). *)
Theorem n_e_d_sums_square_roots :
  n_e_d [0; 0] [2; 2] 2 = float_of_int 4 /\
  spec_distance [0; 0] [2; 2] = S754_finite false 11863283 (-22) /\
  float_eq (n_e_d [0; 0] [2; 2] 2) (spec_distance [0; 0] [2; 2]) = false.
Proof. vm_compute. repeat split. Qed.

(** C2.  The claim asks that every vector be assigned to the centroid at
    minimum distance, the least index among ties.  [kmeans] assigns nothing:
    its initialisation loop stores through [mean_vecs[0]], a pointer loaded
    from a block that nothing has written, so with the vectors [(0,0)],
    [(1,1)], [(2,2)] and two clusters it stops there, before the assignment
    loops.  Those loops could not find a minimum either: the branch of the
    comparison assigns [dist = min_dist], so the body never changes
    [min_dist], and every centroid whose distance converts to an [int] below
    it replaces the one chosen before, a nearer one included. *)
Theorem kmeans_assigns_no_nearest_centroid (uninit : Z) :
  kmeans linux_x86_64 uninit [[0; 0]; [1; 1]; [2; 2]] 3 2 2
  = Fault (UninitialisedPointer 0) /\
  (forall (P : platform) (vec_len : Z) (v : list Z) (st : assign_state)
          (jc : nat * list Z),
     min_dist (assign_step P vec_len v st jc) = min_dist st) /\
  (forall (P : platform) (vec_len : Z) (v : list Z) (st : assign_state)
          (jc : nat * list Z),
     int_of_float P (n_e_d v jc.2 vec_len) < min_dist st ->
     min_centroid (assign_step P vec_len v st jc) = Z.of_nat jc.1).
Proof.
  split; [vm_compute; reflexivity|].
  split; [exact assign_step_min_dist|exact assign_step_takes].
Qed.

(** C3.  The claim asks for a cluster assignment.  [kmeans] ends in
    [return NULL] on both of its paths and returns [map] on none: whatever
    the input, the call yields [NULL] or has no defined behaviour.  With the
    vectors [(0,0)], [(0,1)], [(10,10)], [(10,11)] and two clusters it does
    not get as far as a [return]: the initialisation loop stores through
    [mean_vecs[0]], which was never set. *)
Theorem kmeans_returns_no_assignment (P : platform) (uninit : Z) (vecs : list (list Z))
    (num_vecs vec_len num_clusters : Z) :
  (kmeans P uninit vecs num_vecs vec_len num_clusters = Done None \/
   exists f : fault, kmeans P uninit vecs num_vecs vec_len num_clusters = Fault f) /\
  kmeans linux_x86_64 uninit [[0; 0]; [0; 1]; [10; 10]; [10; 11]] 4 2 2
  = Fault (UninitialisedPointer 0).
Proof.
  split; [|vm_compute; reflexivity].
  unfold kmeans. destruct (num_vecs <? num_clusters); [left; reflexivity|].
  destruct (init_centroids _ _ _ _) as [mean_vecs|f]; cbn [bind];
    [|right; exists f; reflexivity].
  destruct (assign_vectors _ _ _ _ _ _ _) as [r|f]; cbn [bind];
    [|right; exists f; reflexivity].
  destruct (recompute _ _ _ _ _) as [ms|f]; cbn [bind];
    [left; reflexivity|right; exists f; reflexivity].
Qed.

(** C4, as stated, fails: a TCP frame with a data offset of 4 words is
    reported with "Invalid TCP header length" after the two address counters
    and [protocols[0]] have been incremented. *)
Lemma tcp_offset_4_is_counted :
  protocols load_histograms = [0; 0; 0; 0] /\
  (fun r => (protocols r.1, r.2))
    <$> result_of (got_packet linux_x86_64 load_histograms frame_tcp_offset_4)
  = Some ([1; 0; 0; 0], InvalidTCPHeaderLength 16).
Proof. vm_compute. split; reflexivity. Qed.

(** C4, amended.  A frame whose IP header length field is below 5 is
    reported with "Invalid IP header length" and leaves every histogram as
    it was.  A frame reported with "Invalid TCP header length" (every TCP
    frame with a valid IP header length and a data offset below 5) has been
    counted in [src_ip_addrs], [dst_ip_addrs] and [protocols[0]]; [flags],
    the port histograms and [packet_sizes] are as they were. *)
Theorem malformed_frame_histograms (P : platform) (hs : HistogramSet) (packet : list byte) :
  (forall ip_vhl,
     read_u8 packet (SIZE_ETHERNET + off_ip_vhl) = Done ip_vhl ->
     IP_HL ip_vhl < 5 ->
     got_packet P hs packet = Done (hs, InvalidIPHeaderLength (IP_HL ip_vhl * 4))) /\
  (forall hs' r,
     got_packet P hs packet = Done (hs', r) ->
     (forall n, r = InvalidIPHeaderLength n -> hs' = hs) /\
     (forall n, r = InvalidTCPHeaderLength n ->
        exists ip_src ip_dst,
          read_u32 P packet (SIZE_ETHERNET + off_ip_src) = Done ip_src /\
          read_u32 P packet (SIZE_ETHERNET + off_ip_dst) = Done ip_dst /\
          hs' = counted_as_tcp hs ip_src ip_dst) /\
     (forall ip_vhl th_offx2,
        protocol_slot P packet = Some 0 ->
        read_u8 packet (SIZE_ETHERNET + off_ip_vhl) = Done ip_vhl ->
        read_u8 packet (SIZE_ETHERNET + IP_HL ip_vhl * 4 + off_th_offx2) = Done th_offx2 ->
        TH_OFF th_offx2 < 5 ->
        r = InvalidTCPHeaderLength (TH_OFF th_offx2 * 4))).
Proof.
  split.
  - intros ip_vhl Hr Hhl. apply short_ip_header; assumption.
  - intros hs' r H. repeat split.
    + intros n ->. eapply invalid_ip_report. exact H.
    + intros n ->. eapply invalid_tcp_report. exact H.
    + intros ip_vhl th_offx2 Hslot Hvhl Hoff Hlt.
      eapply short_tcp_header; eassumption.
Qed.

(** The frame with an IP header length of 3 words leaves the histograms that
    [load] has cleared as they are; the TCP frame with a data offset of 4
    words is counted by its addresses and as TCP, and nowhere else. *)
Lemma malformed_frame_histograms_witness :
  got_packet linux_x86_64 load_histograms frame_ip_hl_3
  = Done (load_histograms, InvalidIPHeaderLength (IP_HL 67 * 4)) /\
  match got_packet linux_x86_64 load_histograms frame_tcp_offset_4 with
  | Done (hs', r) =>
      r = InvalidTCPHeaderLength (TH_OFF 64 * 4) /\
      exists ip_src ip_dst,
        read_u32 linux_x86_64 frame_tcp_offset_4 (SIZE_ETHERNET + off_ip_src) = Done ip_src /\
        read_u32 linux_x86_64 frame_tcp_offset_4 (SIZE_ETHERNET + off_ip_dst) = Done ip_dst /\
        hs' = counted_as_tcp load_histograms ip_src ip_dst
  | Fault _ => False
  end.
Proof.
  split.
  - apply (proj1 (malformed_frame_histograms linux_x86_64 load_histograms frame_ip_hl_3)).
    + reflexivity.
    + vm_compute. reflexivity.
  - destruct (got_packet _ _ frame_tcp_offset_4) as [[hs' r]|f] eqn:E.
    + destruct (proj2 (malformed_frame_histograms _ _ _) hs' r E) as (_ & Htcp & Hoff).
      assert (Hr : r = InvalidTCPHeaderLength (TH_OFF 64 * 4)).
      { apply (Hoff 69 64); [reflexivity|reflexivity|reflexivity|]. vm_compute. reflexivity. }
      split; [exact Hr|]. exact (Htcp _ Hr).
    + vm_compute in E. discriminate E.
Defined.

(** C5, as stated, fails: a GRE datagram (protocol 47) with a valid IP
    header is not malformed and is counted in no [protocols] slot. *)
Lemma gre_frame_in_no_protocol_slot :
  (fun r => (protocols r.1, r.2))
    <$> result_of (got_packet linux_x86_64 load_histograms frame_gre)
  = Some ([0; 0; 0; 0], NoReport).
Proof. vm_compute. reflexivity. Qed.

(** C5, amended.  A frame increments exactly one [protocols] slot when its
    IP header length is accepted and its protocol is one of the four [case]
    labels (TCP, UDP, ICMP, IP), and none otherwise: the [default] arm counts
    nothing.  So after a capture in which no frame takes [got_packet] to an
    access without defined behaviour, started from four counters that are
    not negative and can each grow by the number of frames without passing
    [INT_MAX], the sum of [protocols[0..3]] has grown by the number of such
    frames; a TCP frame is among them also when its TCP header is rejected
    afterwards. *)
Theorem protocols_total_counts (P : platform) (frames : list (list byte))
    (hs hs' : HistogramSet) (rs : list report) :
  pcap_loop P hs frames = Done (hs', rs) ->
  length (protocols hs) = 4%nat ->
  Forall (fun c => 0 <= c /\ c + Z.of_nat (length frames) <= INT_MAX) (protocols hs) ->
  protocols_total hs' = protocols_total hs + counted_frames P frames.
Proof. apply pcap_loop_protocols_total. Qed.

(** Of a TCP SYN, a frame with a short IP header, an ICMP echo, a GRE
    datagram and a TCP frame with a short data offset, three are counted. *)
Lemma protocols_total_counts_witness :
  match pcap_loop linux_x86_64 load_histograms
          [frame_tcp_syn_80; frame_ip_hl_3; frame_icmp_echo; frame_gre; frame_tcp_offset_4]
  with
  | Done (hs', _) => protocols_total hs' = 0 + 3
  | Fault _ => False
  end.
Proof.
  destruct (pcap_loop _ _ _) as [[hs' rs]|f] eqn:E.
  - apply (protocols_total_counts _ _ _ _ _ E).
    + reflexivity.
    + repeat constructor; vm_compute; discriminate.
  - vm_compute in E. discriminate E.
Defined.

(** C6.  The claim is about the port number the TCP header carries.
    [got_packet] compares and indexes with [th_dport] as the host loaded it,
    without [ntohs]: on a little-endian host a SYN to port 80 is counted
    nowhere in [dst_ports], and a SYN to port 20480 is counted in
    [dst_ports[80]]. *)
Theorem port_80_not_counted_little_endian :
  (fun r => dst_ports r.1)
    <$> result_of (got_packet linux_x86_64 load_histograms frame_tcp_syn_80)
  = Some (replicate 1024 0) /\
  (fun r => dst_ports r.1)
    <$> result_of (got_packet linux_x86_64 load_histograms frame_tcp_syn_20480)
  = Some (<[80%nat := 1]> (replicate 1024 0)).
Proof. vm_compute. split; reflexivity. Qed.

(** C7.  The claim asks that a negative payload length be flagged and kept
    out of [packet_sizes].  [got_packet] only tests
    [size_payload + SIZE_ETHERNET + size_ip < SNAP_LEN]: for a TCP segment
    whose IP total length is 20 the payload length is [-20], the test holds,
    and [packet_sizes[-20]] is incremented. *)
Theorem short_total_length_indexes_below_packet_sizes :
  got_packet linux_x86_64 load_histograms frame_tcp_short_total
  = Fault (WriteOutOfBounds A_packet_sizes (-20)).
Proof. vm_compute. reflexivity. Qed.

(** C8.  The claim asks that no byte at or beyond [caplen] be read.
    [got_packet] never looks at [header->caplen]: of a frame of 15 captured
    bytes it reads the source address at offset 26. *)
Theorem truncated_frame_read_past_caplen (P : platform) (hs : HistogramSet) :
  got_packet P hs frame_15_bytes = Fault (ReadPastCaplen 26).
Proof. reflexivity. Qed.

(** C9.  The claim asks for [distance(v, v) == 0].  In [n_e_d] a dimension
    with equal values has a standard deviation of [0] and contributes
    [0/0]: the distance of [(3,7,1)] to itself is a NaN, which compares
    equal to nothing. *)
Theorem n_e_d_of_equal_vectors_is_nan :
  n_e_d [3; 7; 1] [3; 7; 1] 3 = S754_nan /\
  float_eq (n_e_d [3; 7; 1] [3; 7; 1] 3) float_zero = false.
Proof. vm_compute. split; reflexivity. Qed.

(** C10, as stated, fails for large values.  With 8388609 and 8388608 the
    mean is no [float]: the dimension adds about 1.414 instead of [2].
    16777217 and 16777216 are the same [float], the standard deviation is [0]
    and the dimension adds [1/0]. *)
Lemma n_e_d_large_values :
  n_e_d [8388609] [8388608] 1 = S754_finite false 11863283 (-23) /\
  float_eq (n_e_d [8388609] [8388608] 1) (float_of_int 2) = false /\
  n_e_d [16777217] [16777216] 1 = S754_infinity false.
Proof. vm_compute. repeat split; reflexivity. Qed.

(** C10, amended.  For vectors of at most 2^24 dimensions whose entries are
    below 2^23 in magnitude and differ in every dimension, every dimension
    adds exactly [2] and [n_e_d] returns exactly twice the number of
    dimensions. *)
Theorem n_e_d_all_dimensions_differ (vec1 vec2 : list Z) :
  Forall2 exact_pair vec1 vec2 ->
  Z.of_nat (length vec1) <= 2 ^ 24 ->
  Forall2 (fun a b => n_e_d_term a b = double_of_int 2) vec1 vec2 /\
  n_e_d vec1 vec2 (Z.of_nat (length vec1)) = float_of_int (2 * Z.of_nat (length vec1)).
Proof.
  intros H Hlen. split.
  - eapply Forall2_impl; [exact H|]. intros a b Hab. apply n_e_d_term_two. exact Hab.
  - unfold n_e_d. rewrite Nat2Z.id.
    rewrite take_ge by (rewrite length_zip; lia).
    change float_zero with (float_of_int (2 * 0)).
    rewrite n_e_d_loop_two.
    + rewrite length_zip, <- (Forall2_length _ _ _ H). do 2 f_equal. lia.
    + lia.
    + rewrite length_zip. lia.
    + apply Forall2_zip. exact H.
Qed.

(** Three dimensions, three differences, the last one of 16777214: the
    distance is [6]. *)
Lemma n_e_d_all_dimensions_differ_witness :
  n_e_d [0; 3; 8388607] [1; 5; -8388607] 3 = float_of_int 6.
Proof.
  apply (proj2 (n_e_d_all_dimensions_differ [0; 3; 8388607] [1; 5; -8388607]
                  ltac:(repeat constructor; cbn; lia) ltac:(cbn; lia))).
Defined.

(** * Further properties *)

(** X1.  The distance is symmetric: [n_e_d] returns the same datum (a NaN
    in both orders when the vectors agree in a dimension) for the two orders
    of its arguments, whatever the vectors and the length. *)
Theorem n_e_d_symmetric (vec1 vec2 : list Z) (len : Z) :
  n_e_d vec1 vec2 len = n_e_d vec2 vec1 len.
Proof.
  unfold n_e_d. generalize (Z.to_nat len) as n. generalize float_zero as d.
  revert vec2.
  induction vec1 as [|a vec1 IH]; intros [|b vec2] d [|n]; try reflexivity.
  cbn [zip zip_with take fold_left].
  unfold n_e_d_step at 2 4. cbn [fst snd].
  rewrite (n_e_d_term_comm a b). apply IH.
Qed.

(** X2.  A TCP frame that [got_packet] processes past the header checks is
    counted in [src_ports] and [dst_ports] at the value of [th_sport] and
    [th_dport] as the host loads them, each if and only if that value is
    below 1024.  On a big-endian host these values are the ports the header
    carries. *)
Theorem tcp_ports_counted_as_loaded (P : platform) (hs hs' : HistogramSet)
    (packet : list byte) (r : report) (ip_vhl : Z) :
  got_packet P hs packet = Done (hs', r) ->
  protocol_slot P packet = Some 0 ->
  read_u8 packet (SIZE_ETHERNET + off_ip_vhl) = Done ip_vhl ->
  (forall n, r <> InvalidTCPHeaderLength n) ->
  let tcp := SIZE_ETHERNET + IP_HL ip_vhl * 4 in
  exists th_sport th_dport,
    read_u16 P packet (tcp + off_th_sport) = Done th_sport /\
    read_u16 P packet (tcp + off_th_dport) = Done th_dport /\
    src_ports hs' = counted_port th_sport (src_ports hs) /\
    dst_ports hs' = counted_port th_dport (dst_ports hs) /\
    (host_order P = BigEndian ->
     port_on_wire packet (tcp + off_th_sport) = Done th_sport /\
     port_on_wire packet (tcp + off_th_dport) = Done th_dport).
Proof.
  intros H Hslot Hvhl Hr tcp. unfold got_packet in H.
  rewrite Hvhl in H. cbn [bind] in H.
  unfold protocol_slot in Hslot. rewrite Hvhl in Hslot.
  destruct (read_u8 packet (SIZE_ETHERNET + off_ip_p)) as [ip_p|] eqn:Ep;
    [|discriminate Hslot].
  destruct (IP_HL ip_vhl * 4 <? 20) eqn:Ehl; [discriminate Hslot|].
  destruct (ip_p =? IPPROTO_TCP P) eqn:Etcp.
  2:{ repeat match type of Hslot with
             | (if ?c then _ else _) = _ => destruct c
             end; discriminate Hslot. }
  run_outcome; subst; try congruence. invert_incr.
  destruct (got_packet_tcp_ports _ _ _ _ _ _ H Hr) as (sport & dport & Hs & Hd & Hsp & Hdp).
  exists sport, dport. repeat split; try assumption.
  - rewrite <- (read_u16_big_endian P) by assumption. exact Hs.
  - rewrite <- (read_u16_big_endian P) by assumption. exact Hd.
Qed.

(** The SYN to port 80 on the big-endian host. *)
Lemma tcp_ports_counted_as_loaded_witness :
  match got_packet big_endian_host load_histograms frame_tcp_syn_80 with
  | Done (hs', _) =>
      exists th_sport th_dport,
        read_u16 big_endian_host frame_tcp_syn_80 (34 + off_th_sport) = Done th_sport /\
        read_u16 big_endian_host frame_tcp_syn_80 (34 + off_th_dport) = Done th_dport /\
        src_ports hs' = counted_port th_sport (replicate 1024 0) /\
        dst_ports hs' = counted_port th_dport (replicate 1024 0) /\
        (BigEndian = BigEndian ->
         port_on_wire frame_tcp_syn_80 (34 + off_th_sport) = Done th_sport /\
         port_on_wire frame_tcp_syn_80 (34 + off_th_dport) = Done th_dport)
  | Fault _ => False
  end.
Proof.
  destruct (got_packet _ _ _) as [[hs' r]|f] eqn:E.
  - apply (tcp_ports_counted_as_loaded _ _ _ _ _ 69 E).
    + reflexivity.
    + reflexivity.
    + assert (Hr : snd <$> result_of (got_packet big_endian_host load_histograms
                                                 frame_tcp_syn_80) = Some NoReport)
        by (vm_compute; reflexivity).
      rewrite E in Hr. injection Hr as ->. discriminate.
  - vm_compute in E. discriminate E.
Defined.

(** X3.  The accesses of [got_packet] that C leaves undefined are of two
    kinds only: a load at an offset at or beyond [caplen], and the increment
    of [packet_sizes[size_payload]] with a negative [size_payload].  Every
    other index is within its array, [packet_sizes] beyond its upper bound
    included. *)
Theorem got_packet_faults (P : platform) (hs : HistogramSet) (packet : list byte) (f : fault) :
  got_packet P hs packet = Fault f ->
  (exists off, f = ReadPastCaplen off /\ Z.of_nat (length packet) <= off) \/
  (exists k, f = WriteOutOfBounds A_packet_sizes k /\ k < 0).
Proof.
  unfold got_packet. intros H.
  destruct (read_u8 packet (SIZE_ETHERNET + off_ip_vhl)) as [ip_vhl|] eqn:Evhl;
    cbn [bind] in H; [|injection H as <-; fault_of_read].
  pose proof (IP_HL_range ip_vhl) as Hhl.
  destruct (IP_HL ip_vhl * 4 <? 20) eqn:Ehl; [discriminate H|].
  run_outcome; subst; try fault_of_read;
    repeat match goal with
           | E : incr _ _ _ _ = Fault _ |- _ => apply incr_Fault in E as [-> E]
           end;
    try (exfalso; unfold top_octet in *;
         match goal with
         | E : ~ 0 <= Z.land ?x 255 < 256 |- _ => apply E, land_255_range
         | E : ~ 0 <= 0 < 4 |- _ => apply E; lia
         end).
  - eapply got_packet_tcp_faults; [|eassumption]. lia.
  - exfalso. eapply got_packet_other_faults; [| |eassumption]; [lia|]. intros k [= <-]. lia.
  - exfalso. eapply got_packet_other_faults; [| |eassumption]; [lia|]. intros k [= <-]. lia.
  - exfalso. eapply got_packet_other_faults; [| |eassumption]; [lia|]. intros k [= <-]. lia.
  - exfalso. eapply got_packet_other_faults; [| |eassumption]; [lia|]. intros k [=].
Qed.

(** The TCP segment with a total length of 20 is of the second kind. *)
Lemma got_packet_faults_witness :
  (exists off,
     WriteOutOfBounds A_packet_sizes (-20) = ReadPastCaplen off /\
     Z.of_nat (length frame_tcp_short_total) <= off) \/
  (exists k, WriteOutOfBounds A_packet_sizes (-20) = WriteOutOfBounds A_packet_sizes k /\ k < 0).
Proof.
  apply (got_packet_faults linux_x86_64 load_histograms frame_tcp_short_total).
  vm_compute. reflexivity.
Defined.

(** ** The standard deviation of two integers *)

Lemma Zdigits2_bound (m : Z) : 0 <= m -> m < 2 ^ Zdigits2 m.
Proof.
  intros Hm. destruct m as [|p|p]; [cbn; lia| |lia].
  cbn [Zdigits2]. apply (digits2_pos_bounds p). reflexivity.
Qed.

(** The results of this section hold for every format. *)
Section Normal.

Variables prec emax : Z.
Hypothesis Hformat : 2 <= prec < emax.

#[local] Set Default Proof Using "All".

(** Rounding a mantissa of [p] bits too many gives a normal number: the
    mantissa has [prec] bits, and the exponent is one higher when rounding
    up carries into a further bit. *)
Lemma binary_round_aux_normal (s : bool) (M : positive) (e : Z) (p : positive) :
  Zpos (digits2_pos M) = prec + Zpos p ->
  emin prec emax <= e + Zpos p -> e + Zpos p + 1 <= emax - prec ->
  exists (m : positive) (e' : Z),
    binary_round_aux prec emax s (Zpos M) e loc_Exact = S754_finite s m e'
    /\ Zpos (digits2_pos m) = prec /\ e + Zpos p <= e' <= e + Zpos p + 1.
Proof.
  intros Hd Hlo Hhi.
  pose proof (round_shift_bound p (Zpos M) ltac:(lia)) as Hb. cbv zeta in Hb.
  unfold binary_round_aux.
  assert (Hshr : shr_fexp prec emax (Zpos M) e loc_Exact
                 = (Pos.iter shr_1 (Build_shr_record (Zpos M) false false) p, e + Zpos p)).
  { unfold shr_fexp, Zdigits2. rewrite Hd. unfold fexp. unfold emin in Hlo |- *.
    match goal with
    | |- context [Z.max ?a ?b - e] => replace (Z.max a b - e) with (Zpos p) by lia
    end.
    cbn [shr_record_of_loc shr]. rewrite iter_pos_iter. reflexivity. }
  rewrite Hshr.
  set (M1 := round_nearest_even _ _) in *.
  apply digits2_pos_bounds in Hd.
  replace (prec + Zpos p - 1) with (prec - 1 + Zpos p) in Hd by lia.
  rewrite !Z.pow_add_r in Hd by lia.
  assert (H0 : 0 < 2 ^ Zpos p) by (apply Z.pow_pos_nonneg; lia).
  assert (H1 : 0 < 2 ^ (prec - 1)) by (apply Z.pow_pos_nonneg; lia).
  assert (Hp : 2 ^ prec = 2 * 2 ^ (prec - 1)).
  { rewrite <- Z.pow_succ_r by lia. f_equal. lia. }
  assert (HM1 : 2 ^ (prec - 1) <= M1 <= 2 ^ prec).
  { rewrite Hp in *. clearbody M1.
    set (P := 2 ^ Zpos p) in *. set (Q := 2 ^ (prec - 1)) in *. clearbody P Q.
    split; nia. }
  destruct (Z.eq_dec M1 (2 ^ prec)) as [HM|HM].
  - assert (E2 : M1 = Zpos (pshl (pshl 1 (prec - 1)) 1)).
    { rewrite HM, pshl_pshl, pshl_Z by lia. replace (prec - 1 + 1) with prec by lia. lia. }
    rewrite E2.
    assert (Hdq : Zpos (digits2_pos (pshl 1 (prec - 1))) = prec).
    { rewrite digits2_pshl by lia. cbn [digits2_pos]. lia. }
    assert (Hshr2 : shr_fexp prec emax (Zpos (pshl (pshl 1 (prec - 1)) 1)) (e + Zpos p)
                      loc_Exact
                    = (Build_shr_record (Zpos (pshl 1 (prec - 1))) false false,
                       e + Zpos p + 1)).
    { unfold shr_fexp, Zdigits2. rewrite digits2_pshl, Hdq by lia.
      unfold fexp. unfold emin in Hlo |- *.
      match goal with
      | |- context [Z.max ?a ?b - ?c] => replace (Z.max a b - c) with 1 by lia
      end.
      reflexivity. }
    rewrite Hshr2. cbn [shr_m].
    destruct (e + Zpos p + 1 <=? emax - prec) eqn:E; [|lia].
    exists (pshl 1 (prec - 1)), (e + Zpos p + 1).
    split; [reflexivity|]. split; [exact Hdq|lia].
  - assert (HM1' : 2 ^ (prec - 1) <= M1 < 2 ^ prec) by lia.
    destruct M1 as [|m|m] eqn:EM; [lia| |lia].
    apply digits2_pos_bounds in HM1' as Hdm.
    rewrite (shr_fexp_canonical _ _ Hformat) by (assumption || lia).
    cbn [shr_record_of_loc shr_m].
    destruct (e + Zpos p <=? emax - prec) eqn:E; [|lia].
    exists m, (e + Zpos p). split; [reflexivity|]. split; [assumption|lia].
Qed.

(** The difference of a number and itself is [+0]. *)
Lemma SFsub_same (s : bool) (m : positive) (e : Z) :
  SFsub prec emax (S754_finite s m e) (S754_finite s m e) = S754_zero false.
Proof. cbn [SFsub]. rewrite Z.sub_diag. reflexivity. Qed.

(** Whatever it is given, [shr_fexp] leaves a mantissa below [2^prec]. *)
Lemma shr_fexp_bound (m e : Z) (l : location) :
  0 <= m -> 0 <= shr_m (shr_fexp prec emax m e l).1 < 2 ^ prec.
Proof.
  intros Hm. pose proof (Zdigits2_bound m Hm) as Hd.
  unfold shr_fexp. set (d := Zdigits2 m) in *.
  assert (Hd0 : 0 <= d) by (unfold d; destruct m; cbn; lia).
  assert (Hn : d - prec <= fexp prec emax (d + e) - e) by (unfold fexp; lia).
  destruct (fexp prec emax (d + e) - e) as [|p|p] eqn:En; cbn [shr fst].
  - destruct (loc_of_shr_record_of_loc m l) as [-> _].
    split; [lia|]. eapply Z.lt_le_trans; [exact Hd|]. apply Z.pow_le_mono_r; lia.
  - rewrite iter_pos_iter.
    destruct (shr_record_of_loc m l) as [m' r s] eqn:Er.
    assert (m' = m) as ->.
    { destruct (loc_of_shr_record_of_loc m l) as [E _]. rewrite Er in E. exact E. }
    rewrite iter_shr_1 by assumption. cbn [shr_m].
    assert (H0 : 0 < 2 ^ Zpos p) by (apply Z.pow_pos_nonneg; lia).
    split; [apply Z.div_pos; lia|].
    apply Z.div_lt_upper_bound; [lia|].
    eapply Z.lt_le_trans; [exact Hd|].
    rewrite <- Z.pow_add_r by lia. apply Z.pow_le_mono_r; lia.
  - destruct (loc_of_shr_record_of_loc m l) as [-> _].
    split; [lia|]. eapply Z.lt_le_trans; [exact Hd|]. apply Z.pow_le_mono_r; lia.
Qed.

Lemma round_nearest_even_ge (m : Z) (l : location) : m <= round_nearest_even m l.
Proof. destruct l as [|[]]; cbn; try destruct (Z.even m); lia. Qed.

(** The mantissa of a rounded number has at most [prec] bits. *)
Lemma binary_round_aux_bounded (s : bool) (mx ex : Z) (lx : location)
    (s' : bool) (m : positive) (e : Z) :
  0 <= mx ->
  binary_round_aux prec emax s mx ex lx = S754_finite s' m e -> Zpos m < 2 ^ prec.
Proof.
  intros Hm. unfold binary_round_aux.
  pose proof (shr_fexp_bound mx ex lx Hm) as H1.
  destruct (shr_fexp prec emax mx ex lx) as [mrs' e'] eqn:E1. cbn [fst] in H1.
  set (M1 := round_nearest_even _ _).
  assert (HM1 : 0 <= M1) by (pose proof (round_nearest_even_ge (shr_m mrs')
                                           (loc_of_shr_record mrs')); unfold M1; lia).
  pose proof (shr_fexp_bound M1 e' loc_Exact HM1) as H2.
  destruct (shr_fexp prec emax M1 e' loc_Exact) as [mrs'' e''] eqn:E2. cbn [fst] in H2.
  destruct (shr_m mrs'') as [|q|q]; try discriminate.
  destruct (e'' <=? emax - prec); [|discriminate].
  intros [= _ <- _]. lia.
Qed.

Lemma binary_round_bounded (s : bool) (mx : positive) (ex : Z)
    (s' : bool) (m : positive) (e : Z) :
  binary_round prec emax s mx ex = S754_finite s' m e -> Zpos m < 2 ^ prec.
Proof.
  unfold binary_round. destruct (shl_align _ _ _) as [mz ez].
  apply binary_round_aux_bounded. lia.
Qed.

End Normal.

(** Every [int] but [0] converts to a normal [float]. *)
Lemma float_of_int_normal (a : Z) :
  a <> 0 -> INT_MIN <= a <= INT_MAX ->
  exists (m : positive) (e : Z),
    float_of_int a = S754_finite (a <? 0) m e
    /\ Zpos (digits2_pos m) = 24 /\ -30 <= e <= 30.
Proof.
  unfold INT_MIN, INT_MAX. intros Hne Ha.
  destruct (Z.lt_ge_cases (Z.abs a) (2 ^ 24)) as [Hlt|Hge].
  - pose proof (digits_range _ _ float_format a Hne Hlt) as Hd.
    unfold float_of_int.
    rewrite (dyadic_canonical _ _ float_format)
      by (try apply exponent_ok_float; unfold float_prec; lia).
    eexists _, _. split; [reflexivity|]. split.
    + rewrite digits2_pshl by lia. fold (digits a). unfold float_prec. lia.
    + unfold float_prec in *. lia.
  - assert (Hd : 25 <= digits a <= 32).
    { unfold digits. rewrite digits2_pos_log2, Z2Pos.id by lia.
      assert (24 <= Z.log2 (Z.abs a)) by (apply Z.log2_le_pow2; lia).
      assert (Z.log2 (Z.abs a) < 32) by (apply Z.log2_lt_pow2; lia). lia. }
    assert (Hround : forall s,
               exists m e, binary_round float_prec float_emax s (Z.to_pos (Z.abs a)) 0
                           = S754_finite s m e
                           /\ Zpos (digits2_pos m) = 24 /\ -30 <= e <= 30).
    { intros s. unfold binary_round. fold (digits a). rewrite shl_align_spec.
      destruct (_ <? 0) eqn:E;
        [unfold fexp, emin, float_prec, float_emax in E; lia|].
      destruct (digits a - 24) as [|p|p] eqn:Ep; try lia.
      destruct (binary_round_aux_normal _ _ float_format s (Z.to_pos (Z.abs a)) 0 p)
        as (m & e & Em & Hm & He).
      - fold (digits a). unfold float_prec. lia.
      - unfold emin, float_prec, float_emax. lia.
      - unfold float_prec, float_emax. lia.
      - exists m, e. split; [exact Em|]. split; [exact Hm|lia]. }
    unfold float_of_int, dyadic.
    destruct a as [|q|q]; [lia| |]; cbn [binary_normalize Z.ltb Z.compare];
      exact (Hround _).
Qed.

(** The mean of a value and itself is the value. *)
Lemma mean_of_same (s : bool) (m : positive) (e : Z) :
  Zpos (digits2_pos m) = 24 -> -30 <= e <= 30 ->
  let x := S754_finite s m e in
  float_of_double
    (double_div (double_add (double_add float_zero (double_of_float x)) (double_of_float x))
                (double_of_int 2))
  = x.
Proof.
  intros Hd He x. unfold x. cbn [double_of_float].
  replace e with (e - 0) at 1 2 by lia. change m with (pshl m 0) at 1 2.
  rewrite !(binary_round_exact _ _ double_format)
    by (rewrite ?Hd; unfold emin, double_prec, double_emax; lia).
  rewrite Hd. change (double_add float_zero ?y) with y.
  unfold double_add.
  rewrite (SFadd_twice _ _ double_format)
    by (rewrite ?digits2_pshl, ?Hd; unfold emin, double_prec, double_emax; lia).
  unfold double_div, double_of_int.
  rewrite (SFdiv_finite_two _ _ double_format)
    by (rewrite ?digits2_pshl, ?Hd; unfold emin, double_prec, double_emax; lia).
  cbn [float_of_double].
  replace (e + 24 - double_prec + 1 - 1) with (e - (double_prec - 24))
    by (unfold double_prec; lia).
  rewrite (binary_round_exact _ _ float_format)
    by (rewrite ?Hd; unfold emin, float_prec, float_emax, double_prec; lia).
  rewrite Hd. f_equal. unfold float_prec. lia.
Qed.

(** The standard deviation of a value and itself is [+0]. *)
Lemma std_dev_same (s : bool) (m : positive) (e : Z) :
  Zpos (digits2_pos m) = 24 -> -30 <= e <= 30 ->
  std_dev [S754_finite s m e; S754_finite s m e] 2 = float_zero.
Proof.
  intros Hd He. rewrite std_dev_pair. cbv zeta.
  rewrite (mean_of_same s m e Hd He).
  unfold float_sub. rewrite (SFsub_same _ _ float_format). reflexivity.
Qed.

Lemma std_dev_of_int_twice (a : Z) :
  INT_MIN <= a <= INT_MAX -> std_dev [float_of_int a; float_of_int a] 2 = float_zero.
Proof.
  intros Ha. destruct (Z.eq_dec a 0) as [->|Hne]; [reflexivity|].
  destruct (float_of_int_normal a Hne Ha) as (m & e & -> & Hd & He).
  apply std_dev_same; assumption.
Qed.

(** X4.  The standard deviation [std_dev] returns for two integers below
    2^23 in magnitude is exactly half their distance: [0] when they are
    equal, [|a - b| / 2] otherwise, with no rounding error. *)
Theorem std_dev_two_integers (a b : Z) :
  Z.abs a < 2 ^ 23 -> Z.abs b < 2 ^ 23 ->
  std_dev [float_of_int a; float_of_int b] 2
  = dyadic float_prec float_emax (Z.abs (a - b)) (-1).
Proof.
  intros Ha Hb. destruct (Z.eq_dec a b) as [->|Hne].
  - rewrite std_dev_of_int_twice by (unfold INT_MIN, INT_MAX; lia).
    rewrite Z.sub_diag. reflexivity.
  - apply std_dev_of_pair; assumption.
Qed.

(** 3 and 7: the standard deviation is 2. *)
Lemma std_dev_two_integers_witness :
  std_dev [float_of_int 3; float_of_int 7] 2 = float_of_int 2.
Proof.
  rewrite (std_dev_two_integers 3 7 ltac:(cbn; lia) ltac:(cbn; lia)). reflexivity.
Defined.

(** ** Vectors that share a coordinate *)

(** A dimension in which the two vectors hold the same [int] contributes [0/0]. *)
Lemma n_e_d_term_same_int (a : Z) :
  INT_MIN <= a <= INT_MAX -> n_e_d_term a a = S754_nan.
Proof.
  intros Ha. unfold n_e_d_term. cbv zeta.
  rewrite (std_dev_of_int_twice a Ha), Z.sub_diag. reflexivity.
Qed.

Lemma n_e_d_step_nan (d : spec_float) (a : Z) :
  INT_MIN <= a <= INT_MAX -> n_e_d_step d (a, a) = S754_nan.
Proof.
  intros Ha. unfold n_e_d_step. cbn [fst snd]. rewrite (n_e_d_term_same_int a Ha).
  unfold double_add. destruct (double_of_float d); reflexivity.
Qed.

(** X5.  Whenever the two vectors hold the same [int] at one of the first
    [len] positions, [n_e_d] returns a NaN, whatever the other entries are:
    the term of that position is [0/0] and no later sum removes a NaN. *)
Theorem n_e_d_shared_coordinate (vec1 vec2 : list Z) (len : Z) (i : nat) (a : Z) :
  vec1 !! i = Some a -> vec2 !! i = Some a -> Z.of_nat i < len ->
  INT_MIN <= a <= INT_MAX ->
  n_e_d vec1 vec2 len = S754_nan.
Proof.
  intros H1 H2 Hi Ha. unfold n_e_d.
  assert (Hz : take (Z.to_nat len) (zip vec1 vec2) !! i = Some (a, a)).
  { rewrite lookup_take_lt by lia. rewrite lookup_zip_with, H1. cbn. rewrite H2. reflexivity. }
  apply list_elem_of_split_length in Hz as (l1 & l2 & -> & _).
  rewrite fold_left_app. cbn [fold_left].
  rewrite n_e_d_step_nan by assumption. apply n_e_d_nan_absorbs.
Qed.

(** The vectors agree in their second entry only. *)
Lemma n_e_d_shared_coordinate_witness :
  n_e_d [3; 7; 1] [4; 7; 2] 3 = S754_nan.
Proof.
  apply (n_e_d_shared_coordinate [3; 7; 1] [4; 7; 2] 3 1 7);
    try reflexivity; unfold INT_MIN, INT_MAX; lia.
Defined.

(** ** [kmeans]: its assignment loops and its initialisation *)

Lemma float_of_double_bounded (x : spec_float) : float_bounded (float_of_double x).
Proof.
  destruct x as [| | |s m e]; cbn [float_of_double float_bounded]; try exact I.
  destruct (binary_round float_prec float_emax s m e) as [| | |s' m' e'] eqn:E;
    try exact I.
  apply (binary_round_bounded _ _ float_format) in E. exact E.
Qed.

Lemma n_e_d_bounded (vec1 vec2 : list Z) (len : Z) : float_bounded (n_e_d vec1 vec2 len).
Proof.
  unfold n_e_d. generalize (take (Z.to_nat len) (zip vec1 vec2)) as l.
  induction l as [|ab l _] using rev_ind; [exact I|].
  rewrite fold_left_app. cbn [fold_left]. apply float_of_double_bounded.
Qed.

(** No [float] converts to [INT_MAX]: a value of 31 bits is no [float]. *)
Lemma int_of_float_below_max (P : platform) (x : spec_float) :
  float_to_int_invalid P < INT_MAX -> float_bounded x -> int_of_float P x < INT_MAX.
Proof.
  intros HP Hx. destruct x as [s| | |s m e]; cbn [int_of_float float_bounded] in *;
    try assumption; [unfold INT_MAX; lia|].
  destruct (_ && _) eqn:E; [|assumption].
  apply andb_true_iff in E as [_ E%Z.leb_le].
  assert (Hv : Z.shiftl (Zpos m) e <> INT_MAX).
  { unfold INT_MAX. destruct e as [|p|p].
    - rewrite Z.shiftl_0_r. lia.
    - rewrite Z.shiftl_mul_pow2 by lia.
      replace (Zpos p) with (Z.succ (Zpos p - 1)) by lia.
      rewrite Z.pow_succ_r by lia. set (X := 2 ^ (Zpos p - 1)).
      replace (Zpos m * (2 * X)) with (2 * (Zpos m * X)) by ring. lia.
    - change (Z.shiftl (Zpos m) (Zneg p)) with (Z.shiftr (Zpos m) (Zpos p)).
      rewrite Z.shiftr_div_pow2 by lia.
      assert (0 < 2 ^ Zpos p) by (apply Z.pow_pos_nonneg; lia).
      assert (Zpos m / 2 ^ Zpos p <= Zpos m); [|lia].
      apply Z.div_le_upper_bound; [lia|]. nia. }
  destruct s; cbn [cond_Zopp] in *; [|lia].
  assert (0 <= Z.shiftl (Zpos m) e) by (apply Z.shiftl_nonneg; lia).
  unfold INT_MAX. lia.
Qed.

Lemma assign_fold_min_dist (P : platform) (vec_len : Z) (v : list Z)
    (l : list (nat * list Z)) :
  forall st : assign_state,
    min_dist (fold_left (assign_step P vec_len v) l st) = min_dist st.
Proof.
  induction l as [|jc l IH]; intros st; [reflexivity|].
  cbn [fold_left]. rewrite IH. apply assign_step_min_dist.
Qed.

(** With [min_dist] left at [INT_MAX], the pass over the centroids ends on
    the last one. *)
Lemma assign_fold_last (P : platform) (vec_len : Z) (v : list Z)
    (mean_vecs : list (list Z)) (st : assign_state) :
  float_to_int_invalid P < INT_MAX -> mean_vecs <> [] -> min_dist st = INT_MAX ->
  min_centroid (fold_left (assign_step P vec_len v) (imap (fun j c => (j, c)) mean_vecs) st)
  = Z.of_nat (length mean_vecs) - 1.
Proof.
  intros HP Hne Hst.
  destruct mean_vecs as [|c l _] using rev_ind; [congruence|].
  rewrite imap_app, fold_left_app. cbn [imap fold_left].
  rewrite assign_step_takes; cbn [fst snd].
  - rewrite length_app. cbn [length]. lia.
  - rewrite assign_fold_min_dist, Hst.
    apply int_of_float_below_max; [exact HP|apply n_e_d_bounded].
Qed.

(** With valid rows behind the cells, the pass over the centroids is the
    fold of the loop body over the rows. *)
Lemma centroid_row_valid (rows : list (list Z)) (vec_len : Z) (j : nat) (c : list Z) :
  rows !! j = Some c -> centroid_row (Some <$> rows) vec_len j = Done c.
Proof.
  intros H. unfold centroid_row, load_pointer.
  rewrite list_lookup_fmap, H. cbn [fmap option_fmap option_map bind].
  destruct (1 <=? vec_len); reflexivity.
Qed.

Lemma assign_pass_valid (P : platform) (vec_len : Z) (v : list Z)
    (rows done : list (list Z)) :
  forall st : assign_state,
    for_each (fun j st =>
                c <- centroid_row (Some <$> (done ++ rows)) vec_len j ;;
                Done (assign_step P vec_len v st (j, c)))
             (seq (length done) (length rows)) st
    = Done (fold_left (assign_step P vec_len v)
                      (imap (fun j c => (length done + j, c)%nat) rows) st).
Proof.
  revert done. induction rows as [|c rows IH]; intros done st; [reflexivity|].
  cbn [length seq for_each imap fold_left].
  rewrite (centroid_row_valid _ _ _ c)
    by (rewrite lookup_app_r, Nat.sub_diag by lia; reflexivity).
  cbn [bind]. rewrite Nat.add_0_r.
  specialize (IH (done ++ [c])). rewrite length_app in IH. cbn [length] in IH.
  rewrite <- app_assoc in IH. cbn [app] in IH.
  rewrite Nat.add_1_r in IH. rewrite IH.
  f_equal. f_equal. apply imap_ext. intros j x _. cbn. f_equal. lia.
Qed.

Lemma assign_vector_last (P : platform) (vecs : list (list Z)) (vec_len num_clusters : Z)
    (rows : list (list Z)) (i : nat) (map : list Z) (st : assign_state) :
  float_to_int_invalid P < INT_MAX ->
  length rows = Z.to_nat num_clusters -> 1 <= num_clusters ->
  min_dist st = INT_MAX ->
  exists st', assign_vector P vecs vec_len num_clusters (Some <$> rows) i (map, st)
              = Done (<[i := num_clusters - 1]> map, st')
              /\ min_dist st' = INT_MAX.
Proof.
  intros HP Hk Hk1 Hst. unfold assign_vector. cbn [fst snd].
  rewrite <- Hk.
  rewrite (assign_pass_valid P vec_len (vecs !!! i) rows [] st). cbn [length Nat.add bind].
  eexists. split.
  - f_equal. f_equal. f_equal.
    rewrite (assign_fold_last P vec_len (vecs !!! i) rows st HP) by
      (assumption || (intros ->; cbn in Hk; lia)).
    lia.
  - rewrite assign_fold_min_dist. exact Hst.
Qed.

Lemma assign_vectors_last (P : platform) (vecs : list (list Z)) (vec_len num_clusters : Z)
    (rows : list (list Z)) :
  float_to_int_invalid P < INT_MAX ->
  length rows = Z.to_nat num_clusters -> 1 <= num_clusters ->
  forall (n a : nat) (map : list Z) (st : assign_state),
    min_dist st = INT_MAX -> (a + n <= length map)%nat ->
    exists st',
      for_each (assign_vector P vecs vec_len num_clusters (Some <$> rows)) (seq a n) (map, st)
      = Done (take a map ++ replicate n (num_clusters - 1) ++ drop (a + n) map, st')
      /\ min_dist st' = INT_MAX.
Proof.
  intros HP Hk Hk1. induction n as [|n IH]; intros a map st Hst Hlen.
  - cbn [seq for_each replicate app]. exists st. rewrite Nat.add_0_r, take_drop.
    split; [reflexivity|exact Hst].
  - cbn [seq for_each].
    destruct (assign_vector_last P vecs vec_len num_clusters rows a map st HP Hk Hk1 Hst)
      as (st1 & -> & Hst1).
    cbn [bind].
    destruct (IH (S a) (<[a := num_clusters - 1]> map) st1 Hst1) as (st2 & -> & Hst2).
    { rewrite length_insert. lia. }
    exists st2. split; [|exact Hst2]. f_equal. f_equal.
    rewrite (take_S_r _ _ (num_clusters - 1))
      by (apply list_lookup_insert_eq; lia).
    rewrite take_insert_ge by lia. rewrite drop_insert_lt by lia.
    rewrite <- app_assoc. cbn [app replicate].
    replace (S a + n)%nat with (a + S n)%nat by lia. reflexivity.
Qed.

(** X6.  The assignment loops of [kmeans], taken by themselves: entered
    with [min_dist] at [INT_MAX] and with a row behind every cell of
    [mean_vecs] (a state [kmeans] as written never reaches, see X7), on a
    platform whose conversion of a NaN or of an out-of-range [float] to
    [int] yields a value below [INT_MAX] (x86-64 yields [INT_MIN]), they
    store the last cluster in every entry of [map], whatever the vectors
    and the rows: [min_dist] is never lowered and no distance converts to
    [INT_MAX], so every centroid replaces the choice made before it. *)
Theorem assignment_takes_last_centroid (P : platform) (vecs rows : list (list Z))
    (num_vecs vec_len num_clusters : Z) (map : list Z) (st : assign_state) :
  float_to_int_invalid P < INT_MAX ->
  1 <= num_clusters -> length rows = Z.to_nat num_clusters ->
  length map = Z.to_nat num_vecs -> min_dist st = INT_MAX ->
  exists st' : assign_state,
    assign_vectors P vecs num_vecs vec_len num_clusters (Some <$> rows) (map, st)
    = Done (replicate (Z.to_nat num_vecs) (num_clusters - 1), st').
Proof.
  intros HP Hk1 Hk Hmap Hst. unfold assign_vectors.
  destruct (assign_vectors_last P vecs vec_len num_clusters rows HP Hk Hk1
              (Z.to_nat num_vecs) 0 map st Hst ltac:(lia)) as (st' & E & _).
  exists st'. rewrite E. f_equal. f_equal.
  rewrite take_0, drop_ge by (cbn; lia). cbn [app]. apply app_nil_r.
Qed.

(** Three vectors and two rows, on x86-64. *)
Lemma assignment_takes_last_centroid_witness :
  exists st' : assign_state,
    assign_vectors linux_x86_64 [[0; 0]; [10; 10]; [1; 2]] 3 2 2
      [Some [0; 0]; Some [10; 10]]
      ([7; 7; 7], {| dist := 7; min_dist := INT_MAX; min_centroid := 7 |})
    = Done ([1; 1; 1], st').
Proof.
  apply (assignment_takes_last_centroid linux_x86_64 [[0; 0]; [10; 10]; [1; 2]]
           [[0; 0]; [10; 10]] 3 2 2 [7; 7; 7]
           {| dist := 7; min_dist := INT_MAX; min_centroid := 7 |});
    try reflexivity; cbn; unfold INT_MIN, INT_MAX; lia.
Defined.

(** The first cell of the block as [malloc] returns it: indeterminate when
    the block has room for a pointer, not there otherwise. *)
Lemma malloc_mean_vecs_first (num_clusters vec_len : Z) :
  0 <= num_clusters * vec_len <= INT_MAX ->
  load_pointer (malloc_mean_vecs num_clusters vec_len) 0
  = if SIZEOF_POINTER <=? num_clusters * vec_len * SIZEOF_INT
    then Done None else Fault (LoadOutsideBlock 0).
Proof.
  intros H. unfold load_pointer, malloc_mean_vecs, SIZEOF_POINTER, SIZEOF_INT.
  rewrite wrap_int_id by (unfold INT_MIN, INT_MAX in *; lia).
  destruct (Z.leb_spec 8 (num_clusters * vec_len * 4)) as [Hc|Hc].
  - assert (Hn : 1 <= num_clusters * vec_len * 4 / 8)
      by (apply Z.div_le_lower_bound; lia).
    destruct (Z.to_nat (num_clusters * vec_len * 4 / 8)) as [|c] eqn:E; [lia|].
    reflexivity.
  - rewrite Z.div_small by lia. reflexivity.
Qed.

(** X7.  Asked for at least one cluster of vectors of at least one
    dimension, [kmeans] does not get past its initialisation loop: the first
    store [mean_vecs[0][0] = vecs[0][0]] goes through a pointer loaded from
    the block [malloc] has just returned, which holds no pointer (and, for
    one cluster of one dimension, has no room for one).  Nothing is
    assigned and nothing returned. *)
Theorem kmeans_outcome (P : platform) (uninit : Z) (vecs : list (list Z))
    (num_vecs vec_len num_clusters : Z) :
  1 <= num_clusters <= num_vecs -> 1 <= vec_len -> num_clusters * vec_len <= INT_MAX ->
  kmeans P uninit vecs num_vecs vec_len num_clusters
  = Fault (if SIZEOF_POINTER <=? num_clusters * vec_len * SIZEOF_INT
           then UninitialisedPointer 0 else LoadOutsideBlock 0).
Proof.
  intros Hk Hlen Hsize. unfold kmeans.
  destruct (Z.ltb_spec num_vecs num_clusters) as [?|_]; [lia|].
  unfold init_centroids.
  destruct (Z.to_nat num_clusters) as [|k] eqn:Ek; [lia|].
  destruct (Z.to_nat vec_len) as [|l] eqn:El; [lia|].
  cbn [seq for_each]. unfold copy_entry at 1.
  rewrite malloc_mean_vecs_first by (split; [nia|lia]).
  destruct (SIZEOF_POINTER <=? num_clusters * vec_len * SIZEOF_INT); reflexivity.
Qed.

(** Three vectors of two dimensions, two clusters. *)
Lemma kmeans_outcome_witness :
  kmeans linux_x86_64 0 [[0; 0]; [10; 10]; [1; 2]] 3 2 2 = Fault (UninitialisedPointer 0).
Proof.
  apply (kmeans_outcome linux_x86_64 0 [[0; 0]; [10; 10]; [1; 2]] 3 2 2);
    cbn; unfold INT_MAX; lia.
Defined.

(** ** The mean vector *)

Lemma mean_vec_Done (vecs : list (list Z)) (num_vecs vec_len : Z) :
  num_vecs <> 0 ->
  mean_vec vecs num_vecs vec_len
  = Done ((fun i => Z.quot (column_sum (take (Z.to_nat num_vecs) vecs) i) num_vecs)
            <$> seq 0 (Z.to_nat vec_len)).
Proof.
  intros Hn. unfold mean_vec. generalize (seq 0 (Z.to_nat vec_len)) as cols.
  induction cols as [|i cols IH]; [reflexivity|].
  cbn [fold_right fmap list_fmap]. rewrite IH.
  destruct (num_vecs =? 0) eqn:E; [lia|]. reflexivity.
Qed.

Lemma quot_between (s n lo hi : Z) :
  0 < n -> n * lo <= s <= n * hi -> lo <= Z.quot s n <= hi.
Proof.
  intros Hn Hs. destruct (Z.le_gt_cases 0 s) as [H0|H0].
  - rewrite Z.quot_div_nonneg by lia.
    pose proof (Z.div_mod s n ltac:(lia)). pose proof (Z.mod_pos_bound s n Hn). nia.
  - replace s with (- (- s)) at 1 2 by lia.
    rewrite Z.quot_opp_l, Z.quot_div_nonneg by lia.
    pose proof (Z.div_mod (- s) n ltac:(lia)). pose proof (Z.mod_pos_bound (- s) n Hn).
    nia.
Qed.

Lemma wrap_int_add_l (a b : Z) : wrap_int (wrap_int a + b) = wrap_int (a + b).
Proof.
  unfold wrap_int. f_equal.
  replace ((a + 2 ^ 31) mod 2 ^ 32 - 2 ^ 31 + b + 2 ^ 31)
    with ((a + 2 ^ 31) mod 2 ^ 32 + b) by lia.
  rewrite Zplus_mod_idemp_l. f_equal. lia.
Qed.

(** The sum [mean_vec] accumulates is the exact sum of the column, wrapped
    once. *)
Lemma column_sum_wraps (i : nat) (l : list (list Z)) :
  forall acc : Z,
    fold_left (fun sum (v : list Z) => wrap_int (sum + v !!! i)) l (wrap_int acc)
    = wrap_int (acc + total ((fun v : list Z => v !!! i) <$> l)).
Proof.
  induction l as [|v l IH]; intros acc; cbn [fold_left fmap list_fmap].
  - unfold total. cbn [foldr]. f_equal. lia.
  - rewrite wrap_int_add_l, IH. unfold total. cbn [foldr]. f_equal. lia.
Qed.

Lemma total_between (lo hi : Z) (l : list Z) :
  Forall (fun c => lo <= c <= hi) l ->
  Z.of_nat (length l) * lo <= total l <= Z.of_nat (length l) * hi.
Proof.
  unfold total. induction 1 as [|c l Hc _ IH]; cbn [foldr length]; lia.
Qed.

(** X8.  For at least one vector, each component of the vector [mean_vec]
    computes lies between the least and the greatest value the vectors hold
    in that column, as long as the exact sum of the column is an [int]
    (sums on the way may wrap). *)
Theorem mean_vec_between (vecs : list (list Z)) (num_vecs vec_len : Z) (m : list Z)
    (i : nat) (lo hi : Z) :
  mean_vec vecs num_vecs vec_len = Done m ->
  1 <= num_vecs <= Z.of_nat (length vecs) -> Z.of_nat i < vec_len ->
  Forall (fun v => exists c, v !! i = Some c /\ lo <= c <= hi) (take (Z.to_nat num_vecs) vecs) ->
  INT_MIN <= total ((fun v : list Z => v !!! i) <$> take (Z.to_nat num_vecs) vecs)
          <= INT_MAX ->
  exists x, m !! i = Some x /\ lo <= x <= hi.
Proof.
  intros H Hn Hi Hv Hsum.
  rewrite mean_vec_Done in H by lia. injection H as <-.
  rewrite list_lookup_fmap, lookup_seq_lt by lia. cbn [fmap option_fmap option_map Nat.add].
  eexists. split; [reflexivity|].
  apply quot_between; [lia|].
  pose proof (column_sum_wraps i (take (Z.to_nat num_vecs) vecs) 0) as Hcs.
  change (wrap_int 0) with 0 in Hcs. rewrite Z.add_0_l, wrap_int_id in Hcs by exact Hsum.
  unfold column_sum. rewrite Hcs.
  assert (Hl : Z.of_nat (length ((fun v : list Z => v !!! i)
                                   <$> take (Z.to_nat num_vecs) vecs)) = num_vecs)
    by (rewrite length_fmap, length_take; lia).
  pose proof (total_between lo hi ((fun v : list Z => v !!! i)
                                     <$> take (Z.to_nat num_vecs) vecs)) as Hb.
  rewrite Hl in Hb. apply Hb.
  apply Forall_fmap. eapply Forall_impl; [exact Hv|]. cbn. intros v (c & Hc & Hc2).
  rewrite (list_lookup_total_correct _ _ _ Hc). exact Hc2.
Qed.

(** The column 2^30, -2^30, 2^30: three times its greatest value is no
    [int], its sum is. *)
Lemma mean_vec_between_witness :
  mean_vec [[1073741824; 10]; [-1073741824; 20]; [1073741824; 30]] 3 2
  = Done [357913941; 20]
  /\ exists x, [357913941; 20] !! 0%nat = Some x /\ -1073741824 <= x <= 1073741824.
Proof.
  assert (E : mean_vec [[1073741824; 10]; [-1073741824; 20]; [1073741824; 30]] 3 2
              = Done [357913941; 20]) by reflexivity.
  split; [exact E|].
  apply (mean_vec_between [[1073741824; 10]; [-1073741824; 20]; [1073741824; 30]] 3 2
           [357913941; 20] 0 (-1073741824) 1073741824).
  - exact E.
  - cbn. lia.
  - lia.
  - repeat constructor; eexists; (split; [reflexivity|lia]).
  - vm_compute. split; discriminate.
Defined.

(** ** The counters after a capture *)

Ltac step_cases H :=
  unfold got_packet, got_packet_tcp, got_packet_other in H;
  run_outcome; invert_incr; subst;
  cbn [src_ip_addrs dst_ip_addrs src_ports dst_ports protocols packet_sizes flags
       set_src_ip_addrs set_dst_ip_addrs set_src_ports set_dst_ports set_protocols
       set_packet_sizes set_flags ip_accepted sized tcp_rejected].

Ltac bumped_at :=
  first [ exists 0; split; [unfold SNAP_LEN; lia | reflexivity]
        | eexists; split; [|reflexivity]; assumption ].

Lemma got_packet_src (P : platform) (hs hs' : HistogramSet) (packet : list byte) (r : report) :
  got_packet P hs packet = Done (hs', r) ->
  exists k, 0 <= k < 256 /\
    src_ip_addrs hs' = if ip_accepted r then bump k (src_ip_addrs hs) else src_ip_addrs hs.
Proof. intros H. step_cases H; bumped_at. Qed.

Lemma got_packet_dst (P : platform) (hs hs' : HistogramSet) (packet : list byte) (r : report) :
  got_packet P hs packet = Done (hs', r) ->
  exists k, 0 <= k < 256 /\
    dst_ip_addrs hs' = if ip_accepted r then bump k (dst_ip_addrs hs) else dst_ip_addrs hs.
Proof. intros H. step_cases H; bumped_at. Qed.

Lemma got_packet_sizes (P : platform) (hs hs' : HistogramSet) (packet : list byte) (r : report) :
  got_packet P hs packet = Done (hs', r) ->
  exists k, 0 <= k < SNAP_LEN /\
    packet_sizes hs' = if sized r then bump k (packet_sizes hs) else packet_sizes hs.
Proof. intros H. step_cases H; bumped_at. Qed.

Lemma got_packet_src_ports (P : platform) (hs hs' : HistogramSet) (packet : list byte)
    (r : report) :
  got_packet P hs packet = Done (hs', r) ->
  exists (b : bool) (k : Z), 0 <= k < 1024 /\
    src_ports hs' = if b then bump k (src_ports hs) else src_ports hs.
Proof.
  intros H. step_cases H;
    first [ exists false, 0; split; [lia | reflexivity]
          | exists true; eexists; split; [|reflexivity]; assumption ].
Qed.

Lemma got_packet_dst_ports (P : platform) (hs hs' : HistogramSet) (packet : list byte)
    (r : report) :
  got_packet P hs packet = Done (hs', r) ->
  exists (b : bool) (k : Z), 0 <= k < 1024 /\
    dst_ports hs' = if b then bump k (dst_ports hs) else dst_ports hs.
Proof.
  intros H. step_cases H;
    first [ exists false, 0; split; [lia | reflexivity]
          | exists true; eexists; split; [|reflexivity]; assumption ].
Qed.

(** A frame counted as TCP is counted in [flags] unless its data offset is
    rejected; no other frame touches [flags] or [protocols[0]]. *)
Lemma got_packet_flags (P : platform) (hs hs' : HistogramSet) (packet : list byte)
    (r : report) :
  got_packet P hs packet = Done (hs', r) ->
  exists k, 0 <= k < 256 /\
    (protocols hs' = bump 0 (protocols hs) /\
     flags hs' = (if tcp_rejected r then flags hs else bump k (flags hs))
     \/ tcp_rejected r = false /\ flags hs' = flags hs /\
        protocols hs' !! 0%nat = protocols hs !! 0%nat).
Proof.
  intros H. step_cases H;
    first [ exists 0; split; [lia|]; left; split; reflexivity
          | eexists; split; [|left; split; reflexivity]; assumption
          | exists 0; split; [lia|]; right; split; [reflexivity|split; [reflexivity|]];
            first [ reflexivity | unfold bump; apply list_lookup_alter_ne; discriminate ] ].
Qed.

Lemma got_packet_protocols_step (P : platform) (hs hs' : HistogramSet) (packet : list byte)
    (r : report) :
  got_packet P hs packet = Done (hs', r) ->
  exists (b : bool) (k : Z), 0 <= k < 4 /\
    protocols hs' = if b then bump k (protocols hs) else protocols hs.
Proof.
  intros H. rewrite (got_packet_protocols _ _ _ _ _ H).
  destruct (protocol_slot P packet) as [k|] eqn:E.
  - exists true, k. split; [eapply protocol_slot_range; exact E|reflexivity].
  - exists false, 0. split; [lia|reflexivity].
Qed.

Lemma total_app (l k : list Z) : total (l ++ k) = total l + total k.
Proof. unfold total. induction l as [|c l IH]; cbn; lia. Qed.

Lemma total_bump_in (k : Z) (l : list Z) :
  0 <= k < Z.of_nat (length l) ->
  Forall (fun c => INT_MIN <= c < INT_MAX) l ->
  total (bump k l) = total l + 1.
Proof.
  unfold bump, total. intros Hk. assert (Hn : (Z.to_nat k < length l)%nat) by lia.
  clear Hk. revert Hn. generalize (Z.to_nat k) as i.
  induction l as [|c l IH]; intros i Hi Hl; cbn [length] in Hi; [lia|].
  apply Forall_cons in Hl as [Hc Hl]. destruct i as [|i]; cbn.
  - rewrite wrap_int_id; unfold INT_MIN, INT_MAX in *; lia.
  - change (alter (fun c => wrap_int (c + 1)) i l)
      with (alter (fun c => wrap_int (c + 1)) i l).
    rewrite (IH i) by (assumption || lia). lia.
Qed.

Lemma lookup_bump_0 (l : list Z) (c : Z) :
  l !! 0%nat = Some c -> INT_MIN <= c < INT_MAX -> bump 0 l !! 0%nat = Some (c + 1).
Proof.
  intros Hl Hc. unfold bump. destruct l as [|c' l]; [discriminate|].
  injection Hl as ->. change (Z.to_nat 0) with 0%nat. cbn [alter list_alter lookup list_lookup].
  rewrite wrap_int_id by (unfold INT_MIN, INT_MAX in *; lia).
  reflexivity.
Qed.

(** An array that one frame left alone or incremented at one place. *)
Lemma range_step (b : bool) (k i : Z) (l l' : list Z) :
  l' = (if b then bump k l else l) -> 0 <= i < INT_MAX ->
  Forall (fun c => 0 <= c <= i) l ->
  length l' = length l /\ Forall (fun c => 0 <= c <= i + 1) l'.
Proof.
  intros -> Hi Hl. destruct b.
  - split; [apply bump_length|].
    eapply Forall_bump; [| |exact Hl]; cbn; intros c Hc; [lia|].
    rewrite wrap_int_id; unfold INT_MIN, INT_MAX in *; lia.
  - split; [reflexivity|]. eapply Forall_impl; [exact Hl|]. cbn. intros; lia.
Qed.

Lemma got_packet_flags_step (P : platform) (hs hs' : HistogramSet) (packet : list byte)
    (r : report) :
  got_packet P hs packet = Done (hs', r) ->
  exists (b : bool) (k : Z), 0 <= k < 256 /\
    flags hs' = if b then bump k (flags hs) else flags hs.
Proof.
  intros H. destruct (got_packet_flags _ _ _ _ _ H) as (k & Hk & [[_ E]|(_ & E & _)]).
  - exists (negb (tcp_rejected r)), k. split; [exact Hk|].
    rewrite E. destruct (tcp_rejected r); reflexivity.
  - exists false, 0. split; [lia|exact E].
Qed.

Ltac split_counters :=
  unfold shaped, counters in *;
  repeat match goal with
         | H : _ /\ _ |- _ => destruct H
         | H : Forall _ (_ ++ _) |- _ => apply Forall_app in H
         end.

(** One frame keeps the sizes of the arrays and raises no counter by more
    than one. *)
Lemma got_packet_range (P : platform) (hs hs' : HistogramSet) (packet : list byte)
    (r : report) (i : Z) :
  got_packet P hs packet = Done (hs', r) ->
  shaped hs -> 0 <= i < INT_MAX ->
  Forall (fun c => 0 <= c <= i) (counters hs) ->
  shaped hs' /\ Forall (fun c => 0 <= c <= i + 1) (counters hs').
Proof.
  intros H Hs Hi Hc.
  destruct (got_packet_src _ _ _ _ _ H) as (k1 & _ & E1).
  destruct (got_packet_dst _ _ _ _ _ H) as (k2 & _ & E2).
  destruct (got_packet_src_ports _ _ _ _ _ H) as (b3 & k3 & _ & E3).
  destruct (got_packet_dst_ports _ _ _ _ _ H) as (b4 & k4 & _ & E4).
  destruct (got_packet_protocols_step _ _ _ _ _ H) as (b5 & k5 & _ & E5).
  destruct (got_packet_sizes _ _ _ _ _ H) as (k6 & _ & E6).
  destruct (got_packet_flags_step _ _ _ _ _ H) as (b7 & k7 & _ & E7).
  split_counters.
  destruct (range_step _ _ i _ _ E1) as [L1 F1]; [lia|assumption|].
  destruct (range_step _ _ i _ _ E2) as [L2 F2]; [lia|assumption|].
  destruct (range_step _ _ i _ _ E3) as [L3 F3]; [lia|assumption|].
  destruct (range_step _ _ i _ _ E4) as [L4 F4]; [lia|assumption|].
  destruct (range_step _ _ i _ _ E5) as [L5 F5]; [lia|assumption|].
  destruct (range_step _ _ i _ _ E6) as [L6 F6]; [lia|assumption|].
  destruct (range_step _ _ i _ _ E7) as [L7 F7]; [lia|assumption|].
  split.
  - repeat split; congruence.
  - repeat (apply Forall_app; split); assumption.
Qed.

Lemma pcap_loop_range (P : platform) (frames : list (list byte)) :
  forall (hs hs' : HistogramSet) (rs : list report) (i : Z),
    pcap_loop P hs frames = Done (hs', rs) ->
    shaped hs -> 0 <= i -> i + Z.of_nat (length frames) <= INT_MAX ->
    Forall (fun c => 0 <= c <= i) (counters hs) ->
    shaped hs' /\ Forall (fun c => 0 <= c <= i + Z.of_nat (length frames)) (counters hs').
Proof.
  induction frames as [|packet frames IH]; intros hs hs' rs i H Hs Hi Hn Hc.
  - cbn in H. injection H as <- _. split; [exact Hs|].
    eapply Forall_impl; [exact Hc|]. cbn. intros; lia.
  - cbn [pcap_loop] in H. cbn [length] in *.
    destruct (got_packet P hs packet) as [[hs1 r]|] eqn:E1;
      cbn [bind fst snd] in H; [|discriminate].
    destruct (pcap_loop P hs1 frames) as [[hs2 rs2]|] eqn:E2;
      cbn [bind fst snd] in H; [|discriminate].
    injection H as <- _.
    destruct (got_packet_range _ _ _ _ _ i E1 Hs ltac:(lia) Hc) as [Hs1 Hc1].
    destruct (IH _ _ _ (i + 1) E2 Hs1 ltac:(lia) ltac:(lia) Hc1) as [Hs2 Hc2].
    split; [exact Hs2|]. eapply Forall_impl; [exact Hc2|]. cbn. intros; lia.
Qed.

Lemma shaped_load : shaped load_histograms.
Proof. repeat split. Qed.

Lemma counters_load : Forall (fun c => 0 <= c <= 0) (counters load_histograms).
Proof.
  unfold counters, load_histograms; cbn [src_ip_addrs dst_ip_addrs src_ports dst_ports
    protocols packet_sizes flags].
  repeat (apply Forall_app; split); apply Forall_replicate; lia.
Qed.

(** X9.  After [load] has set the histograms to zero and the callback has
    run on the frames of a capture without an undefined access, the seven
    arrays have their declared sizes and every counter lies between 0 and
    the number of frames: no counter overflows. *)
Theorem pcap_loop_counters (P : platform) (frames : list (list byte))
    (hs' : HistogramSet) (rs : list report) :
  pcap_loop P load_histograms frames = Done (hs', rs) ->
  Z.of_nat (length frames) <= INT_MAX ->
  shaped hs' /\ Forall (fun c => 0 <= c <= Z.of_nat (length frames)) (counters hs').
Proof.
  intros H Hn.
  apply (pcap_loop_range P frames _ _ _ 0 H shaped_load ltac:(lia) ltac:(lia) counters_load).
Qed.

(** A SYN to port 80 and an ICMP echo request. *)
Lemma pcap_loop_counters_witness :
  match pcap_loop linux_x86_64 load_histograms [frame_tcp_syn_80; frame_icmp_echo] with
  | Done (hs', _) => shaped hs' /\ Forall (fun c => 0 <= c <= 2) (counters hs')
  | Fault _ => False
  end.
Proof.
  destruct (pcap_loop _ _ _) as [[hs' rs]|f] eqn:E.
  - apply (pcap_loop_counters _ _ _ _ E). cbn. unfold INT_MAX. lia.
  - vm_compute in E. discriminate E.
Defined.

Lemma count_cons (f : report -> bool) (r : report) (rs : list report) :
  count_reports f (r :: rs) = (if f r then 1 else 0) + count_reports f rs.
Proof.
  unfold count_reports. rewrite filter_cons. destruct (f r) eqn:E.
  - rewrite decide_True by reflexivity. cbn [length]. lia.
  - rewrite decide_False by discriminate. lia.
Qed.

Lemma sum_step (b : bool) (k i : Z) (l l' : list Z) :
  l' = (if b then bump k l else l) -> 0 <= k < Z.of_nat (length l) -> 0 <= i < INT_MAX ->
  Forall (fun c => 0 <= c <= i) l ->
  total l' = total l + (if b then 1 else 0).
Proof.
  intros -> Hk Hi Hl. destruct b; [|lia].
  apply total_bump_in; [exact Hk|].
  eapply Forall_impl; [exact Hl|]. cbn. unfold INT_MIN. intros; lia.
Qed.

Lemma pcap_loop_sums (P : platform) (frames : list (list byte)) :
  forall (hs hs' : HistogramSet) (rs : list report) (i : Z),
    pcap_loop P hs frames = Done (hs', rs) ->
    shaped hs -> 0 <= i -> i + Z.of_nat (length frames) <= INT_MAX ->
    Forall (fun c => 0 <= c <= i) (counters hs) ->
    length rs = length frames /\
    total (src_ip_addrs hs') = total (src_ip_addrs hs) + count_reports ip_accepted rs /\
    total (dst_ip_addrs hs') = total (dst_ip_addrs hs) + count_reports ip_accepted rs /\
    total (packet_sizes hs') = total (packet_sizes hs) + count_reports sized rs /\
    tcp_frames hs' - total (flags hs')
    = tcp_frames hs - total (flags hs) + count_reports tcp_rejected rs.
Proof.
  induction frames as [|packet frames IH]; intros hs hs' rs i H Hs Hi Hn Hc.
  - cbn in H. injection H as <- <-. unfold count_reports. cbn. repeat split; lia.
  - cbn [pcap_loop] in H. cbn [length] in *.
    destruct (got_packet P hs packet) as [[hs1 r]|] eqn:E1;
      cbn [bind fst snd] in H; [|discriminate].
    destruct (pcap_loop P hs1 frames) as [[hs2 rs2]|] eqn:E2;
      cbn [bind fst snd] in H; [|discriminate].
    injection H as <- <-.
    destruct (got_packet_range _ _ _ _ _ i E1 Hs ltac:(lia) Hc) as [Hs1 Hc1].
    destruct (IH _ _ _ (i + 1) E2 Hs1 ltac:(lia) ltac:(lia) Hc1)
      as (Hlen & Hsrc & Hdst & Hps & Hfl).
    rewrite !count_cons, Hsrc, Hdst, Hps, Hfl. cbn [length]. rewrite Hlen.
    destruct (got_packet_src _ _ _ _ _ E1) as (k1 & Hk1 & G1).
    destruct (got_packet_dst _ _ _ _ _ E1) as (k2 & Hk2 & G2).
    destruct (got_packet_sizes _ _ _ _ _ E1) as (k6 & Hk6 & G6).
    destruct (got_packet_flags _ _ _ _ _ E1) as (k7 & Hk7 & G7).
    clear Hs1 Hc1. split_counters.
    rewrite (sum_step _ _ i _ _ G1), (sum_step _ _ i _ _ G2), (sum_step _ _ i _ _ G6)
      by (assumption || unfold SNAP_LEN in *; lia).
    assert (Hflags : tcp_frames hs1 - total (flags hs1)
                     = tcp_frames hs - total (flags hs)
                       + (if tcp_rejected r then 1 else 0)).
    { unfold tcp_frames. destruct G7 as [[Gp Gf]|(Gr & Gf & Gp)].
      - destruct (protocols hs) as [|c l] eqn:Epr; [discriminate|].
        match goal with
        | F : Forall _ (c :: l) |- _ => apply Forall_cons in F as [Fc _]
        end.
        rewrite Gp, (lookup_bump_0 (c :: l) c) by (reflexivity || unfold INT_MIN; lia).
        cbn [lookup list_lookup]. unfold default, from_option, id.
        destruct (tcp_rejected r) eqn:Er.
        + rewrite Gf. lia.
        + erewrite (sum_step true k7 i _ _ Gf) by (assumption || lia). lia.
      - rewrite Gr, Gf, Gp. lia. }
    repeat split; lia.
Qed.

(** X10.  After such a capture the histograms add up: one report per frame;
    the source and the destination address counters each sum to the number
    of frames whose IP header length was accepted; [packet_sizes] sums to
    the number of frames processed without a report; and [protocols[0]] is
    the sum of [flags] plus the number of "Invalid TCP header length"
    reports. *)
Theorem pcap_loop_accounting (P : platform) (frames : list (list byte))
    (hs' : HistogramSet) (rs : list report) :
  pcap_loop P load_histograms frames = Done (hs', rs) ->
  Z.of_nat (length frames) <= INT_MAX ->
  length rs = length frames /\
  total (src_ip_addrs hs') = count_reports ip_accepted rs /\
  total (dst_ip_addrs hs') = count_reports ip_accepted rs /\
  total (packet_sizes hs') = count_reports sized rs /\
  tcp_frames hs' = total (flags hs') + count_reports tcp_rejected rs.
Proof.
  intros H Hn.
  destruct (pcap_loop_sums P frames _ _ _ 0 H shaped_load ltac:(lia) ltac:(lia)
              counters_load) as (Hlen & Hsrc & Hdst & Hps & Hfl).
  assert (Hz : forall n, total (replicate n 0) = 0).
  { intros n. unfold total. induction n as [|n IHn]; cbn; lia. }
  unfold load_histograms in *; cbn [src_ip_addrs dst_ip_addrs packet_sizes flags] in *.
  rewrite !Hz in *. change (tcp_frames _) with 0 in Hfl at 2.
  repeat split; lia.
Qed.

(** Three frames: a SYN, a TCP segment with a data offset of 4, an IP
    header length of 3. *)
Lemma pcap_loop_accounting_witness :
  match pcap_loop linux_x86_64 load_histograms
          [frame_tcp_syn_80; frame_tcp_offset_4; frame_ip_hl_3] with
  | Done (hs', rs) =>
      length rs = 3%nat /\
      total (src_ip_addrs hs') = count_reports ip_accepted rs /\
      total (dst_ip_addrs hs') = count_reports ip_accepted rs /\
      total (packet_sizes hs') = count_reports sized rs /\
      tcp_frames hs' = total (flags hs') + count_reports tcp_rejected rs
  | Fault _ => False
  end.
Proof.
  destruct (pcap_loop _ _ _) as [[hs' rs]|f] eqn:E.
  - apply (pcap_loop_accounting _ _ _ _ E). cbn. unfold INT_MAX. lia.
  - vm_compute in E. discriminate E.
Defined.

(** ** What [packet_sizes] counts *)

(** [ntohs] of a field as the host loaded it is the number the two bytes
    carry on the wire, on either byte order. *)
Lemma ntohs_read_u16 (P : platform) (packet : list byte) (off : Z) :
  port_on_wire packet off = (x <- read_u16 P packet off ;; Done (ntohs P x)).
Proof.
  unfold read_u16, port_on_wire, read_u8, ntohs.
  destruct (packet !! Z.to_nat off) as [b0|]; cbn [bind]; [|reflexivity].
  destruct (packet !! Z.to_nat (off + 1)) as [b1|]; cbn [bind]; [|reflexivity].
  pose proof (byte_val_range b0) as H0. pose proof (byte_val_range b1) as H1.
  f_equal. destruct (host_order P).
  - rewrite (Z.lor_comm (byte_val b0)), (lor_shiftl_8 (byte_val b1)) by assumption.
    change 255 with (Z.ones 8). rewrite !Z.land_ones, Z.shiftr_div_pow2 by lia.
    change (2 ^ 8) with 256.
    replace ((256 * byte_val b1 + byte_val b0) mod 256) with (byte_val b0)
      by (apply Z.mod_unique with (q := byte_val b1); lia).
    replace ((256 * byte_val b1 + byte_val b0) / 256) with (byte_val b1)
      by (apply Z.div_unique with (r := byte_val b0); lia).
    rewrite Z.mod_small by lia. rewrite lor_shiftl_8 by assumption. reflexivity.
  - rewrite lor_shiftl_8 by assumption. reflexivity.
Qed.



(** A load within the captured bytes succeeds. *)
Lemma read_u8_captured (packet : list byte) (off : Z) :
  0 <= off < Z.of_nat (length packet) ->
  exists v, read_u8 packet off = Done v /\ 0 <= v < 256.
Proof.
  intros H. pose proof (read_u8_inv packet off ltac:(lia)) as Hi.
  destruct (read_u8 packet off) as [v|f]; [eauto|]. destruct Hi. lia.
Qed.

Lemma read_u16_captured (P : platform) (packet : list byte) (off : Z) :
  0 <= off -> off + 1 < Z.of_nat (length packet) ->
  exists v, read_u16 P packet off = Done v /\ 0 <= v.
Proof.
  intros H0 H. pose proof (read_u16_inv P packet off H0) as Hi. unfold read_u16 in *.
  destruct (read_u8_captured packet off ltac:(lia)) as (b0 & E0 & _).
  destruct (read_u8_captured packet (off + 1) ltac:(lia)) as (b1 & E1 & _).
  rewrite E0, E1 in *. cbn [bind] in *. eexists. split; [reflexivity|exact Hi].
Qed.

Lemma read_u32_captured (P : platform) (packet : list byte) (off : Z) :
  0 <= off -> off + 3 < Z.of_nat (length packet) ->
  exists v, read_u32 P packet off = Done v.
Proof.
  intros H0 H. unfold read_u32.
  destruct (read_u8_captured packet off ltac:(lia)) as (b0 & -> & _).
  destruct (read_u8_captured packet (off + 1) ltac:(lia)) as (b1 & -> & _).
  destruct (read_u8_captured packet (off + 2) ltac:(lia)) as (b2 & -> & _).
  destruct (read_u8_captured packet (off + 3) ltac:(lia)) as (b3 & -> & _).
  cbn [bind]. eauto.
Qed.

Lemma incr_within (id : array_id) (size : Z) (arr : list Z) (i : Z) :
  0 <= i < size -> incr id size arr i = Done (bump i arr).
Proof.
  intros H. unfold incr.
  destruct (Z.leb_spec 0 i); [|lia]. destruct (Z.ltb_spec i size); [|lia]. reflexivity.
Qed.

(** What the TCP part does with [packet_sizes] when every header byte is
    captured. *)
Lemma got_packet_tcp_sizes (P : platform) (hs : HistogramSet) (packet : list byte)
    (size_ip : Z) :
  0 <= size_ip <= 60 -> 88 <= Z.of_nat (length packet) ->
  exists th_offx2 ip_len,
    read_u8 packet (SIZE_ETHERNET + size_ip + off_th_offx2) = Done th_offx2 /\
    port_on_wire packet (SIZE_ETHERNET + off_ip_len) = Done ip_len /\
    let size_tcp := TH_OFF th_offx2 * 4 in
    let size_payload := ip_len - (size_ip + size_tcp) in
    match got_packet_tcp P hs packet size_ip with
    | Done (hs', r) =>
        if size_tcp <? 20
        then r = InvalidTCPHeaderLength size_tcp /\ packet_sizes hs' = packet_sizes hs
        else if size_payload + SIZE_ETHERNET + size_ip <? SNAP_LEN
        then 0 <= size_payload /\ r = NoReport /\
             packet_sizes hs' = bump size_payload (packet_sizes hs)
        else r = PacketOversized (size_payload + SIZE_ETHERNET + size_ip) /\
             packet_sizes hs' = packet_sizes hs
    | Fault f =>
        20 <= size_tcp /\ size_payload < 0 /\
        f = WriteOutOfBounds A_packet_sizes size_payload
    end.
Proof.
  intros Hs Hlen. unfold got_packet_tcp.
  destruct (read_u8_captured packet (SIZE_ETHERNET + size_ip + off_th_offx2) ltac:(offsets))
    as (th_offx2 & E1 & _).
  destruct (read_u16_captured P packet (SIZE_ETHERNET + off_ip_len) ltac:(offsets)
              ltac:(offsets)) as (ip_len & E2 & _).
  exists th_offx2, (ntohs P ip_len). split; [exact E1|].
  split; [rewrite (ntohs_read_u16 P), E2; reflexivity|].
  cbv zeta. rewrite E1. cbn [bind].
  destruct (Z.ltb_spec (TH_OFF th_offx2 * 4) 20) as [Ht|Ht]; [split; reflexivity|].
  destruct (read_u8_captured packet (SIZE_ETHERNET + size_ip + off_th_flags) ltac:(offsets))
    as (th_flags & -> & Hfl).
  cbn [bind]. rewrite incr_within by lia. cbn [bind].
  destruct (read_u16_captured P packet (SIZE_ETHERNET + size_ip + off_th_sport)
              ltac:(offsets) ltac:(offsets)) as (th_sport & -> & Hsp).
  cbn [bind].
  destruct (read_u16_captured P packet (SIZE_ETHERNET + size_ip + off_th_dport)
              ltac:(offsets) ltac:(offsets)) as (th_dport & -> & Hdp).
  destruct (Z.ltb_spec th_sport 1024); [rewrite incr_within by lia|]; cbn [bind];
    (destruct (Z.ltb_spec th_dport 1024); [rewrite incr_within by lia|]; cbn [bind];
     rewrite E2; cbn [bind];
     (destruct (_ <? SNAP_LEN) eqn:Esum; [|split; reflexivity]);
     unfold incr;
     (destruct (Z.leb_spec 0 (ntohs P ip_len - (size_ip + TH_OFF th_offx2 * 4)));
      [destruct (Z.ltb_spec (ntohs P ip_len - (size_ip + TH_OFF th_offx2 * 4)) SNAP_LEN);
       [|apply Z.ltb_lt in Esum; unfold SIZE_ETHERNET in Esum; lia]|]);
     cbn [andb bind]; repeat split; assumption || lia).
Qed.

(** X12.  What [got_packet] does with [packet_sizes] for a TCP frame with
    an accepted IP header length of which at least 88 bytes are captured, so
    that every header is: with
    [size_payload] the total length the IP header carries on the wire
    ([ip_len] is converted with [ntohs], on either byte order) less the two
    header lengths, the frame is counted at [size_payload] when that is not
    negative and [size_payload + SIZE_ETHERNET + size_ip] is below
    [SNAP_LEN]; it is reported as oversized and not counted when the sum
    reaches [SNAP_LEN]; it is reported and not counted when the data offset
    is below 5; and for a negative [size_payload] the increment of
    [packet_sizes[size_payload]] is outside the array, the one way such a
    frame has no defined behaviour. *)
Theorem tcp_payload_counted (P : platform) (hs : HistogramSet) (packet : list byte) :
  88 <= Z.of_nat (length packet) ->
  protocol_slot P packet = Some 0 ->
  exists ip_vhl th_offx2 ip_len,
    read_u8 packet (SIZE_ETHERNET + off_ip_vhl) = Done ip_vhl /\
    read_u8 packet (SIZE_ETHERNET + IP_HL ip_vhl * 4 + off_th_offx2) = Done th_offx2 /\
    port_on_wire packet (SIZE_ETHERNET + off_ip_len) = Done ip_len /\
    let size_ip := IP_HL ip_vhl * 4 in
    let size_tcp := TH_OFF th_offx2 * 4 in
    let size_payload := ip_len - (size_ip + size_tcp) in
    match got_packet P hs packet with
    | Done (hs', r) =>
        if size_tcp <? 20
        then r = InvalidTCPHeaderLength size_tcp /\ packet_sizes hs' = packet_sizes hs
        else if size_payload + SIZE_ETHERNET + size_ip <? SNAP_LEN
        then 0 <= size_payload /\ r = NoReport /\
             packet_sizes hs' = bump size_payload (packet_sizes hs)
        else r = PacketOversized (size_payload + SIZE_ETHERNET + size_ip) /\
             packet_sizes hs' = packet_sizes hs
    | Fault f =>
        20 <= size_tcp /\ size_payload < 0 /\
        f = WriteOutOfBounds A_packet_sizes size_payload
    end.
Proof.
  intros Hlen Hslot. unfold protocol_slot in Hslot. unfold got_packet.
  destruct (read_u8 packet (SIZE_ETHERNET + off_ip_vhl)) as [ip_vhl|] eqn:Evhl;
    [|discriminate Hslot].
  destruct (read_u8 packet (SIZE_ETHERNET + off_ip_p)) as [ip_p|] eqn:Ep;
    [|discriminate Hslot].
  pose proof (IP_HL_range ip_vhl) as Hhl.
  destruct (IP_HL ip_vhl * 4 <? 20) eqn:Ehl; [discriminate Hslot|].
  destruct (ip_p =? IPPROTO_TCP P) eqn:Etcp.
  2:{ repeat match type of Hslot with
             | (if ?c then _ else _) = _ => destruct c
             end; discriminate Hslot. }
  cbn [bind].
  destruct (read_u32_captured P packet (SIZE_ETHERNET + off_ip_src) ltac:(offsets)
              ltac:(offsets)) as (ip_src & ->).
  cbn [bind]. rewrite incr_within by (unfold top_octet; apply land_255_range).
  destruct (read_u32_captured P packet (SIZE_ETHERNET + off_ip_dst) ltac:(offsets)
              ltac:(offsets)) as (ip_dst & ->).
  cbn [bind]. rewrite incr_within by (unfold top_octet; apply land_255_range).
  cbn [bind]. rewrite Etcp, incr_within by lia. cbn [bind].
  assert (Hip : 0 <= IP_HL ip_vhl * 4 <= 60) by lia.
  match goal with
  | |- context [got_packet_tcp P ?h packet _] =>
      destruct (got_packet_tcp_sizes P h packet _ Hip Hlen)
        as (th_offx2 & ip_len & E1 & E2 & Hres)
  end.
  exists ip_vhl, th_offx2, ip_len.
  split; [reflexivity|]. split; [exact E1|]. split; [exact E2|].
  rewrite Ehl. exact Hres.
Qed.

(** The SYN to port 80 with 34 bytes of padding, total length 40: payload
    length 0. *)
Lemma tcp_payload_counted_witness :
  exists ip_vhl th_offx2 ip_len,
    read_u8 (frame_tcp_syn_80 ++ replicate 34 x00) (SIZE_ETHERNET + off_ip_vhl)
    = Done ip_vhl /\
    read_u8 (frame_tcp_syn_80 ++ replicate 34 x00)
            (SIZE_ETHERNET + IP_HL ip_vhl * 4 + off_th_offx2) = Done th_offx2 /\
    port_on_wire (frame_tcp_syn_80 ++ replicate 34 x00) (SIZE_ETHERNET + off_ip_len)
    = Done ip_len /\
    let size_ip := IP_HL ip_vhl * 4 in
    let size_tcp := TH_OFF th_offx2 * 4 in
    let size_payload := ip_len - (size_ip + size_tcp) in
    match got_packet linux_x86_64 load_histograms (frame_tcp_syn_80 ++ replicate 34 x00) with
    | Done (hs', r) =>
        if size_tcp <? 20
        then r = InvalidTCPHeaderLength size_tcp /\
             packet_sizes hs' = packet_sizes load_histograms
        else if size_payload + SIZE_ETHERNET + size_ip <? SNAP_LEN
        then 0 <= size_payload /\ r = NoReport /\
             packet_sizes hs' = bump size_payload (packet_sizes load_histograms)
        else r = PacketOversized (size_payload + SIZE_ETHERNET + size_ip) /\
             packet_sizes hs' = packet_sizes load_histograms
    | Fault f =>
        20 <= size_tcp /\ size_payload < 0 /\
        f = WriteOutOfBounds A_packet_sizes size_payload
    end.
Proof.
  apply (tcp_payload_counted linux_x86_64 load_histograms
           (frame_tcp_syn_80 ++ replicate 34 x00)).
  - vm_compute. discriminate.
  - vm_compute. reflexivity.
Defined.

(** ** How far [got_packet] reads *)

Lemma read_u8_fault (packet : list byte) (off : Z) (f : fault) :
  0 <= off -> read_u8 packet off = Fault f ->
  f = ReadPastCaplen off /\ Z.of_nat (length packet) <= off.
Proof.
  intros Hoff H. pose proof (read_u8_inv packet off Hoff) as Hi.
  rewrite H in Hi. exact Hi.
Qed.

Lemma read_u16_fault (P : platform) (packet : list byte) (off : Z) (f : fault) :
  0 <= off -> read_u16 P packet off = Fault f ->
  exists o, f = ReadPastCaplen o /\ off <= o <= off + 1 /\ Z.of_nat (length packet) <= o.
Proof.
  unfold read_u16. intros Hoff H. run_outcome; subst;
    match goal with
    | E : read_u8 _ ?o = Fault _ |- _ =>
        apply read_u8_fault in E as [-> ?]; [exists o; split; [reflexivity|lia]|lia]
    end.
Qed.

Lemma read_u32_fault (P : platform) (packet : list byte) (off : Z) (f : fault) :
  0 <= off -> read_u32 P packet off = Fault f ->
  exists o, f = ReadPastCaplen o /\ off <= o <= off + 3 /\ Z.of_nat (length packet) <= o.
Proof.
  unfold read_u32. intros Hoff H. run_outcome; subst;
    match goal with
    | E : read_u8 _ ?o = Fault _ |- _ =>
        apply read_u8_fault in E as [-> ?]; [exists o; split; [reflexivity|lia]|lia]
    end.
Qed.

Ltac read_fault :=
  match goal with
  | E : read_u8 _ _ = Fault (ReadPastCaplen _) |- _ =>
      apply read_u8_fault in E as [[= ->] ?]; [|offsets]
  | E : read_u16 _ _ _ = Fault (ReadPastCaplen _) |- _ =>
      apply read_u16_fault in E as (? & [= ->] & ? & ?); [|offsets]
  | E : read_u32 _ _ _ = Fault (ReadPastCaplen _) |- _ =>
      apply read_u32_fault in E as (? & [= ->] & ? & ?); [|offsets]
  end.

(** X13.  [got_packet] loads nothing beyond offset 87 of the frame: a load
    that faults is at an offset at or beyond [caplen] and at most 87, so a
    frame of 88 captured bytes or more is read within what was captured. *)
Theorem got_packet_reads_headers (P : platform) (hs : HistogramSet) (packet : list byte)
    (off : Z) :
  got_packet P hs packet = Fault (ReadPastCaplen off) ->
  Z.of_nat (length packet) <= off <= 87.
Proof.
  unfold got_packet, got_packet_tcp, got_packet_other. intros H.
  destruct (read_u8 packet (SIZE_ETHERNET + off_ip_vhl)) as [ip_vhl|] eqn:Evhl;
    cbn [bind] in H.
  2:{ injection H as ->. read_fault. offsets. }
  pose proof (IH := IP_HL_range ip_vhl).
  run_outcome; subst;
    repeat match goal with
           | E : incr _ _ _ _ = Fault _ |- _ => apply incr_Fault in E as [[=] _]
           end;
    read_fault; offsets.
Qed.

(** The frame of 15 captured bytes faults at offset 26. *)
Lemma got_packet_reads_headers_witness :
  got_packet linux_x86_64 load_histograms frame_15_bytes = Fault (ReadPastCaplen 26)
  /\ Z.of_nat (length frame_15_bytes) <= 26 <= 87.
Proof.
  assert (E : got_packet linux_x86_64 load_histograms frame_15_bytes
              = Fault (ReadPastCaplen 26)) by (vm_compute; reflexivity).
  split; [exact E|].
  apply (got_packet_reads_headers linux_x86_64 load_histograms frame_15_bytes 26 E).
Defined.

(** ** The payload printers *)

(** The sample row of the comment above [print_hex_ascii_line].  The
    function writes it with four spaces before the ASCII column, the comment
    shows three. *)
Lemma print_hex_ascii_line_sample :
  print_hex_ascii_line sample_row 16 0 = Done sample_line.
Proof. vm_compute. reflexivity. Qed.

Lemma char_byte_val (b : byte) : char (byte_val b) = b.
Proof. unfold char, byte_val. rewrite N2Z.id, Byte.of_to_N. reflexivity. Qed.

Lemma decimal_length (fuel : nat) :
  forall (n : Z) (acc : list byte) (k : nat),
    0 <= n < 10 ^ Z.of_nat k -> (1 <= k <= fuel)%nat ->
    (length acc < length (decimal fuel n acc) <= length acc + k)%nat.
Proof.
  induction fuel as [|fuel IH]; intros n acc k Hn Hk; [lia|].
  cbn [decimal]. destruct k as [|k]; [lia|].
  destruct (n / 10 =? 0) eqn:E; [cbn [length]; lia|].
  apply Z.eqb_neq in E.
  rewrite Nat2Z.inj_succ, Z.pow_succ_r in Hn by lia.
  assert (Hq : 0 <= n / 10 < 10 ^ Z.of_nat k).
  { split; [apply Z.div_pos; lia|]. apply Z.div_lt_upper_bound; lia. }
  assert (Hk1 : (1 <= k)%nat).
  { destruct k as [|k]; [|lia]. cbn in Hq. lia. }
  specialize (IH (n / 10) (char (48 + n mod 10) :: acc) k Hq ltac:(lia)).
  cbn [length] in IH. lia.
Qed.

(** Offsets of up to five digits take five characters. *)
Lemma printf_05d_length (z : Z) : 0 <= z <= 99999 -> length (printf_05d z) = 5%nat.
Proof.
  intros Hz. unfold printf_05d.
  destruct (z <? 0) eqn:E; [lia|]. cbn [app length].
  pose proof (decimal_length 10 (Z.abs z) [] 5 ltac:(cbn; lia) ltac:(lia)) as H.
  cbn [length] in H. rewrite length_app, length_replicate. lia.
Qed.

Lemma hex_loop_length (payload : list byte) (n : nat) :
  forall (i : Z) (out : list byte),
    hex_loop payload i n = Done out ->
    Z.of_nat (length out)
    = 3 * Z.of_nat n + (if (i <=? 7) && (7 <? i + Z.of_nat n) then 1 else 0).
Proof.
  induction n as [|n IH]; intros i out H.
  - cbn in H. injection H as <-. cbn [length].
    destruct (Z.leb_spec i 7), (Z.ltb_spec 7 (i + Z.of_nat 0)); cbn [andb]; lia.
  - cbn [hex_loop] in H. run_outcome. subst.
    specialize (IH _ _ E0). cbn [length]. rewrite length_app. revert IH.
    destruct (Z.eqb_spec i 7), (Z.leb_spec i 7), (Z.leb_spec (i + 1) 7),
      (Z.ltb_spec 7 (i + 1 + Z.of_nat n)), (Z.ltb_spec 7 (i + Z.of_nat (S n)));
      cbn [andb length]; intros IH; lia.
Qed.

Lemma hex_loop_Done (payload : list byte) (n : nat) :
  forall i : Z,
    0 <= i -> i + Z.of_nat n <= Z.of_nat (length payload) ->
    exists out, hex_loop payload i n = Done out.
Proof.
  induction n as [|n IH]; intros i Hi Hn; [eexists; reflexivity|].
  cbn [hex_loop]. unfold read_u8.
  destruct (lookup_lt_is_Some_2 payload (Z.to_nat i) ltac:(lia)) as [b ->].
  destruct (IH (i + 1) ltac:(lia) ltac:(lia)) as [rest ->].
  eexists. reflexivity.
Qed.

Lemma ascii_loop_Done (payload : list byte) (n : nat) :
  forall i : Z,
    0 <= i -> i + Z.of_nat n <= Z.of_nat (length payload) ->
    ascii_loop payload i n
    = Done ((fun b => ascii_or_dot (byte_val b)) <$> take n (drop (Z.to_nat i) payload)).
Proof.
  induction n as [|n IH]; intros i Hi Hn; [reflexivity|].
  cbn [ascii_loop]. unfold read_u8.
  destruct (lookup_lt_is_Some_2 payload (Z.to_nat i) ltac:(lia)) as [b Hb].
  rewrite Hb. cbn [bind]. rewrite (IH (i + 1)) by lia. cbn [bind].
  rewrite (drop_S _ _ _ Hb). cbn [take fmap list_fmap].
  replace (Z.to_nat (i + 1)) with (S (Z.to_nat i)) by lia. reflexivity.
Qed.

Lemma ascii_loop_inv (payload : list byte) (n : nat) :
  forall (i : Z) (out : list byte),
    ascii_loop payload i n = Done out -> 0 <= i ->
    length out = n /\
    out = (fun b => ascii_or_dot (byte_val b)) <$> take n (drop (Z.to_nat i) payload).
Proof.
  induction n as [|n IH]; intros i out H Hi.
  - injection H as <-. split; reflexivity.
  - cbn [ascii_loop] in H. unfold read_u8 in H.
    destruct (payload !! Z.to_nat i) as [b|] eqn:Hb; [|discriminate].
    cbn [bind] in H.
    destruct (ascii_loop payload (i + 1) n) as [rest|] eqn:E; [|discriminate].
    injection H as <-. destruct (IH _ _ E ltac:(lia)) as [Hl Hr].
    split; [cbn [length]; lia|].
    rewrite (drop_S _ _ _ Hb), Hr. cbn [take fmap list_fmap].
    replace (Z.to_nat (i + 1)) with (S (Z.to_nat i)) by lia. reflexivity.
Qed.

Lemma print_hex_ascii_line_Done (payload : list byte) (len offset : Z) :
  len <= Z.of_nat (length payload) ->
  exists out, print_hex_ascii_line payload len offset = Done out.
Proof.
  intros Hlen. unfold print_hex_ascii_line.
  destruct (hex_loop_Done payload (Z.to_nat len) 0 ltac:(lia) ltac:(lia)) as [hex ->].
  rewrite ascii_loop_Done by lia. eexists. reflexivity.
Qed.

Lemma gap_length (g : nat) :
  length (concat (replicate g [space; space; space])) = (3 * g)%nat.
Proof.
  induction g as [|g IH]; [reflexivity|].
  cbn [replicate concat app length] in *. lia.
Qed.

(** A printable byte is shown as itself. *)
Lemma ascii_or_dot_printable (b : byte) :
  isprint (byte_val b) = true -> ascii_or_dot (byte_val b) = b.
Proof. intros H. unfold ascii_or_dot. rewrite H. apply char_byte_val. Qed.

(** X14.  A row of up to 16 bytes at an offset of up to five digits is
    printed in [61 + len] characters, whatever its length: the ASCII column
    starts at column 60 and shows, for each byte of the row, the byte itself
    if it is printable and a dot otherwise, followed by the newline. *)
Theorem print_hex_ascii_line_columns (payload : list byte) (len offset : Z)
    (out : list byte) :
  print_hex_ascii_line payload len offset = Done out ->
  0 <= len <= 16 -> 0 <= offset <= 99999 ->
  Z.of_nat (length out) = 61 + len /\
  drop 60 out = ((fun b => ascii_or_dot (byte_val b)) <$> take (Z.to_nat len) payload)
                ++ [newline].
Proof.
  intros H Hlen Hoff. unfold print_hex_ascii_line in H.
  destruct (hex_loop payload 0 (Z.to_nat len)) as [hex|] eqn:Ehex; [|discriminate].
  cbn [bind] in H.
  destruct (ascii_loop payload 0 (Z.to_nat len)) as [ascii|] eqn:Eascii; [|discriminate].
  cbn [bind] in H. injection H as <-.
  pose proof (hex_loop_length _ _ _ _ Ehex) as Lhex.
  rewrite Z2Nat.id in Lhex by lia.
  pose proof (printf_05d_length offset Hoff) as Loff.
  set (pad := if len <? 8 then [space] else []).
  set (gap := if len <? 16 then _ else []).
  assert (Lpad : Z.of_nat (length hex + length pad) = 3 * len + 1).
  { unfold pad. destruct (Z.ltb_spec len 8), (Z.ltb_spec 7 (0 + len));
      cbn [Z.leb Z.compare andb length] in *; lia. }
  assert (Lgap : Z.of_nat (length gap) = 3 * (16 - len)).
  { unfold gap. destruct (Z.ltb_spec len 16); [|cbn; lia].
    rewrite wrap_int_id by (unfold INT_MIN, INT_MAX; lia).
    rewrite gap_length. lia. }
  destruct (ascii_loop_inv _ _ _ _ Eascii ltac:(lia)) as [Lascii Hascii].
  change (Z.to_nat 0) with 0%nat in Hascii. rewrite drop_0 in Hascii.
  split.
  - clearbody pad gap. repeat (rewrite length_app || cbn [length]). lia.
  - rewrite <- Hascii. clearbody pad gap.
    transitivity (drop 60 ((printf_05d offset ++ [space; space; space] ++ hex ++ pad
                            ++ gap ++ [space; space; space]) ++ ascii ++ [newline])).
    { f_equal. rewrite <- !app_assoc. reflexivity. }
    apply drop_app_length'.
    repeat (rewrite length_app || cbn [length]). lia.
Qed.

(** The sample row: 77 characters. *)
Lemma print_hex_ascii_line_columns_witness :
  Z.of_nat (length sample_line) = 61 + 16 /\
  drop 60 sample_line
  = ((fun b => ascii_or_dot (byte_val b)) <$> take (Z.to_nat 16) sample_row) ++ [newline].
Proof.
  apply (print_hex_ascii_line_columns sample_row 16 0 sample_line
           print_hex_ascii_line_sample); lia.
Defined.

(** From a state with more than one row left, the loop prints full rows of
    16 bytes and ends with the row of what remains. *)
Lemma print_payload_loop_rows (fuel : nat) :
  forall (ch : list byte) (len_rem offset : Z),
    16 < len_rem <= Z.of_nat (length ch) -> len_rem <= 16 * (Z.of_nat fuel + 1) ->
    0 <= offset -> offset + len_rem <= INT_MAX ->
    exists outs : list (list byte),
      print_payload_loop fuel ch len_rem offset = Done (Some (concat outs))
      /\ Z.of_nat (length outs) = (len_rem + 15) / 16
      /\ forall (k : nat) (o : list byte),
           outs !! k = Some o ->
           print_hex_ascii_line (drop (16 * k) ch) (Z.min 16 (len_rem - 16 * Z.of_nat k))
                                (offset + 16 * Z.of_nat k)
           = Done o.
Proof.
  induction fuel as [|fuel IH]; intros ch len_rem offset Hlen Hfuel Hoff Hmax; [lia|].
  cbn [print_payload_loop]. destruct (Z.eqb_spec len_rem 0) as [|_]; [lia|].
  rewrite Z.rem_small by lia.
  destruct (print_hex_ascii_line_Done ch 16 offset ltac:(lia)) as [line Eline].
  rewrite Eline. cbn [bind].
  rewrite !wrap_int_id by (unfold INT_MIN, INT_MAX in *; lia).
  change (Z.to_nat 16) with 16%nat.
  assert (Hdrop : Z.of_nat (length (drop 16 ch)) = Z.of_nat (length ch) - 16)
    by (rewrite length_drop; lia).
  assert (Hrow0 : print_hex_ascii_line (drop (16 * 0) ch)
                    (Z.min 16 (len_rem - 16 * Z.of_nat 0)) (offset + 16 * Z.of_nat 0)
                  = Done line).
  { cbn [Nat.mul drop]. rewrite Z.min_l by lia.
    replace (offset + 16 * Z.of_nat 0) with offset by lia. exact Eline. }
  assert (Hshift : forall k : nat,
             print_hex_ascii_line (drop (16 * S k) ch)
               (Z.min 16 (len_rem - 16 * Z.of_nat (S k))) (offset + 16 * Z.of_nat (S k))
             = print_hex_ascii_line (drop (16 * k) (drop 16 ch))
                 (Z.min 16 (len_rem - 16 - 16 * Z.of_nat k))
                 (offset + 16 + 16 * Z.of_nat k)).
  { intros k. rewrite drop_drop. f_equal; [f_equal; lia|f_equal; lia|lia]. }
  destruct (Z.leb_spec (len_rem - 16) 16) as [Hlast|Hmore].
  - destruct (print_hex_ascii_line_Done (drop 16 ch) (len_rem - 16) (offset + 16)
                ltac:(lia)) as [last Elast].
    rewrite Elast. cbn [bind].
    exists [line; last]. split; [cbn [concat]; rewrite app_nil_r; reflexivity|].
    split.
    + cbn [length]. apply Z.div_unique with (r := len_rem + 15 - 32); lia.
    + intros [|[|k]] o Ho; try discriminate Ho; injection Ho as <-.
      * exact Hrow0.
      * rewrite Hshift. cbn [Nat.mul drop]. rewrite Z.min_r by lia.
        replace (len_rem - 16 - 16 * Z.of_nat 0) with (len_rem - 16) by lia.
        replace (offset + 16 + 16 * Z.of_nat 0) with (offset + 16) by lia.
        exact Elast.
  - destruct (IH (drop 16 ch) (len_rem - 16) (offset + 16)
                ltac:(lia) ltac:(lia) ltac:(lia) ltac:(lia)) as (outs & -> & Hn & Hrows).
    cbn [bind fmap option_fmap option_map].
    exists (line :: outs). split; [reflexivity|]. split.
    + cbn [length]. rewrite Nat2Z.inj_succ, Hn.
      replace (len_rem + 15) with (len_rem - 16 + 15 + 1 * 16) by lia.
      rewrite Z.div_add by lia. lia.
    + intros [|k] o Ho.
      * injection Ho as <-. exact Hrow0.
      * rewrite Hshift. apply Hrows. exact Ho.
Qed.

(** X15.  For [0 < len] bytes, all captured, [print_payload] ends without a
    division by zero ([line_width % len_rem] is taken with [len_rem] above
    16 only, and is 16) and without reading past [len]: it prints
    [(len + 15) / 16] rows, row [k] showing the 16 bytes from [16 * k] on at
    offset [16 * k], the last row what remains. *)
Theorem print_payload_rows (fuel : nat) (payload : list byte) (len : Z) :
  0 < len <= Z.of_nat (length payload) -> len <= INT_MAX ->
  len <= 16 * (Z.of_nat fuel + 1) ->
  exists outs : list (list byte),
    print_payload fuel payload len = Done (Some (concat outs))
    /\ Z.of_nat (length outs) = (len + 15) / 16
    /\ forall (k : nat) (o : list byte),
         outs !! k = Some o ->
         print_hex_ascii_line (drop (16 * k) payload) (Z.min 16 (len - 16 * Z.of_nat k))
                              (16 * Z.of_nat k)
         = Done o.
Proof.
  intros Hlen Hmax Hfuel. unfold print_payload.
  destruct (Z.leb_spec len 0) as [|_]; [lia|].
  destruct (Z.leb_spec len 16) as [Hone|Hmore].
  - destruct (print_hex_ascii_line_Done payload len 0 ltac:(lia)) as [line Eline].
    rewrite Eline. cbn [bind]. exists [line].
    split; [cbn [concat]; rewrite app_nil_r; reflexivity|]. split.
    + cbn [length]. apply Z.div_unique with (r := len + 15 - 16); lia.
    + intros [|k] o Ho; [|discriminate Ho]. injection Ho as <-.
      cbn [Nat.mul drop]. rewrite Z.min_r by lia.
      replace (len - 16 * Z.of_nat 0) with len by lia. exact Eline.
  - destruct (print_payload_loop_rows fuel payload len 0) as (outs & E & Hn & Hrows);
      try lia.
    exists outs. split; [exact E|]. split; [exact Hn|].
    intros k o Ho. apply Hrows in Ho. exact Ho.
Qed.

(** 35 bytes: three rows. *)
Lemma print_payload_rows_witness :
  exists outs : list (list byte),
    print_payload 2 (sample_row ++ sample_row ++ [x41; x42; x43]) 35
    = Done (Some (concat outs))
    /\ Z.of_nat (length outs) = (35 + 15) / 16
    /\ forall (k : nat) (o : list byte),
         outs !! k = Some o ->
         print_hex_ascii_line (drop (16 * k) (sample_row ++ sample_row ++ [x41; x42; x43]))
                              (Z.min 16 (35 - 16 * Z.of_nat k)) (16 * Z.of_nat k)
         = Done o.
Proof.
  apply (print_payload_rows 2 (sample_row ++ sample_row ++ [x41; x42; x43]) 35);
    cbn; unfold INT_MAX; lia.
Defined.

(** ** [load] and [main] *)

Lemma zero_loop_spec (n : nat) (arr : list Z) :
  length arr = n -> zero_loop n arr = replicate n 0.
Proof.
  intros Hlen. unfold zero_loop.
  assert (H : forall k (l : list Z), (k <= n)%nat -> length l = n ->
              take (n - k) l = replicate (n - k) 0 ->
              fold_left (fun arr i => <[i := 0]> arr) (seq (n - k) k) l = replicate n 0).
  { induction k as [|k IH]; intros l Hk Hl Ht.
    - cbn. rewrite Nat.sub_0_r in Ht. rewrite <- Ht, take_ge by lia. reflexivity.
    - cbn [seq fold_left]. replace (S (n - S k)) with (n - k)%nat by lia.
      apply IH; [lia|rewrite length_insert; exact Hl|].
      replace (n - k)%nat with (S (n - S k)) at 1 2 by lia.
      destruct (lookup_lt_is_Some_2 l (n - S k)) as [x Hx]; [lia|].
      rewrite (take_S_r _ _ 0).
      + rewrite take_insert_ge by lia. rewrite Ht. rewrite replicate_S_end. reflexivity.
      + apply list_lookup_insert_eq. lia. }
  specialize (H n arr ltac:(lia) Hlen). rewrite Nat.sub_diag in H. apply H. reflexivity.
Qed.

Lemma setup_data_values_spec (hs : HistogramSet) :
  shaped hs -> setup_data_values hs = load_histograms.
Proof.
  intros (H1 & H2 & H3 & H4 & H5 & H6 & H7). unfold setup_data_values, load_histograms.
  rewrite !zero_loop_spec by assumption. reflexivity.
Qed.

(** X16.  [load] counts the frames of its dump only: called with a file
    name, it leaves the same histograms, reports and result whatever the
    seven arrays held before. *)
Theorem load_resets (P : platform) (cap : capture) (hs : HistogramSet) :
  shaped hs -> load P 2 cap hs = load P 2 cap load_histograms.
Proof.
  intros Hs. unfold load. cbn [Z.eqb negb].
  rewrite (setup_data_values_spec hs Hs), (setup_data_values_spec _ shaped_load).
  reflexivity.
Qed.

(** [flags] held sevens before the call. *)
Lemma load_resets_witness :
  load linux_x86_64 2
    {| pcap_open_offline := Some [frame_tcp_syn_80]; pcap_compile := true;
       pcap_setfilter := true |}
    (set_flags load_histograms (replicate 256 7))
  = load linux_x86_64 2
      {| pcap_open_offline := Some [frame_tcp_syn_80]; pcap_compile := true;
         pcap_setfilter := true |}
      load_histograms.
Proof.
  apply (load_resets linux_x86_64 _ (set_flags load_histograms (replicate 256 7))).
  repeat split.
Defined.




